(** * The axis controller of the Teensy firmware

    Source: src/teensy-controller/src/main.cpp.

    One pass of [loop] reads a rotary encoder and a debounced button,
    moves a [float] axis value by the new ticks, lets it decay toward
    zero, and sends a joystick frame and key events.  The model follows
    the code block by block.  [float] is IEEE-754 binary32 and [double]
    is binary64, both carried by [spec_float] with the operations of
    the standard library's [SpecFloat] (round to nearest, ties to
    even); [int] and [long] are 32 bits wide; what [setup] and [loop]
    do to the outside is the list of events they return. *)

From Stdlib Require Import ZArith Bool List Lia QArith Qpower Qabs Qround Morphisms.
From Stdlib Require Import Reals Qreals Psatz.
From Stdlib Require Import SpecFloat.
Import ListNotations.
Local Open Scope Z_scope.

(** * Part I: the program *)

(** ** The two floating-point formats *)

(** [float]. *)
Module F.

Definition prec : Z := 24.
Definition emax : Z := 128.
Definition mul : spec_float -> spec_float -> spec_float := SFmul prec emax.
Definition sub : spec_float -> spec_float -> spec_float := SFsub prec emax.

(** Conversion of an [int] to [float]. *)
Definition of_int (z : Z) : spec_float := binary_normalize prec emax z 0 false.

(** Conversion of a [double] to [float]. *)
Definition of_double (x : spec_float) : spec_float :=
  match x with
  | S754_finite s m e => binary_round prec emax s m e
  | _ => x
  end.

End F.

(** [double]. *)
Module D.

Definition prec : Z := 53.
Definition emax : Z := 1024.
Definition add : spec_float -> spec_float -> spec_float := SFadd prec emax.
Definition sub : spec_float -> spec_float -> spec_float := SFsub prec emax.
Definition mul : spec_float -> spec_float -> spec_float := SFmul prec emax.
Definition div : spec_float -> spec_float -> spec_float := SFdiv prec emax.

(** Conversion of an [int] to [double]; also the literals [512.0],
    [511.0], [1.0] and [-1.0], which are integers. *)
Definition of_int (z : Z) : spec_float := binary_normalize prec emax z 0 false.

(** Promotion of a [float] to [double]. *)
Definition of_float (x : spec_float) : spec_float :=
  match x with
  | S754_finite s m e => binary_round prec emax s m e
  | _ => x
  end.

(** The decimal literal [n/d] of the source text, read as a [double]:
    the correctly rounded quotient of two integers. *)
Definition lit (n d : Z) : spec_float := div (of_int n) (of_int d).

(** The cast [(long)x]: truncation toward zero.  The cast of a NaN or
    of an infinity is undefined in C++; the model returns 0 there. *)
Definition to_long (x : spec_float) : Z :=
  match x with
  | S754_finite s m e =>
      let a := match e with
               | Zneg p => Zpos m / 2 ^ Zpos p
               | _ => Zpos m * 2 ^ e
               end in
      if s then - a else a
  | _ => 0
  end.

End D.

(** The comparison operators of C++ on floating-point values; every
    comparison with a NaN is false, and [!=] is true. *)
Definition flt (a b : spec_float) : bool := SFltb a b.
Definition fgt (a b : spec_float) : bool := SFltb b a.
Definition fge (a b : spec_float) : bool := SFleb b a.
Definition fne (a b : spec_float) : bool := negb (SFeqb a b).

(** [int] and [long] are 32 bits wide; the subtraction of two counts
    wraps around. *)
Definition wrap32 (z : Z) : Z := (z + 2 ^ 31) mod 2 ^ 32 - 2 ^ 31.

(** ** Macros of the Arduino core *)

(** Modelled from the spec: [constrain] is a macro of the Arduino core,
    which is not part of the repository.  It is the spec's clamp,
    saturating at both bounds, as the core writes it:
    [(amt < low) ? low : ((amt > high) ? high : amt)]. *)
Definition constrain (amt low high : spec_float) : spec_float :=
  if flt amt low then low else if fgt amt high then high else amt.

(** Modelled from the spec: the same macro on [int] operands. *)
Definition constrain_int (amt low high : Z) : Z :=
  if amt <? low then low else if amt >? high then high else amt.

(** Modelled from the spec: [abs] is a macro of the Arduino core, the
    spec's absolute value, as the core writes it: [(x > 0) ? x : -x]. *)
Definition arduino_abs (x : spec_float) : spec_float :=
  if fgt x (S754_zero false) then x else SFopp x.

(** Modelled from the spec: [round] is a macro of the Arduino core,
    the spec's rounding to an integer, as the core writes it:
    [(x >= 0) ? (long)(x + 0.5) : (long)(x - 0.5)]. *)
Definition arduino_round (x : spec_float) : Z :=
  if fge x (S754_zero false)
  then D.to_long (D.add x (D.lit 5 10))
  else D.to_long (D.sub x (D.lit 5 10)).

(** ** Globals of main.cpp (lines 14-23) *)

(** [const float incrementStep = 0.05], [decayRate = 0.8] and
    [zeroThreshold = 0.01]: [double] literals converted to [float]. *)
Definition incrementStep : spec_float := F.of_double (D.lit 5 100).
Definition decayRate : spec_float := F.of_double (D.lit 8 10).
Definition zeroThreshold : spec_float := F.of_double (D.lit 1 100).

(** The literal [0.0], as a [float] and as a [double]. *)
Definition fzero : spec_float := S754_zero false.
Definition dzero : spec_float := S754_zero false.

(** The [float]s 1.0 and -1.0. *)
Definition fone : spec_float := F.of_int 1.
Definition fmone : spec_float := F.of_int (-1).

(** Modelled from the spec: the Switch Source, a [Bounce] object of the
    Bounce library, which is not part of the repository.  It holds the
    debounced level of the pin; [update] advances it to the level the
    debouncer has settled on, and the edge queries are true for the one
    pass that follows a transition (section 6 of the spec). *)
Record Bounce : Type := mkBounce { level : bool; stateChanged : bool }.

Definition Bounce_update (debounced : bool) (b : Bounce) : Bounce :=
  {| level := debounced; stateChanged := negb (eqb debounced (level b)) |}.

Definition fallingEdge (b : Bounce) : bool := stateChanged b && negb (level b).

Definition risingEdge (b : Bounce) : bool := stateChanged b && level b.

(** The globals that live from one pass to the next.  [encoder1Position]
    is overwritten at the start of every pass and [encoder1Accum] is
    never used. *)
Record state : Type := mkState {
  lastEncoder1Position : Z;
  joystickXFloat : spec_float;
  button : Bounce
}.

(** What one pass of [loop] reads from the outside: the count of the
    encoder ([encoder1.read()]) and the debounced level of the button
    pin (high is released). *)
Record input : Type := mkInput { encoder1_read : Z; button_level : bool }.

(** What [setup] and [loop] do to the outside, in program order: the
    lines printed on [Serial], the calls on [Joystick] and [Keyboard],
    and the pause. *)
Inductive event : Type :=
| Serial_ready
| Serial_enc (delta : Z) (x : spec_float)
| Serial_decay (x : spec_float)
| Joystick_X (v : Z)
| Joystick_Y (v : Z)
| Joystick_send_now
| Serial_hid (xVal : Z) (x : spec_float) (yVal : Z)
| Keyboard_press
| Serial_pressed
| Keyboard_release
| Serial_released
| Delay (ms : Z).

(** ** Read encoder 1 and update float directly (lines 42-55) *)

(** [constrain(joystickXFloat - delta * effectiveIncrement, -1.0, 1.0)]:
    the difference is a [float]; the macro compares it with the
    [double] bounds and its result is converted back on assignment. *)
Definition tick_value (x : spec_float) (delta : Z) : spec_float :=
  let effectiveIncrement := incrementStep in
  F.of_double
    (constrain (D.of_float (F.sub x (F.mul (F.of_int delta) effectiveIncrement)))
               (D.of_int (-1)) (D.of_int 1)).

Definition read_encoder (enc : Z) (st : state) : state * bool * list event :=
  if negb (enc =? lastEncoder1Position st) then
    let delta := wrap32 (enc - lastEncoder1Position st) in
    let x := tick_value (joystickXFloat st) delta in
    ({| lastEncoder1Position := enc; joystickXFloat := x; button := button st |},
     true, [Serial_enc delta x])
  else (st, false, []).

(** ** Auto-centering decay for X-axis (lines 58-66) *)

(** Lines 60-61: the product with [decayRate], or 0.0 when its absolute
    value is below [zeroThreshold]. *)
Definition decay_value (x : spec_float) : spec_float :=
  let x' := F.mul x decayRate in
  if flt (arduino_abs x') zeroThreshold then fzero else x'.

Definition auto_center (st : state) : state * bool * list event :=
  if fne (D.of_float (joystickXFloat st)) dzero then
    let oldX := joystickXFloat st in
    let x := decay_value oldX in
    let st' := {| lastEncoder1Position := lastEncoder1Position st;
                  joystickXFloat := x; button := button st |} in
    if fne x oldX then (st', true, [Serial_decay x]) else (st', false, [])
  else (st, false, []).

(** ** Update Joystick HID output (lines 69-84) *)

Definition map_x (x : spec_float) : Z :=
  let xVal := arduino_round (D.add (D.of_int 512) (D.mul (D.of_float x) (D.of_int 511))) in
  constrain_int xVal 0 1023.

Definition update_hid (joystickNeedsUpdate : bool) (st : state) : list event :=
  if joystickNeedsUpdate then
    let xVal := map_x (joystickXFloat st) in
    let yVal := 512 in
    [Joystick_X xVal; Joystick_Y yVal; Joystick_send_now;
     Serial_hid xVal (joystickXFloat st) yVal]
  else [].

(** ** Button handling (lines 87-94) *)

Definition button_handling (st : state) : list event :=
  (if fallingEdge (button st) then [Keyboard_press; Serial_pressed] else [])
  ++ (if risingEdge (button st) then [Keyboard_release; Serial_released] else []).

(** ** [setup] (lines 25-35) and [loop] (lines 37-98) *)

Definition setup : state * list event :=
  ({| lastEncoder1Position := 0; joystickXFloat := fzero;
      button := {| level := true; stateChanged := false |} |},
   [Serial_ready; Joystick_X 512; Joystick_Y 512; Joystick_send_now]).

Definition loop (i : input) (st : state) : state * list event :=
  let st0 := {| lastEncoder1Position := lastEncoder1Position st;
                joystickXFloat := joystickXFloat st;
                button := Bounce_update (button_level i) (button st) |} in
  let '(st1, upd1, ev1) := read_encoder (encoder1_read i) st0 in
  let '(st2, upd2, ev2) := auto_center st1 in
  let joystickNeedsUpdate := upd1 || upd2 in
  (st2, ev1 ++ ev2 ++ update_hid joystickNeedsUpdate st2 ++ button_handling st2 ++ [Delay 5]).

(** The passes of [loop] over a sequence of inputs. *)
Fixpoint run (ins : list input) (st : state) : state * list event :=
  match ins with
  | [] => (st, [])
  | i :: ins' =>
      let '(st', ev) := loop i st in
      let '(st'', ev') := run ins' st' in
      (st'', ev ++ ev')
  end.

(** * Part II: what the theorems speak of *)

(** ** The axis value through the blocks of [loop] *)

(** The axis value the decay block leaves. *)
Definition decay_step (x : spec_float) : spec_float :=
  if fne (D.of_float x) dzero then decay_value x else x.

(** [n] passes of the decay block with no tick in between. *)
Definition decay_iter (n : nat) (x : spec_float) : spec_float :=
  Nat.iter n decay_step x.

(** The axis value the encoder block leaves. *)
Definition after_encoder (enc : Z) (st : state) : spec_float :=
  if negb (enc =? lastEncoder1Position st)
  then tick_value (joystickXFloat st) (wrap32 (enc - lastEncoder1Position st))
  else joystickXFloat st.

(** The [double] whose rounding [map_x] sends to the sink. *)
Definition map_arg (x : spec_float) : spec_float :=
  D.add (D.of_int 512) (D.mul (D.of_float x) (D.of_int 511)).

(** The two mutations of the axis value, and the values a sequence of
    them goes through. *)
Inductive axis_op : Type := Tick (delta : Z) | Decay.

Definition apply_op (x : spec_float) (o : axis_op) : spec_float :=
  match o with
  | Tick delta => tick_value x delta
  | Decay => decay_step x
  end.

Fixpoint axis_trace (ops : list axis_op) (x : spec_float) : list spec_float :=
  match ops with
  | [] => []
  | o :: ops' => apply_op x o :: axis_trace ops' (apply_op x o)
  end.

(** ** Observations on the events *)

Definition is_key (e : event) : bool :=
  match e with
  | Keyboard_press | Keyboard_release => true
  | _ => false
  end.

Definition is_joystick (e : event) : bool :=
  match e with
  | Joystick_X _ | Joystick_Y _ | Joystick_send_now => true
  | _ => false
  end.

(** The key events a sequence of debounced levels calls for, from the
    level [lvl] the Switch Source holds. *)
Fixpoint key_edges (lvl : bool) (levels : list bool) : list event :=
  match levels with
  | [] => []
  | l :: levels' =>
      (if lvl && negb l then [Keyboard_press] else [])
      ++ (if negb lvl && l then [Keyboard_release] else [])
      ++ key_edges l levels'
  end.

(** The joystick report on the host: [Joystick.X] and [Joystick.Y] write
    the pending report, [Joystick.send_now] sends it ([setup] selects
    manual send).  A state is the pending report and the report the
    host holds, each as (X, Y). *)
Definition hid_step (h : (Z * Z) * (Z * Z)) (e : event) : (Z * Z) * (Z * Z) :=
  match e with
  | Joystick_X v => ((v, snd (fst h)), snd h)
  | Joystick_Y v => ((fst (fst h), v), snd h)
  | Joystick_send_now => (fst h, fst h)
  | _ => h
  end.

Definition host_report (h : (Z * Z) * (Z * Z)) (evs : list event) : Z * Z :=
  snd (fold_left hid_step evs h).

(** The space key on the host: [Some down] while key-down and key-up
    alternate, [None] once a key-down arrives while the key is down or
    a key-up while it is up. *)
Definition key_step (k : option bool) (e : event) : option bool :=
  match k, e with
  | Some false, Keyboard_press => Some true
  | Some true, Keyboard_release => Some false
  | Some _, Keyboard_press | Some _, Keyboard_release => None
  | _, _ => k
  end.

Definition space_key (down : bool) (evs : list event) : option bool :=
  fold_left key_step evs (Some down).

(** The sum of the deltas the encoder block applied. *)
Fixpoint ticks_applied (evs : list event) : Z :=
  match evs with
  | [] => 0
  | Serial_enc delta _ :: evs' => delta + ticks_applied evs'
  | _ :: evs' => ticks_applied evs'
  end.

(** ** Floats as rational numbers *)

Definition pow2 (e : Z) : Q := Qpower 2 e.

Definition F2Q (s : bool) (m : Z) (e : Z) : Q :=
  ((if s then - inject_Z m else inject_Z m) * pow2 e)%Q.

(** The value of a finite float; 0 for the others. *)
Definition SF2Q (x : spec_float) : Q :=
  match x with
  | S754_finite s m e => F2Q s (Zpos m) e
  | _ => 0%Q
  end.

Definition is_finite (x : spec_float) : bool :=
  match x with
  | S754_finite _ _ _ | S754_zero _ => true
  | _ => false
  end.

Definition is_nan (x : spec_float) : bool :=
  match x with S754_nan => true | _ => false end.

Definition sign_of (x : spec_float) : bool :=
  match x with
  | S754_zero s | S754_infinity s | S754_finite s _ _ => s
  | S754_nan => false
  end.

(** A finite float in canonical form, within the exponent range. *)
Definition valid_finite (prec emax : Z) (x : spec_float) : bool :=
  valid_binary prec emax x && is_finite x.

(** The values of a format, any exponent allowed. *)
Definition in_format (prec emax : Z) (F : Q) : Prop :=
  (F == 0)%Q \/
  exists s m e, canonical_mantissa prec emax m e = true /\ (F == F2Q s (Zpos m) e)%Q.

(** [V] is a value of the format nearest to [X]. *)
Definition nearest (prec emax : Z) (X V : Q) : Prop :=
  in_format prec emax V /\
  forall F, in_format prec emax F -> (Qabs (V - X) <= Qabs (F - X))%Q.

(** The mantissa the rounding of [m * 2^e] to a multiple of [2^(e+k)]
    keeps: to nearest, ties to even. *)
Definition rne_shift (m k : Z) : Z :=
  let q := m / 2 ^ k in
  let r := m mod 2 ^ k in
  match 2 * r ?= 2 ^ k with
  | Lt => q
  | Eq => if Z.even q then q else q + 1
  | Gt => q + 1
  end.

(** The mantissa and exponent [binary_round_aux] arrives at for the
    positive value [m * 2^e], before the overflow test. *)
Definition round_pos (prec emax m e : Z) : Z * Z :=
  let e1 := fexp prec emax (Zdigits2 m + e) in
  let m1 := rne_shift m (e1 - e) in
  if m1 =? 2 ^ prec then (2 ^ (prec - 1), e1 + 1) else (m1, e1).

Definition float_of_round (prec emax : Z) (s : bool) (me : Z * Z) : spec_float :=
  match fst me with
  | Z0 => S754_zero s
  | Zpos p => if snd me <=? emax - prec then S754_finite s p (snd me) else S754_infinity s
  | Zneg _ => S754_nan
  end.

(** ** Invariants of the controller *)

(** The axis invariant: a well-formed finite [float] with
    [-1.0 <= x && x <= 1.0]. *)
Definition axis_ok (x : spec_float) : bool :=
  valid_finite F.prec F.emax x && SFleb fmone x && SFleb x fone.

(** A value of type [int]. *)
Definition is_int (z : Z) : Prop := - 2 ^ 31 <= z < 2 ^ 31.

Definition op_is_int (o : axis_op) : Prop :=
  match o with Tick delta => is_int delta | Decay => True end.

(** The axis values [loop] prints on the serial line are within the
    invariant. *)
Definition event_axis_ok (e : event) : Prop :=
  match e with
  | Serial_enc _ x | Serial_decay x | Serial_hid _ x _ => axis_ok x = true
  | _ => True
  end.

(** After the decay the axis value is 0.0 or outside the deadband:
    [x == 0.0 || abs(x) >= zeroThreshold]. *)
Definition deadband_ok (x : spec_float) : bool :=
  negb (fne x fzero) || fge (arduino_abs x) zeroThreshold.

(** What a pass sends is built from a value outside the deadband, and
    the X of a frame is in [1, 1023]. *)
Definition hid_event_ok (e : event) : Prop :=
  match e with
  | Serial_hid xVal x _ => deadband_ok x = true /\ xVal = map_x x
  | Joystick_X v => 1 <= v <= 1023
  | _ => True
  end.

(** The X values [loop] can send: 512, or at least 5 and at most 409
    counts away from it. *)
Definition frame_X_reachable (e : event) : Prop :=
  match e with
  | Joystick_X v => 103 <= v <= 507 \/ v = 512 \/ 517 <= v <= 921
  | _ => True
  end.

(** ** Values used in the proofs and as test inputs *)

(** The [float]s [2^31] and [2^32]. *)
Definition f2p31 : spec_float := S754_finite false 8388608 8.
Definition f2p32 : spec_float := S754_finite false 8388608 9.

(** A start value from which [S j] passes of the decay reach 0.0, above
    [(1/100) * (5/4)^j]: the float nearest to [(11/1000) * (5/4)^j]. *)
Definition decay_threshold (j : nat) : spec_float :=
  F.of_double (D.div (D.of_int (11 * 5 ^ Z.of_nat j)) (D.of_int (1000 * 4 ^ Z.of_nat j))).

Definition is_fzero (x : spec_float) : bool :=
  match x with S754_zero false => true | _ => false end.

Definition decay_threshold_ok (j : nat) : bool :=
  axis_ok (decay_threshold j)
  && is_fzero (decay_iter (S j) (decay_threshold j))
  && Qle_bool ((1 # 100) * (5 # 4) ^ Z.of_nat j) (SF2Q (decay_threshold j)).

(** The axis at its upper bound, the count at 0, the button released. *)
Definition saturated_state : state :=
  {| lastEncoder1Position := 0; joystickXFloat := fone;
     button := {| level := true; stateChanged := false |} |}.

(** Released, pressed for three passes, released, with the encoder
    moving meanwhile. *)
Definition press_release_inputs : list input :=
  [mkInput 0 true; mkInput 3 false; mkInput 3 false; mkInput 1 false; mkInput 1 true].

(** The [float] just below 0.0125. *)
Definition below_0_0125 : spec_float := S754_finite false 13421772 (-30).

(** The inputs of [n] passes with the encoder at [enc] and the button
    at [lvl]. *)
Definition hold (enc : Z) (lvl : bool) (n : nat) : list input :=
  repeat (mkInput enc lvl) n.

(** The [float] 0.25. *)
Definition f_quarter : spec_float := S754_finite false 8388608 (-25).

(** A state in mid-turn: the axis at 0.25, the count at 7, the button
    held. *)
Definition turning_state : state :=
  {| lastEncoder1Position := 7; joystickXFloat := f_quarter;
     button := {| level := false; stateChanged := false |} |}.

(** * Part III: rounding in [SpecFloat] *)

(** ** Digits *)

Lemma digits2_pos_bounds (m : positive) :
  2 ^ (Zpos (digits2_pos m) - 1) <= Zpos m < 2 ^ Zpos (digits2_pos m).
Proof.
  induction m as [m IH | m IH | ]; cbn [digits2_pos].
  - rewrite Pos2Z.inj_succ, Z.pow_succ_r by lia.
    replace (Z.succ (Zpos (digits2_pos m)) - 1) with (Z.succ (Zpos (digits2_pos m) - 1)) by lia.
    rewrite Z.pow_succ_r by lia. lia.
  - rewrite Pos2Z.inj_succ, Z.pow_succ_r by lia.
    replace (Z.succ (Zpos (digits2_pos m)) - 1) with (Z.succ (Zpos (digits2_pos m) - 1)) by lia.
    rewrite Z.pow_succ_r by lia. lia.
  - cbn. lia.
Qed.

Lemma digits2_pos_unique (m : positive) (d : Z) :
  2 ^ (d - 1) <= Zpos m < 2 ^ d -> Zpos (digits2_pos m) = d.
Proof.
  intros [Hlo Hhi]. pose proof (digits2_pos_bounds m) as [Hlo' Hhi'].
  assert (0 < d).
  { destruct (Z_lt_le_dec 0 d) as [|Hd]; [assumption|].
    exfalso. destruct (Z.eq_dec d 0) as [->|].
    - cbn in Hhi. lia.
    - rewrite (Z.pow_neg_r 2 d) in Hhi by lia. lia. }
  destruct (Z.lt_trichotomy (Zpos (digits2_pos m)) d) as [Hc | [Hc | Hc]]; [exfalso | assumption | exfalso].
  - assert (2 ^ Zpos (digits2_pos m) <= 2 ^ (d - 1)) by (apply Z.pow_le_mono_r; lia). lia.
  - assert (2 ^ d <= 2 ^ (Zpos (digits2_pos m) - 1)) by (apply Z.pow_le_mono_r; lia). lia.
Qed.

(** ** Shifting right with a round and a sticky bit *)

Lemma iter_pos_nat {A : Type} (f : A -> A) (p : positive) (x : A) :
  iter_pos f p x = Nat.iter (Pos.to_nat p) f x.
Proof.
  revert x. induction p as [p IH | p IH | ]; intros x; cbn [iter_pos].
  - rewrite !IH, Pos2Nat.inj_xI.
    replace (S (2 * Pos.to_nat p)) with (Pos.to_nat p + S (Pos.to_nat p))%nat by lia.
    rewrite Nat.iter_add, Nat.iter_succ_r. reflexivity.
  - rewrite !IH, Pos2Nat.inj_xO.
    replace (2 * Pos.to_nat p)%nat with (Pos.to_nat p + Pos.to_nat p)%nat by lia.
    rewrite Nat.iter_add. reflexivity.
  - reflexivity.
Qed.

Lemma shr_1_nonneg (m : Z) (r s : bool) :
  0 <= m ->
  shr_1 (Build_shr_record m r s) = Build_shr_record (m / 2) (Z.odd m) (r || s).
Proof.
  intros Hm. rewrite <- Z.div2_div.
  destruct m as [ | [p | p | ] | p]; try lia; reflexivity.
Qed.

Lemma mod_pow2_succ (m : Z) (n : Z) :
  0 <= n ->
  m mod 2 ^ (n + 1) = m mod 2 ^ n + 2 ^ n * Z.b2z (Z.testbit m n).
Proof.
  intros Hn. rewrite Z.pow_add_r, Z.pow_1_r by lia.
  rewrite Z.rem_mul_r by lia.
  rewrite Z.testbit_spec' by lia. reflexivity.
Qed.

Lemma shr_iter_nat (m : Z) (n : nat) :
  0 <= m ->
  Nat.iter (S n) shr_1 (Build_shr_record m false false) =
  Build_shr_record (m / 2 ^ Z.of_nat (S n)) (Z.testbit m (Z.of_nat n))
                   (negb (m mod 2 ^ Z.of_nat n =? 0)).
Proof.
  intros Hm. induction n as [ | n IH].
  - cbn [Nat.iter]. rewrite shr_1_nonneg by assumption.
    change (Z.of_nat 1) with 1. change (Z.of_nat 0) with 0.
    rewrite Z.pow_1_r, Z.pow_0_r, Z.mod_1_r, Z.bit0_odd. reflexivity.
  - rewrite Nat.iter_succ, IH.
    rewrite shr_1_nonneg by (apply Z.div_pos; lia).
    f_equal.
    + rewrite Z.div_div by lia.
      rewrite (Nat2Z.inj_succ (S n)), Z.pow_succ_r by lia.
      f_equal. lia.
    + rewrite Z.testbit_odd, Z.shiftr_div_pow2 by lia. reflexivity.
    + rewrite (Nat2Z.inj_succ n), <- Z.add_1_r.
      rewrite mod_pow2_succ by lia.
      assert (0 <= m mod 2 ^ Z.of_nat n) by (apply Z.mod_pos_bound; lia).
      assert (0 < 2 ^ Z.of_nat n) by lia.
      destruct (Z.testbit m (Z.of_nat n)); cbn [Z.b2z orb].
      * symmetry. apply negb_true_iff, Z.eqb_neq. lia.
      * rewrite Z.mul_0_r, Z.add_0_r. reflexivity.
Qed.

Lemma shr_Exact (m e k : Z) :
  0 <= m -> 0 < k ->
  shr (Build_shr_record m false false) e k =
  (Build_shr_record (m / 2 ^ k) (Z.testbit m (k - 1)) (negb (m mod 2 ^ (k - 1) =? 0)),
   e + k).
Proof.
  intros Hm Hk. destruct k as [ | p | p]; try lia.
  cbn [shr]. rewrite iter_pos_nat.
  destruct (Pos2Nat.is_succ p) as [n Hn]. rewrite Hn.
  rewrite shr_iter_nat by assumption.
  rewrite <- Hn, positive_nat_Z.
  replace (Z.of_nat n) with (Zpos p - 1) by lia.
  reflexivity.
Qed.

(** ** Rounding a mantissa to nearest, ties to even *)

Lemma rne_shift_0 (m : Z) : rne_shift m 0 = m.
Proof.
  unfold rne_shift. rewrite Z.pow_0_r, Z.mod_1_r, Z.div_1_r. reflexivity.
Qed.

Lemma rne_shift_loc_succ (m n : Z) :
  0 <= m -> 0 <= n ->
  round_nearest_even (m / 2 ^ (n + 1))
    (loc_of_shr_record
       (Build_shr_record (m / 2 ^ (n + 1)) (Z.testbit m n)
                         (negb (m mod 2 ^ n =? 0)))) = rne_shift m (n + 1).
Proof.
  intros Hm Hn. unfold rne_shift.
  rewrite mod_pow2_succ by lia.
  rewrite (Z.pow_add_r 2 n 1), Z.pow_1_r by lia.
  assert (Hr : 0 <= m mod 2 ^ n < 2 ^ n) by (apply Z.mod_pos_bound; lia).
  destruct (Z.testbit m n); cbn [Z.b2z loc_of_shr_record];
    destruct (Z.eqb_spec (m mod 2 ^ n) 0) as [H0 | H0]; cbn [negb round_nearest_even].
  - rewrite H0. replace (2 * (0 + 2 ^ n * 1)) with (2 ^ n * 2) by lia.
    rewrite Z.compare_refl. reflexivity.
  - replace (2 * (m mod 2 ^ n + 2 ^ n * 1) ?= 2 ^ n * 2) with Gt; [reflexivity|].
    symmetry. apply Z.compare_gt_iff. lia.
  - replace (2 * (m mod 2 ^ n + 2 ^ n * 0) ?= 2 ^ n * 2) with Lt; [reflexivity|].
    symmetry. apply Z.compare_lt_iff. lia.
  - replace (2 * (m mod 2 ^ n + 2 ^ n * 0) ?= 2 ^ n * 2) with Lt; [reflexivity|].
    symmetry. apply Z.compare_lt_iff. lia.
Qed.

Lemma rne_shift_loc (m k : Z) :
  0 <= m -> 0 < k ->
  round_nearest_even (m / 2 ^ k)
    (loc_of_shr_record
       (Build_shr_record (m / 2 ^ k) (Z.testbit m (k - 1))
                         (negb (m mod 2 ^ (k - 1) =? 0)))) = rne_shift m k.
Proof.
  intros Hm Hk. pose proof (rne_shift_loc_succ m (k - 1) Hm ltac:(lia)) as H.
  replace (k - 1 + 1) with k in H by lia. exact H.
Qed.

Lemma rne_shift_spec (m k : Z) :
  0 <= m -> 0 <= k ->
  let q := m / 2 ^ k in
  let r := m mod 2 ^ k in
  (rne_shift m k = q /\ 2 * r <= 2 ^ k) \/ (rne_shift m k = q + 1 /\ 2 ^ k <= 2 * r).
Proof.
  intros Hm Hk q r. unfold rne_shift. fold q r.
  destruct (Z.compare_spec (2 * r) (2 ^ k)) as [H | H | H].
  - destruct (Z.even q); [left | right]; split; lia.
  - left; split; lia.
  - right; split; lia.
Qed.

Lemma rne_shift_nearest (m k j : Z) :
  0 <= m -> 0 <= k ->
  Z.abs (rne_shift m k * 2 ^ k - m) <= Z.abs (j * 2 ^ k - m).
Proof.
  intros Hm Hk.
  assert (HP : 0 < 2 ^ k) by (apply Z.pow_pos_nonneg; lia).
  pose proof (Z.div_mod m (2 ^ k) ltac:(lia)) as Hdm.
  pose proof (Z.mod_pos_bound m (2 ^ k) HP) as Hr.
  destruct (Z_le_gt_dec j (m / 2 ^ k)) as [Hj | Hj].
  - assert (j * 2 ^ k <= m / 2 ^ k * 2 ^ k) by (apply Z.mul_le_mono_nonneg_r; lia).
    destruct (rne_shift_spec m k Hm Hk) as [[-> H2] | [-> H2]]; lia.
  - assert ((m / 2 ^ k + 1) * 2 ^ k <= j * 2 ^ k) by (apply Z.mul_le_mono_nonneg_r; lia).
    destruct (rne_shift_spec m k Hm Hk) as [[-> H2] | [-> H2]]; lia.
Qed.

Lemma rne_shift_below (m k : Z) :
  0 <= m -> 0 <= k ->
  Z.abs (rne_shift m k * 2 ^ k - m) <= m - m / 2 ^ k * 2 ^ k.
Proof.
  intros Hm Hk.
  assert (HP : 0 < 2 ^ k) by (apply Z.pow_pos_nonneg; lia).
  pose proof (Z.div_mod m (2 ^ k) ltac:(lia)) as Hdm.
  pose proof (Z.mod_pos_bound m (2 ^ k) HP) as Hr.
  destruct (rne_shift_spec m k Hm Hk) as [[-> H2] | [-> H2]]; lia.
Qed.

Lemma rne_shift_range (m k : Z) :
  0 <= m -> 0 <= k ->
  m / 2 ^ k <= rne_shift m k <= m / 2 ^ k + 1.
Proof.
  intros Hm Hk. destruct (rne_shift_spec m k Hm Hk) as [[-> _] | [-> _]]; lia.
Qed.

Lemma shr_nonpos (mrs : shr_record) (e k : Z) : k <= 0 -> shr mrs e k = (mrs, e).
Proof. intros Hk. destruct k; try lia; reflexivity. Qed.

Section Format.
Variables prec emax : Z.
Hypothesis Hprec : 0 < prec.
Hypothesis Hemax : prec < emax.

Local Abbreviation fexp := (SpecFloat.fexp prec emax).
Local Abbreviation emin := (SpecFloat.emin prec emax).

Lemma fexp_ge_emin (x : Z) : emin <= fexp x.
Proof. unfold SpecFloat.fexp. lia. Qed.

Lemma fexp_ge_sub (x : Z) : x - prec <= fexp x.
Proof. unfold SpecFloat.fexp. lia. Qed.

Lemma fexp_cases (x : Z) :
  (fexp x = x - prec /\ emin <= x - prec) \/ (fexp x = emin /\ x - prec <= emin).
Proof. unfold SpecFloat.fexp. lia. Qed.

Lemma Zdigits2_pos (p : positive) : Zdigits2 (Zpos p) = Zpos (digits2_pos p).
Proof. reflexivity. Qed.

Lemma rne_shift_lt_prec (p : positive) (e : Z) :
  let k := fexp (Zdigits2 (Zpos p) + e) - e in
  0 <= k -> 0 <= rne_shift (Zpos p) k <= 2 ^ prec.
Proof.
  intros k Hk. pose proof (digits2_pos_bounds p) as [_ Hd].
  pose proof (fexp_ge_sub (Zdigits2 (Zpos p) + e)) as Hf.
  rewrite Zdigits2_pos in Hf.
  assert (HP : 0 < 2 ^ k) by (apply Z.pow_pos_nonneg; lia).
  assert (Hq : Zpos p / 2 ^ k < 2 ^ prec).
  { apply Z.div_lt_upper_bound; [assumption|].
    rewrite <- Z.pow_add_r by lia.
    apply Z.lt_le_trans with (1 := Hd). apply Z.pow_le_mono_r; [lia|].
    unfold k. rewrite Zdigits2_pos. lia. }
  assert (0 <= Zpos p / 2 ^ k) by (apply Z.div_pos; lia).
  pose proof (rne_shift_range (Zpos p) k (Pos2Z.is_nonneg p) Hk). lia.
Qed.

Lemma binary_round_aux_eq (s : bool) (p : positive) (e : Z) :
  e <= fexp (Zdigits2 (Zpos p) + e) ->
  binary_round_aux prec emax s (Zpos p) e loc_Exact =
  float_of_round prec emax s (round_pos prec emax (Zpos p) e).
Proof.
  intros He. unfold binary_round_aux, round_pos, shr_fexp.
  set (e1 := fexp (Zdigits2 (Zpos p) + e)) in *.
  set (k := e1 - e).
  assert (Hk : 0 <= k) by (unfold k; lia).
  pose proof (rne_shift_lt_prec p e Hk) as Hm1. fold e1 k in Hm1.
  cbn [shr_record_of_loc].
  assert (H1 : exists mrs, shr (Build_shr_record (Zpos p) false false) e k = (mrs, e1)
                   /\ round_nearest_even (shr_m mrs) (loc_of_shr_record mrs)
                      = rne_shift (Zpos p) k).
  { destruct (Z.eq_dec k 0) as [K0 | K0].
    - rewrite K0, shr_nonpos by lia. eexists; split.
      + f_equal. unfold k in K0. lia.
      + cbn. rewrite rne_shift_0. reflexivity.
    - rewrite shr_Exact by lia. eexists; split.
      + f_equal. unfold k. lia.
      + cbn [shr_m]. apply rne_shift_loc; lia. }
  destruct H1 as (mrs & -> & ->).
  set (m1 := rne_shift (Zpos p) k) in *.
  pose proof (fexp_ge_emin (Zdigits2 (Zpos p) + e)) as Hemin. fold e1 in Hemin.
  destruct (Z.eqb_spec m1 (2 ^ prec)) as [Hov | Hov].
  - (* the rounding carried into a new binade *)
    assert (Hd : Zdigits2 m1 = prec + 1).
    { rewrite Hov. assert (0 < 2 ^ prec) by (apply Z.pow_pos_nonneg; lia).
      destruct (2 ^ prec) as [ | q | q] eqn:Eq; try lia.
      rewrite Zdigits2_pos. apply digits2_pos_unique. rewrite <- Eq.
      replace (prec + 1 - 1) with prec by lia. split; [lia|].
      apply Z.pow_lt_mono_r; lia. }
    rewrite Hd.
    replace (fexp (prec + 1 + e1) - e1) with 1 by (unfold SpecFloat.fexp; lia).
    rewrite shr_Exact by lia. cbn [shr_m].
    rewrite Hov, Z.pow_1_r.
    replace (2 ^ prec) with (2 ^ (prec - 1) * 2).
    2:{ rewrite Z.mul_comm, <- (Z.pow_succ_r 2 (prec - 1)) by lia. f_equal. lia. }
    rewrite Z.div_mul by lia. reflexivity.
  - assert (Hk2 : fexp (Zdigits2 m1 + e1) - e1 <= 0).
    { destruct m1 as [ | q | q] eqn:Eq; try lia.
      - cbn [Zdigits2]. unfold SpecFloat.fexp. lia.
      - rewrite Zdigits2_pos.
        assert (Zpos (digits2_pos q) <= prec).
        { pose proof (digits2_pos_bounds q) as [Hlo _].
          destruct (Z_le_gt_dec (Zpos (digits2_pos q)) prec) as [|Hgt]; [assumption|].
          exfalso. assert (2 ^ prec <= 2 ^ (Zpos (digits2_pos q) - 1)) by (apply Z.pow_le_mono_r; lia).
          lia. }
        unfold SpecFloat.fexp. lia. }
    rewrite shr_nonpos by assumption. reflexivity.
Qed.
End Format.
(** ** Powers of two in Q *)

Lemma pow2_pos (e : Z) : (0 < pow2 e)%Q.
Proof. apply Qpower_0_lt. reflexivity. Qed.

Lemma pow2_add (a b : Z) : (pow2 (a + b) == pow2 a * pow2 b)%Q.
Proof. apply Qpower_plus. discriminate. Qed.

Lemma pow2_inject (n : Z) : 0 <= n -> (inject_Z (2 ^ n) == pow2 n)%Q.
Proof. intros Hn. apply Zpower_Qpower. assumption. Qed.

Lemma pow2_le (a b : Z) : a <= b -> (pow2 a <= pow2 b)%Q.
Proof. intros H. apply Qpower_le_compat_l; [assumption | discriminate]. Qed.

Lemma pow2_lt (a b : Z) : a < b -> (pow2 a < pow2 b)%Q.
Proof. intros H. apply Qpower_lt_compat_l; [assumption | reflexivity]. Qed.

Lemma pow2_shift (m e k : Z) :
  0 <= k -> (inject_Z (m * 2 ^ k) * pow2 e == inject_Z m * pow2 (e + k))%Q.
Proof.
  intros Hk. rewrite inject_Z_mult, pow2_inject, pow2_add by assumption. ring.
Qed.

Lemma inject_Z_sub (a b : Z) : (inject_Z (a - b) == inject_Z a - inject_Z b)%Q.
Proof.
  replace (a - b) with (a + - b) by lia.
  rewrite inject_Z_plus, inject_Z_opp. reflexivity.
Qed.

Lemma Qabs_scale (a e : Z) :
  (Qabs (inject_Z a * pow2 e) == inject_Z (Z.abs a) * pow2 e)%Q.
Proof.
  rewrite Qabs_Qmult. rewrite (Qabs_pos (pow2 e)) by (apply Qlt_le_weak, pow2_pos).
  reflexivity.
Qed.

Lemma scale_le (a b e : Z) :
  a <= b -> (inject_Z a * pow2 e <= inject_Z b * pow2 e)%Q.
Proof.
  intros H. apply Qmult_le_compat_r.
  - rewrite <- Zle_Qle. assumption.
  - apply Qlt_le_weak, pow2_pos.
Qed.

Lemma scale_lt (a b e : Z) :
  a < b -> (inject_Z a * pow2 e < inject_Z b * pow2 e)%Q.
Proof.
  intros H. apply Qmult_lt_compat_r.
  - apply pow2_pos.
  - rewrite <- Zlt_Qlt. assumption.
Qed.

Lemma scale_le_inv (a b e : Z) :
  (inject_Z a * pow2 e <= inject_Z b * pow2 e)%Q -> a <= b.
Proof.
  intros H. destruct (Z.le_gt_cases a b) as [|Hgt]; [assumption|].
  exfalso. apply (scale_lt b a e) in Hgt.
  apply Qlt_not_le in Hgt. contradiction.
Qed.

(** ** Format points and rounding to nearest *)

Section Canonical.
Variables prec emax : Z.
Hypothesis Hprec : 0 < prec.
Hypothesis Hemax : prec < emax.

Local Abbreviation fexp := (SpecFloat.fexp prec emax).
Local Abbreviation emin := (SpecFloat.emin prec emax).
Local Abbreviation canonical := (canonical_mantissa prec emax).

Lemma canonical_spec (m : positive) (e : Z) :
  canonical m e = true <-> fexp (Zpos (digits2_pos m) + e) = e.
Proof. unfold canonical_mantissa. apply Z.eqb_eq. Qed.

Lemma canonical_bounds (m : positive) (e : Z) :
  canonical m e = true -> Zpos (digits2_pos m) <= prec /\ emin <= e.
Proof. rewrite canonical_spec. unfold SpecFloat.fexp. lia. Qed.

Lemma canonical_normal (m : positive) (e : Z) :
  canonical m e = true -> emin < e -> Zpos (digits2_pos m) = prec.
Proof. rewrite canonical_spec. unfold SpecFloat.fexp. lia. Qed.

Lemma canonical_lt_pow2 (m : positive) (e : Z) :
  canonical m e = true -> (inject_Z (Zpos m) * pow2 e < pow2 (prec + e))%Q.
Proof.
  intros Hc. apply canonical_bounds in Hc as [Hd _].
  pose proof (digits2_pos_bounds m) as [_ Hm].
  assert (Zpos m < 2 ^ prec).
  { apply Z.lt_le_trans with (1 := Hm). apply Z.pow_le_mono_r; lia. }
  rewrite pow2_add, <- (pow2_inject prec) by lia.
  apply scale_lt. assumption.
Qed.

Lemma normal_ge_pow2 (m : positive) (e : Z) :
  Zpos (digits2_pos m) = prec ->
  (pow2 (prec - 1 + e) <= inject_Z (Zpos m) * pow2 e)%Q.
Proof.
  intros Hd. pose proof (digits2_pos_bounds m) as [Hm _]. rewrite Hd in Hm.
  rewrite pow2_add, <- (pow2_inject (prec - 1)) by lia.
  apply scale_le. assumption.
Qed.

Lemma canonical_lt_exp (m1 m2 : positive) (e1 e2 : Z) :
  canonical m1 e1 = true -> canonical m2 e2 = true -> e1 < e2 ->
  (inject_Z (Zpos m1) * pow2 e1 < inject_Z (Zpos m2) * pow2 e2)%Q.
Proof.
  intros H1 H2 He.
  pose proof (canonical_bounds _ _ H1) as [_ Hmin].
  pose proof (canonical_normal _ _ H2 ltac:(lia)) as Hn.
  apply Qlt_le_trans with (pow2 (prec + e1)); [apply canonical_lt_pow2; assumption|].
  apply Qle_trans with (pow2 (prec - 1 + e2)); [apply pow2_le; lia|].
  apply normal_ge_pow2. assumption.
Qed.

(** ** What [round_pos] returns *)

Section RoundPos.
Variable p : positive.
Variable e : Z.
Let e1 := fexp (Zdigits2 (Zpos p) + e).
Let k := e1 - e.
Let m1 := rne_shift (Zpos p) k.
Hypothesis Hk : e <= fexp (Zdigits2 (Zpos p) + e).

Lemma round_pos_m1_range : 0 <= m1 <= 2 ^ prec.
Proof. apply (rne_shift_lt_prec prec emax Hprec). fold e1. lia. Qed.

Lemma round_pos_nonneg : 0 <= fst (round_pos prec emax (Zpos p) e).
Proof.
  unfold round_pos. fold e1 k m1. pose proof round_pos_m1_range.
  destruct (m1 =? 2 ^ prec); cbn [fst]; [|lia].
  apply Z.pow_nonneg. lia.
Qed.

Lemma round_pos_value :
  let me := round_pos prec emax (Zpos p) e in
  (inject_Z (fst me) * pow2 (snd me) == inject_Z m1 * pow2 (e + k))%Q.
Proof.
  unfold round_pos. fold e1 k m1.
  replace (e + k) with e1 by (unfold k; lia).
  destruct (Z.eqb_spec m1 (2 ^ prec)) as [Hov | Hov]; cbn [fst snd]; [|reflexivity].
  rewrite Hov, <- pow2_shift by lia.
  rewrite Z.pow_1_r, Z.mul_comm, <- Z.pow_succ_r by lia.
  replace (Z.succ (prec - 1)) with prec by lia. reflexivity.
Qed.

Lemma round_pos_canonical (q : positive) :
  fst (round_pos prec emax (Zpos p) e) = Zpos q ->
  canonical q (snd (round_pos prec emax (Zpos p) e)) = true.
Proof.
  unfold round_pos. fold e1 k m1. pose proof round_pos_m1_range as Hr.
  pose proof (fexp_ge_emin prec emax (Zdigits2 (Zpos p) + e)) as Hmin. fold e1 in Hmin.
  destruct (Z.eqb_spec m1 (2 ^ prec)) as [Hov | Hov]; cbn [fst snd]; intros Hq.
  - apply canonical_spec.
    rewrite (digits2_pos_unique q prec).
    + unfold SpecFloat.fexp. lia.
    + rewrite <- Hq. split; [lia|]. apply Z.pow_lt_mono_r; lia.
  - apply canonical_spec.
    destruct (fexp_cases prec emax (Zdigits2 (Zpos p) + e)) as [[Hf Hn] | [Hf Hn]];
      fold e1 in Hf.
    + (* normal: the quotient keeps [prec] digits *)
      rewrite Zdigits2_pos in Hf, Hn.
      assert (Hkd : k = Zpos (digits2_pos p) - prec) by (unfold k; lia).
      assert (Hlo : 2 ^ (prec - 1) <= m1).
      { pose proof (rne_shift_range (Zpos p) k (Pos2Z.is_nonneg p) ltac:(lia)) as Hrg.
        fold m1 in Hrg.
        apply Z.le_trans with (Zpos p / 2 ^ k); [|lia].
        apply Z.div_le_lower_bound; [apply Z.pow_pos_nonneg; lia|].
        rewrite <- Z.pow_add_r by lia.
        pose proof (digits2_pos_bounds p) as [Hp _].
        replace (k + (prec - 1)) with (Zpos (digits2_pos p) - 1) by lia. assumption. }
      rewrite (digits2_pos_unique q prec) by (rewrite <- Hq; lia).
      unfold SpecFloat.fexp. lia.
    + assert (Zpos (digits2_pos q) <= prec).
      { pose proof (digits2_pos_bounds q) as [Hlo _].
        destruct (Z.le_gt_cases (Zpos (digits2_pos q)) prec) as [|Hgt]; [assumption|].
        exfalso.
        assert (2 ^ prec <= 2 ^ (Zpos (digits2_pos q) - 1)) by (apply Z.pow_le_mono_r; lia).
        lia. }
      unfold SpecFloat.fexp. lia.
Qed.

Lemma Qabs_scale_le (a b e0 : Z) :
  Z.abs a <= Z.abs b ->
  (Qabs (inject_Z a * pow2 e0) <= Qabs (inject_Z b * pow2 e0))%Q.
Proof. intros H. rewrite !Qabs_scale. apply scale_le. assumption. Qed.

Lemma round_pos_quotient_normal :
  emin < e1 -> 2 ^ (prec - 1) <= Zpos p / 2 ^ k.
Proof.
  intros Hn.
  assert (Hkd : k = Zpos (digits2_pos p) - prec).
  { unfold k, e1 in *. rewrite Zdigits2_pos in *. unfold SpecFloat.fexp in *. lia. }
  assert (0 <= k) by (unfold k, e1; lia).
  apply Z.div_le_lower_bound; [apply Z.pow_pos_nonneg; lia|].
  rewrite <- Z.pow_add_r by lia.
  pose proof (digits2_pos_bounds p) as [Hp _].
  replace (k + (prec - 1)) with (Zpos (digits2_pos p) - 1) by lia. assumption.
Qed.

Lemma round_pos_nearest :
  let me := round_pos prec emax (Zpos p) e in
  nearest prec emax (inject_Z (Zpos p) * pow2 e) (inject_Z (fst me) * pow2 (snd me)).
Proof.
  intros me. split.
  - pose proof round_pos_nonneg as Hnn. fold me in Hnn.
    destruct (fst me) as [ | q | q] eqn:Eq; try lia.
    + left. ring.
    + right. exists false, q, (snd me). split; [|reflexivity].
      apply round_pos_canonical. assumption.
  - intros F HF. unfold me. rewrite round_pos_value. fold e1 k m1.
    assert (Hk0 : 0 <= k) by (unfold k, e1; lia).
    set (X := (inject_Z (Zpos p) * pow2 e)%Q).
    assert (HV : (inject_Z m1 * pow2 (e + k) - X
                  == inject_Z (m1 * 2 ^ k - Zpos p) * pow2 e)%Q).
    { rewrite <- pow2_shift by assumption. unfold X.
      rewrite inject_Z_sub. ring. }
    rewrite HV.
    assert (HX : (Qabs (inject_Z (m1 * 2 ^ k - Zpos p) * pow2 e) <= X)%Q).
    { rewrite Qabs_scale. apply scale_le.
      pose proof (rne_shift_nearest (Zpos p) k 0 (Pos2Z.is_nonneg p) Hk0) as Hz.
      fold m1 in Hz. lia. }
    assert (HXpos : (0 < X)%Q).
    { unfold X. apply Qmult_lt_0_compat; [reflexivity | apply pow2_pos]. }
    destruct HF as [HF | (s & mf & ef & Hc & HF)].
    + rewrite HF. apply Qle_trans with (1 := HX).
      apply Qabs_case; intros; lra.
    + destruct s.
      * (* a negative format point is farther than zero *)
        rewrite HF. apply Qle_trans with (1 := HX).
        assert (0 < inject_Z (Zpos mf) * pow2 ef)%Q
          by (apply Qmult_lt_0_compat; [reflexivity | apply pow2_pos]).
        unfold F2Q. apply Qabs_case; intros; lra.
      * destruct (Z.le_gt_cases e1 ef) as [Hge | Hlt].
        -- (* a multiple of the rounding step *)
           assert (HFm : (F - X == inject_Z (Zpos mf * 2 ^ (ef - e1) * 2 ^ k - Zpos p) * pow2 e)%Q).
           { rewrite HF. unfold F2Q, X.
             replace ef with (e + k + (ef - e1)) at 1 by (unfold k; lia).
             rewrite <- pow2_shift by lia. rewrite <- pow2_shift by lia.
             rewrite inject_Z_sub. ring. }
           rewrite HFm. apply Qabs_scale_le.
           apply rne_shift_nearest; [apply Pos2Z.is_nonneg | assumption].
        -- (* a format point of a lower binade *)
           pose proof (canonical_bounds _ _ Hc) as [_ Hmin].
           pose proof (round_pos_quotient_normal ltac:(lia)) as Hq.
           set (q0 := Zpos p / 2 ^ k) in *.
           assert (HFlt : (F < inject_Z (q0 * 2 ^ k) * pow2 e)%Q).
           { rewrite HF. unfold F2Q.
             apply Qlt_le_trans with (pow2 (prec + ef)); [apply canonical_lt_pow2; assumption|].
             apply Qle_trans with (pow2 (prec - 1 + e1)); [apply pow2_le; lia|].
             rewrite pow2_shift by assumption.
             replace (e + k) with e1 by (unfold k; lia).
             rewrite pow2_add, <- (pow2_inject (prec - 1)) by lia.
             apply scale_le. assumption. }
           assert (HVle : (Qabs (inject_Z (m1 * 2 ^ k - Zpos p) * pow2 e)
                           <= X - inject_Z (q0 * 2 ^ k) * pow2 e)%Q).
           { rewrite Qabs_scale. unfold X.
             setoid_replace (inject_Z (Zpos p) * pow2 e - inject_Z (q0 * 2 ^ k) * pow2 e)%Q
               with (inject_Z (Zpos p - q0 * 2 ^ k) * pow2 e)%Q
               by (rewrite inject_Z_sub; ring).
             apply scale_le.
             apply (rne_shift_below (Zpos p) k (Pos2Z.is_nonneg p) Hk0). }
           apply Qle_trans with (1 := HVle).
           apply Qabs_case; intros; lra.
Qed.

End RoundPos.
End Canonical.

(** ** Consequences of rounding to nearest *)

Section Nearest.
Variables prec emax : Z.

Lemma in_format_0 : in_format prec emax 0.
Proof. left. reflexivity. Qed.

Lemma in_format_eq (F G : Q) : (F == G)%Q -> in_format prec emax F -> in_format prec emax G.
Proof.
  intros HFG [H0 | (s & m & e & Hc & H)].
  - left. rewrite <- HFG. assumption.
  - right. exists s, m, e. split; [assumption|]. rewrite <- HFG. assumption.
Qed.

Lemma F2Q_opp (s : bool) (m e : Z) : (F2Q (negb s) m e == - F2Q s m e)%Q.
Proof. unfold F2Q. destruct s; cbn [negb]; ring. Qed.

Lemma in_format_opp (F : Q) : in_format prec emax F -> in_format prec emax (- F).
Proof.
  intros [H0 | (s & m & e & Hc & H)].
  - left. rewrite H0. reflexivity.
  - right. exists (negb s), m, e. split; [assumption|].
    rewrite F2Q_opp, H. reflexivity.
Qed.

Lemma nearest_opp (X V : Q) : nearest prec emax X V -> nearest prec emax (- X) (- V).
Proof.
  intros [HV Hn]. split; [apply in_format_opp; assumption|].
  intros F HF. specialize (Hn (- F)%Q (in_format_opp F HF)).
  setoid_replace (- V - - X)%Q with (- (V - X))%Q by ring.
  setoid_replace (F - - X)%Q with (- (- F - X))%Q by ring.
  rewrite !Qabs_opp. assumption.
Qed.

Lemma nearest_eq (X Y V W : Q) :
  (X == Y)%Q -> (V == W)%Q -> nearest prec emax X V -> nearest prec emax Y W.
Proof.
  intros HXY HVW [HV Hn]. split; [apply in_format_eq with V; assumption|].
  intros F HF. rewrite <- HXY, <- HVW. apply Hn. assumption.
Qed.

#[global] Instance in_format_proper : Proper (Qeq ==> iff) (in_format prec emax).
Proof.
  intros F G HFG. split; apply in_format_eq; [assumption | symmetry; assumption].
Qed.

#[global] Instance nearest_proper : Proper (Qeq ==> Qeq ==> iff) (nearest prec emax).
Proof.
  intros X Y HXY V W HVW. split; apply nearest_eq; (assumption || symmetry; assumption).
Qed.

Lemma nearest_le (X V B : Q) :
  nearest prec emax X V -> in_format prec emax B -> (X <= B)%Q -> (V <= B)%Q.
Proof.
  intros [_ Hn] HB HXB. specialize (Hn B HB).
  revert Hn. apply Qabs_case; apply Qabs_case; intros; lra.
Qed.

Lemma nearest_ge (X V A : Q) :
  nearest prec emax X V -> in_format prec emax A -> (A <= X)%Q -> (A <= V)%Q.
Proof.
  intros [_ Hn] HA HAX. specialize (Hn A HA).
  revert Hn. apply Qabs_case; apply Qabs_case; intros; lra.
Qed.

Lemma nearest_exact (X V : Q) :
  in_format prec emax X -> nearest prec emax X V -> (V == X)%Q.
Proof.
  intros HX HV. apply Qle_antisym.
  - apply (nearest_le X V X); [assumption | assumption | apply Qle_refl].
  - apply (nearest_ge X V X); [assumption | assumption | apply Qle_refl].
Qed.

Lemma nearest_mono (X Y V W : Q) :
  nearest prec emax X V -> nearest prec emax Y W -> (X < Y)%Q -> (V <= W)%Q.
Proof.
  intros [HV HnX] [HW HnY] HXY.
  specialize (HnX W HW). specialize (HnY V HV).
  revert HnX HnY. do 2 (apply Qabs_case; intro); do 2 (apply Qabs_case; intro); intros; lra.
Qed.

End Nearest.

(** ** The order of canonical floats is the order of their values *)

Lemma Qcompare_intro (c : comparison) (a b : Q) :
  match c with Lt => (a < b)%Q | Eq => (a == b)%Q | Gt => (b < a)%Q end ->
  (a ?= b)%Q = c.
Proof.
  destruct c; intros H.
  - apply Qeq_alt. assumption.
  - apply Qlt_alt. assumption.
  - apply Qgt_alt. assumption.
Qed.

Lemma Qcompare_opp (a b : Q) : (- a ?= - b)%Q = CompOpp (a ?= b)%Q.
Proof.
  destruct (Qcompare_spec a b) as [H | H | H]; cbn [CompOpp];
    apply Qcompare_intro; lra.
Qed.

Section Compare.
Variables prec emax : Z.
Hypothesis Hprec : 0 < prec.
Hypothesis Hemax : prec < emax.

Local Abbreviation canonical := (canonical_mantissa prec emax).
Local Abbreviation valid_fin := (valid_finite prec emax).

Lemma mag_compare_spec (m1 m2 : positive) (e1 e2 : Z) :
  canonical m1 e1 = true -> canonical m2 e2 = true ->
  match e1 ?= e2 with
  | Lt => Lt
  | Gt => Gt
  | Eq => Pos.compare_cont Eq m1 m2
  end = (inject_Z (Zpos m1) * pow2 e1 ?= inject_Z (Zpos m2) * pow2 e2)%Q.
Proof.
  intros H1 H2. symmetry. apply Qcompare_intro.
  destruct (Z.compare_spec e1 e2) as [He | He | He].
  - subst e2. change (Pos.compare_cont Eq m1 m2) with (Pos.compare m1 m2).
    destruct (Pos.compare_spec m1 m2) as [Hm | Hm | Hm].
    + subst. reflexivity.
    + apply scale_lt. lia.
    + apply scale_lt. lia.
  - apply (canonical_lt_exp prec emax Hprec); assumption.
  - apply (canonical_lt_exp prec emax Hprec); assumption.
Qed.

Lemma valid_finite_canonical (s : bool) (m : positive) (e : Z) :
  valid_fin (S754_finite s m e) = true -> canonical m e = true.
Proof.
  unfold valid_finite, valid_binary, bounded. intros H.
  apply andb_prop in H as [H _]. apply andb_prop in H as [H _]. exact H.
Qed.

Lemma SF2Q_pos (m : positive) (e : Z) : (0 < inject_Z (Zpos m) * pow2 e)%Q.
Proof. apply Qmult_lt_0_compat; [reflexivity | apply pow2_pos]. Qed.

Lemma SFcompare_spec (x y : spec_float) :
  valid_fin x = true -> valid_fin y = true ->
  SFcompare x y = Some (SF2Q x ?= SF2Q y)%Q.
Proof.
  intros Hx Hy.
  destruct x as [sx | sx | | sx mx ex]; try discriminate Hx;
  destruct y as [sy | sy | | sy my ey]; try discriminate Hy;
  cbn [SFcompare SF2Q]; f_equal.
  - symmetry. apply Qcompare_intro. pose proof (SF2Q_pos my ey).
    unfold F2Q. destruct sy; lra.
  - symmetry. apply Qcompare_intro. pose proof (SF2Q_pos mx ex).
    unfold F2Q. destruct sx; lra.
  - apply valid_finite_canonical in Hx, Hy.
    pose proof (SF2Q_pos mx ex). pose proof (SF2Q_pos my ey).
    destruct sx, sy; unfold F2Q.
    + setoid_replace (- inject_Z (Zpos mx) * pow2 ex)%Q
        with (- (inject_Z (Zpos mx) * pow2 ex))%Q by ring.
      setoid_replace (- inject_Z (Zpos my) * pow2 ey)%Q
        with (- (inject_Z (Zpos my) * pow2 ey))%Q by ring.
      rewrite Qcompare_opp, <- mag_compare_spec by assumption.
      destruct (ex ?= ey); reflexivity.
    + symmetry. apply Qcompare_intro. lra.
    + symmetry. apply Qcompare_intro. lra.
    + apply mag_compare_spec; assumption.
Qed.

Lemma SFltb_spec (x y : spec_float) :
  valid_fin x = true -> valid_fin y = true ->
  (SFltb x y = true <-> (SF2Q x < SF2Q y)%Q).
Proof.
  intros Hx Hy. unfold SFltb. rewrite (SFcompare_spec x y Hx Hy), Qlt_alt.
  destruct (SF2Q x ?= SF2Q y)%Q; split; congruence.
Qed.

Lemma SFleb_spec (x y : spec_float) :
  valid_fin x = true -> valid_fin y = true ->
  (SFleb x y = true <-> (SF2Q x <= SF2Q y)%Q).
Proof.
  intros Hx Hy. unfold SFleb. rewrite (SFcompare_spec x y Hx Hy), Qle_alt.
  destruct (SF2Q x ?= SF2Q y)%Q; split; congruence.
Qed.

Lemma SFeqb_spec (x y : spec_float) :
  valid_fin x = true -> valid_fin y = true ->
  (SFeqb x y = true <-> (SF2Q x == SF2Q y)%Q).
Proof.
  intros Hx Hy. unfold SFeqb. rewrite (SFcompare_spec x y Hx Hy), Qeq_alt.
  destruct (SF2Q x ?= SF2Q y)%Q; split; congruence.
Qed.

Lemma SF2Q_in_format (x : spec_float) :
  valid_binary prec emax x = true -> in_format prec emax (SF2Q x).
Proof.
  destruct x as [s | s | | s m e]; cbn [SF2Q]; intros Hv; try (left; reflexivity).
  right. exists s, m, e. split; [|reflexivity].
  unfold valid_binary, bounded in Hv. apply andb_prop in Hv as [H _]. exact H.
Qed.

End Compare.

(** ** Correctness of the rounding of [SpecFloat] *)

Section Round.
Variables prec emax : Z.
Hypothesis Hprec : 0 < prec.
Hypothesis Hemax : prec < emax.

Local Abbreviation fexp := (SpecFloat.fexp prec emax).
Local Abbreviation emin := (SpecFloat.emin prec emax).
Local Abbreviation canonical := (canonical_mantissa prec emax).
Local Abbreviation valid_fin := (valid_finite prec emax).
Local Abbreviation valid := (valid_binary prec emax).
Local Abbreviation nearest := (nearest prec emax).

Lemma F2Q_false (m e : Z) : (F2Q false m e == inject_Z m * pow2 e)%Q.
Proof. reflexivity. Qed.

Lemma F2Q_true (m e : Z) : (F2Q true m e == - (inject_Z m * pow2 e))%Q.
Proof. unfold F2Q. ring. Qed.

Lemma nearest_signed (s : bool) (m e : Z) (V : Q) :
  nearest (inject_Z m * pow2 e) V ->
  nearest (F2Q s m e) (if s then - V else V)%Q.
Proof.
  intros H. destruct s.
  - apply nearest_eq with (- (inject_Z m * pow2 e))%Q (- V)%Q;
      [symmetry; apply F2Q_true | reflexivity | apply nearest_opp; assumption].
  - exact H.
Qed.

Lemma binary_round_aux_shape (s : bool) (p : positive) (e : Z) :
  e <= fexp (Zdigits2 (Zpos p) + e) ->
  let r := binary_round_aux prec emax s (Zpos p) e loc_Exact in
  valid r = true /\ is_nan r = false /\ sign_of r = s.
Proof.
  intros Hk r. unfold r. rewrite (binary_round_aux_eq prec emax Hprec) by assumption.
  pose proof (round_pos_nonneg prec emax Hprec p e Hk) as Hnn.
  pose proof (round_pos_canonical prec emax Hprec p e Hk) as Hc.
  unfold float_of_round.
  destruct (fst (round_pos prec emax (Zpos p) e)) as [ | q | q]; try lia.
  - repeat split.
  - destruct (Z.leb_spec (snd (round_pos prec emax (Zpos p) e)) (emax - prec)) as [Hb | Hb].
    + repeat split. cbn [valid_binary]. unfold bounded.
      rewrite (Hc q eq_refl). apply Z.leb_le. assumption.
    + repeat split.
Qed.

Lemma binary_round_aux_correct (s : bool) (p : positive) (e : Z) (B : spec_float) :
  e <= fexp (Zdigits2 (Zpos p) + e) ->
  valid_fin B = true ->
  (inject_Z (Zpos p) * pow2 e <= SF2Q B)%Q ->
  let r := binary_round_aux prec emax s (Zpos p) e loc_Exact in
  valid_fin r = true /\ nearest (F2Q s (Zpos p) e) (SF2Q r) /\ sign_of r = s.
Proof.
  intros Hk HB HXB r. unfold r. rewrite (binary_round_aux_eq prec emax Hprec) by assumption.
  pose proof (round_pos_nonneg prec emax Hprec p e Hk) as Hnn.
  pose proof (round_pos_canonical prec emax Hprec p e Hk) as Hc.
  pose proof (round_pos_nearest prec emax Hprec p e Hk) as Hn. cbv zeta in Hn.
  assert (HVB : (inject_Z (fst (round_pos prec emax (Zpos p) e))
                 * pow2 (snd (round_pos prec emax (Zpos p) e)) <= SF2Q B)%Q).
  { apply (nearest_le prec emax _ _ _ Hn); [|assumption].
    apply SF2Q_in_format. unfold valid_finite in HB. apply andb_prop in HB as [HB _]. exact HB. }
  unfold float_of_round.
  destruct (round_pos prec emax (Zpos p) e) as [m2 e2]. cbn [fst snd] in *.
  destruct m2 as [ | q | q]; try lia.
  - split; [reflexivity | split; [|reflexivity]].
    apply nearest_eq with (F2Q s (Zpos p) e) (if s then - (inject_Z 0 * pow2 e2) else inject_Z 0 * pow2 e2)%Q.
    + reflexivity.
    + cbn [SF2Q]. destruct s; ring.
    + apply nearest_signed. assumption.
  - assert (Hb : e2 <= emax - prec).
    { destruct (Z.le_gt_cases e2 (emax - prec)) as [|Hgt]; [assumption|]. exfalso.
      pose proof (SF2Q_pos q e2) as Hpos.
      destruct B as [sB | sB | | sB mB eB]; try discriminate HB; cbn [SF2Q] in HVB; try lra.
      pose proof (SF2Q_pos mB eB) as HposB.
      destruct sB; [unfold F2Q in HVB; lra|].
      unfold valid_finite, valid_binary, bounded in HB.
      apply andb_prop in HB as [HB _]. apply andb_prop in HB as [HcB HbB].
      apply Z.leb_le in HbB.
      pose proof (canonical_lt_exp prec emax Hprec mB q eB e2 HcB (Hc q eq_refl) ltac:(lia)) as Hlt.
      rewrite F2Q_false in HVB. lra. }
    apply Z.leb_le in Hb. rewrite Hb. apply Z.leb_le in Hb.
    split; [|split; [|reflexivity]].
    + unfold valid_finite. cbn [valid_binary is_finite]. unfold bounded.
      rewrite (Hc q eq_refl). cbn [andb]. rewrite andb_true_r. apply Z.leb_le. assumption.
    + apply nearest_eq with (F2Q s (Zpos p) e)
        (if s then - (inject_Z (Zpos q) * pow2 e2) else inject_Z (Zpos q) * pow2 e2)%Q.
      * reflexivity.
      * cbn [SF2Q]. destruct s; unfold F2Q; ring.
      * apply nearest_signed. assumption.
Qed.

Lemma pos_iter_xO (m d : positive) : Zpos (Pos.iter xO m d) = Zpos m * 2 ^ Zpos d.
Proof.
  induction d as [ | d IH] using Pos.peano_ind.
  - cbn [Pos.iter]. rewrite Z.pow_1_r. lia.
  - rewrite Pos.iter_succ, Pos2Z.inj_succ, Z.pow_succ_r by lia.
    rewrite Pos2Z.inj_xO, IH. lia.
Qed.

Lemma shl_align_spec (m : positive) (e e' : Z) :
  snd (shl_align m e e') = Z.min e e' /\
  Zpos (fst (shl_align m e e')) = Zpos m * 2 ^ (e - snd (shl_align m e e')).
Proof.
  unfold shl_align. destruct (e' - e) as [ | d | d] eqn:Hd; cbn [fst snd].
  - split; [lia|]. rewrite Z.sub_diag, Z.pow_0_r. lia.
  - split; [lia|]. rewrite Z.sub_diag, Z.pow_0_r. lia.
  - split; [lia|]. rewrite pos_iter_xO. f_equal. f_equal. lia.
Qed.

Lemma shl_align_value (m : positive) (e e' : Z) :
  (inject_Z (Zpos (fst (shl_align m e e'))) * pow2 (snd (shl_align m e e'))
   == inject_Z (Zpos m) * pow2 e)%Q.
Proof.
  destruct (shl_align_spec m e e') as [Hs Hm]. rewrite Hm.
  rewrite pow2_shift by lia. apply Qmult_comp; [reflexivity|].
  replace (snd (shl_align m e e') + (e - snd (shl_align m e e'))) with e by lia.
  reflexivity.
Qed.

Lemma digits2_pos_shift (m q : positive) (j : Z) :
  0 <= j -> Zpos q = Zpos m * 2 ^ j ->
  Zpos (digits2_pos q) = Zpos (digits2_pos m) + j.
Proof.
  intros Hj Hq. apply digits2_pos_unique. rewrite Hq.
  pose proof (digits2_pos_bounds m) as [Hlo Hhi].
  assert (0 < 2 ^ j) by (apply Z.pow_pos_nonneg; lia).
  replace (Zpos (digits2_pos m) + j - 1) with (Zpos (digits2_pos m) - 1 + j) by lia.
  rewrite !Z.pow_add_r by lia. split.
  - apply Z.mul_le_mono_nonneg_r; lia.
  - apply Z.mul_lt_mono_pos_r; lia.
Qed.

Lemma shl_align_fexp (m : positive) (e : Z) :
  let me := shl_align m e (fexp (Zpos (digits2_pos m) + e)) in
  snd me <= fexp (Zdigits2 (Zpos (fst me)) + snd me).
Proof.
  intros me. destruct (shl_align_spec m e (fexp (Zpos (digits2_pos m) + e))) as [Hs Hm].
  fold me in Hs, Hm. rewrite Zdigits2_pos.
  rewrite (digits2_pos_shift m (fst me) (e - snd me)) by (assumption || lia).
  replace (Zpos (digits2_pos m) + (e - snd me) + snd me) with (Zpos (digits2_pos m) + e) by lia.
  lia.
Qed.

Lemma binary_round_shape (s : bool) (m : positive) (e : Z) :
  let r := binary_round prec emax s m e in
  valid r = true /\ is_nan r = false /\ sign_of r = s.
Proof.
  unfold binary_round.
  pose proof (shl_align_fexp m e) as Hk. cbv zeta in Hk.
  destruct (shl_align m e (fexp (Zpos (digits2_pos m) + e))) as [mz ez].
  apply binary_round_aux_shape. exact Hk.
Qed.

Lemma binary_round_correct (s : bool) (m : positive) (e : Z) (B : spec_float) :
  valid_fin B = true ->
  (inject_Z (Zpos m) * pow2 e <= SF2Q B)%Q ->
  let r := binary_round prec emax s m e in
  valid_fin r = true /\ nearest (F2Q s (Zpos m) e) (SF2Q r) /\ sign_of r = s.
Proof.
  intros HB HXB. unfold binary_round.
  pose proof (shl_align_fexp m e) as Hk. cbv zeta in Hk.
  pose proof (shl_align_value m e (fexp (Zpos (digits2_pos m) + e))) as Hv.
  destruct (shl_align m e (fexp (Zpos (digits2_pos m) + e))) as [mz ez].
  cbn [fst snd] in *.
  destruct (binary_round_aux_correct s mz ez B Hk HB) as (H1 & H2 & H3).
  { rewrite Hv. assumption. }
  split; [assumption | split; [|assumption]].
  eapply nearest_eq; [| reflexivity | exact H2].
  destruct s; [rewrite !F2Q_true | rewrite !F2Q_false]; rewrite Hv; reflexivity.
Qed.

Lemma nearest_refl (X : Q) : in_format prec emax X -> nearest X X.
Proof.
  intros HX. split; [assumption|]. intros F _.
  setoid_replace (X - X)%Q with 0%Q by ring. apply Qabs_nonneg.
Qed.

Lemma valid_fin_inv (x : spec_float) :
  valid_fin x = true -> valid x = true /\ is_finite x = true.
Proof. unfold valid_finite. apply andb_prop. Qed.

Lemma valid_fin_opp (x : spec_float) : valid_fin x = true -> valid_fin (SFopp x) = true.
Proof. destruct x; intros H; try discriminate H; exact H. Qed.

Lemma SF2Q_opp (x : spec_float) : (SF2Q (SFopp x) == - SF2Q x)%Q.
Proof. destruct x as [ | | | s m e]; cbn [SFopp SF2Q]; try ring. apply F2Q_opp. Qed.

Lemma valid_fin_zero (s : bool) : valid_fin (S754_zero s) = true.
Proof. reflexivity. Qed.

Lemma binary_normalize_correct (z e : Z) (sz : bool) (A B : spec_float) :
  valid_fin A = true -> valid_fin B = true ->
  (SF2Q A <= inject_Z z * pow2 e <= SF2Q B)%Q ->
  let r := binary_normalize prec emax z e sz in
  valid_fin r = true /\ nearest (inject_Z z * pow2 e) (SF2Q r).
Proof.
  intros HA HB [HAX HXB]. destruct z as [ | p | p]; cbn [binary_normalize].
  - split; [reflexivity|]. cbn [SF2Q].
    eapply nearest_eq; [| reflexivity | apply (nearest_refl 0); apply in_format_0].
    ring.
  - destruct (binary_round_correct false p e B HB HXB) as (H1 & H2 & _).
    split; assumption.
  - destruct (binary_round_correct true p e (SFopp A) (valid_fin_opp A HA)) as (H1 & H2 & _).
    { rewrite SF2Q_opp. change (Zneg p) with (- Zpos p) in HAX.
      rewrite inject_Z_opp in HAX. lra. }
    split; [assumption|].
    eapply nearest_eq; [| reflexivity | exact H2].
    rewrite F2Q_true. change (Zneg p) with (- Zpos p). rewrite inject_Z_opp. ring.
Qed.

Lemma align_value (s : bool) (m : positive) (e ez : Z) :
  ez <= e ->
  (inject_Z (cond_Zopp s (Zpos (fst (shl_align m e ez)))) * pow2 ez == F2Q s (Zpos m) e)%Q.
Proof.
  intros He. pose proof (shl_align_value m e ez) as Hv.
  destruct (shl_align_spec m e ez) as [Hs _].
  replace (snd (shl_align m e ez)) with ez in Hv by lia.
  destruct s; cbn [cond_Zopp].
  - rewrite inject_Z_opp, F2Q_true, <- Hv. ring.
  - rewrite F2Q_false, <- Hv. reflexivity.
Qed.

Lemma SFadd_correct (x y A B : spec_float) :
  valid_fin x = true -> valid_fin y = true ->
  valid_fin A = true -> valid_fin B = true ->
  (SF2Q A <= SF2Q x + SF2Q y <= SF2Q B)%Q ->
  valid_fin (SFadd prec emax x y) = true /\
  nearest (SF2Q x + SF2Q y) (SF2Q (SFadd prec emax x y)).
Proof.
  intros Hx Hy HA HB HAB.
  destruct x as [sx | sx | | sx mx ex]; try discriminate Hx;
  destruct y as [sy | sy | | sy my ey]; try discriminate Hy.
  - assert (Hz : exists s, SFadd prec emax (S754_zero sx) (S754_zero sy) = S754_zero s)
      by (destruct sx, sy; eexists; reflexivity).
    destruct Hz as [s ->]. split; [reflexivity|]. cbn [SF2Q].
    eapply nearest_eq; [| reflexivity | apply (nearest_refl 0); apply in_format_0]. ring.
  - cbn [SFadd]. split; [assumption|].
    eapply nearest_eq; [| reflexivity | apply nearest_refl, SF2Q_in_format, valid_fin_inv, Hy].
    cbn [SF2Q]. ring.
  - cbn [SFadd]. split; [assumption|].
    eapply nearest_eq; [| reflexivity | apply nearest_refl, SF2Q_in_format, valid_fin_inv, Hx].
    cbn [SF2Q]. ring.
  - cbn [SFadd]. cbn [SF2Q] in *.
    set (ez := Z.min ex ey).
    set (z := cond_Zopp sx (Zpos (fst (shl_align mx ex ez)))
              + cond_Zopp sy (Zpos (fst (shl_align my ey ez)))).
    assert (Hz : (inject_Z z * pow2 ez == F2Q sx (Zpos mx) ex + F2Q sy (Zpos my) ey)%Q).
    { unfold z. rewrite inject_Z_plus, Qmult_plus_distr_l.
      rewrite !align_value by (unfold ez; lia). reflexivity. }
    destruct (binary_normalize_correct z ez false A B HA HB) as [H1 H2].
    { rewrite Hz. assumption. }
    split; [assumption|].
    eapply nearest_eq; [exact Hz | reflexivity | exact H2].
Qed.

Lemma SFsub_correct (x y A B : spec_float) :
  valid_fin x = true -> valid_fin y = true ->
  valid_fin A = true -> valid_fin B = true ->
  (SF2Q A <= SF2Q x - SF2Q y <= SF2Q B)%Q ->
  valid_fin (SFsub prec emax x y) = true /\
  nearest (SF2Q x - SF2Q y) (SF2Q (SFsub prec emax x y)).
Proof.
  intros Hx Hy HA HB HAB.
  destruct x as [sx | sx | | sx mx ex]; try discriminate Hx;
  destruct y as [sy | sy | | sy my ey]; try discriminate Hy.
  - assert (Hz : exists s, SFsub prec emax (S754_zero sx) (S754_zero sy) = S754_zero s)
      by (destruct sx, sy; eexists; reflexivity).
    destruct Hz as [s ->]. split; [reflexivity|]. cbn [SF2Q].
    eapply nearest_eq; [| reflexivity | apply (nearest_refl 0); apply in_format_0]. ring.
  - cbn [SFsub]. split; [exact Hy|].
    eapply nearest_eq;
      [| reflexivity
       | apply nearest_refl, (SF2Q_in_format prec emax (S754_finite (negb sy) my ey)),
           (valid_fin_inv (S754_finite (negb sy) my ey)), Hy].
    cbn [SF2Q]. rewrite F2Q_opp. ring.
  - cbn [SFsub]. split; [assumption|].
    eapply nearest_eq; [| reflexivity | apply nearest_refl, SF2Q_in_format, valid_fin_inv, Hx].
    cbn [SF2Q]. ring.
  - cbn [SFsub]. cbn [SF2Q] in *.
    set (ez := Z.min ex ey).
    set (z := cond_Zopp sx (Zpos (fst (shl_align mx ex ez)))
              - cond_Zopp sy (Zpos (fst (shl_align my ey ez)))).
    assert (Hz : (inject_Z z * pow2 ez == F2Q sx (Zpos mx) ex - F2Q sy (Zpos my) ey)%Q).
    { unfold z. rewrite inject_Z_sub.
      rewrite <- (align_value sx mx ex ez), <- (align_value sy my ey ez) by (unfold ez; lia).
      ring. }
    destruct (binary_normalize_correct z ez false A B HA HB) as [H1 H2].
    { rewrite Hz. assumption. }
    split; [assumption|].
    eapply nearest_eq; [exact Hz | reflexivity | exact H2].
Qed.

Lemma digits2_pos_gt (q : positive) (n : Z) :
  2 ^ n <= Zpos q -> n < Zpos (digits2_pos q).
Proof.
  intros H. pose proof (digits2_pos_bounds q) as [_ Hhi].
  destruct (Z.le_gt_cases (Zpos (digits2_pos q)) n) as [Hle|]; [exfalso | assumption].
  assert (2 ^ Zpos (digits2_pos q) <= 2 ^ n) by (apply Z.pow_le_mono_r; lia). lia.
Qed.

Lemma mul_exponent_ok (mx my : positive) (ex ey : Z) :
  canonical mx ex = true -> canonical my ey = true ->
  ex + ey <= fexp (Zdigits2 (Zpos (mx * my)) + (ex + ey)).
Proof.
  intros Hx Hy. apply canonical_spec in Hx, Hy.
  rewrite Zdigits2_pos.
  assert (Hd : Zpos (digits2_pos mx) + Zpos (digits2_pos my) - 2 < Zpos (digits2_pos (mx * my))).
  { apply digits2_pos_gt.
    pose proof (digits2_pos_bounds mx) as [Hx1 _]. pose proof (digits2_pos_bounds my) as [Hy1 _].
    replace (Zpos (digits2_pos mx) + Zpos (digits2_pos my) - 2)
      with ((Zpos (digits2_pos mx) - 1) + (Zpos (digits2_pos my) - 1)) by lia.
    rewrite Z.pow_add_r, Pos2Z.inj_mul by lia.
    apply Z.mul_le_mono_nonneg; try assumption; apply Z.pow_nonneg; lia. }
  unfold SpecFloat.fexp, SpecFloat.emin in *. lia.
Qed.

Lemma SFmul_correct (x y B : spec_float) :
  valid_fin x = true -> valid_fin y = true -> valid_fin B = true ->
  (Qabs (SF2Q x * SF2Q y) <= SF2Q B)%Q ->
  valid_fin (SFmul prec emax x y) = true /\
  nearest (SF2Q x * SF2Q y) (SF2Q (SFmul prec emax x y)) /\
  sign_of (SFmul prec emax x y) = xorb (sign_of x) (sign_of y).
Proof.
  intros Hx Hy HB HXB.
  destruct x as [sx | sx | | sx mx ex]; try discriminate Hx;
  destruct y as [sy | sy | | sy my ey]; try discriminate Hy;
  cbn [SFmul sign_of].
  1-3: split; [reflexivity | split; [|reflexivity]]; cbn [SF2Q];
       (eapply nearest_eq; [| reflexivity | apply (nearest_refl 0); apply in_format_0]); ring.
  pose proof (valid_finite_canonical prec emax _ _ _ Hx) as Hcx.
  pose proof (valid_finite_canonical prec emax _ _ _ Hy) as Hcy.
  destruct (binary_round_aux_correct (xorb sx sy) (mx * my) (ex + ey) B
              (mul_exponent_ok mx my ex ey Hcx Hcy) HB) as (H1 & H2 & H3).
  { apply Qle_trans with (2 := HXB). cbn [SF2Q].
    rewrite Pos2Z.inj_mul, inject_Z_mult, pow2_add.
    rewrite Qabs_Qmult. unfold F2Q.
    rewrite !Qabs_Qmult.
    rewrite !(Qabs_pos (pow2 _)) by (apply Qlt_le_weak, pow2_pos).
    assert (Ha : forall (s : bool) (m : positive),
               (Qabs (if s then - inject_Z (Zpos m) else inject_Z (Zpos m)) == inject_Z (Zpos m))%Q).
    { intros s m. destruct s; [rewrite Qabs_opp|]; apply Qabs_pos;
        change 0%Q with (inject_Z 0); rewrite <- Zle_Qle; lia. }
    rewrite !Ha. apply Qle_lteq. right. ring. }
  split; [assumption | split; [|assumption]].
  eapply nearest_eq; [| reflexivity | exact H2].
  cbn [SF2Q]. unfold F2Q. rewrite Pos2Z.inj_mul, inject_Z_mult, pow2_add.
  destruct sx, sy; cbn [xorb]; ring.
Qed.

End Round.

(** ** Floats as their values *)

Section Values.
Variables prec emax : Z.
Hypothesis Hprec : 0 < prec.
Hypothesis Hemax : prec < emax.

Local Abbreviation canonical := (canonical_mantissa prec emax).
Local Abbreviation valid_fin := (valid_finite prec emax).

Lemma canonical_inj (m1 m2 : positive) (e1 e2 : Z) :
  canonical m1 e1 = true -> canonical m2 e2 = true ->
  (inject_Z (Zpos m1) * pow2 e1 == inject_Z (Zpos m2) * pow2 e2)%Q ->
  m1 = m2 /\ e1 = e2.
Proof.
  intros H1 H2 HV. apply Qeq_alt in HV.
  rewrite <- (mag_compare_spec prec emax Hprec) in HV by assumption.
  destruct (Z.compare_spec e1 e2) as [He | He | He]; try discriminate HV.
  split; [|assumption]. apply Pos.compare_eq. exact HV.
Qed.

Lemma float_eq_of_value (x y : spec_float) :
  valid_fin x = true -> valid_fin y = true ->
  sign_of x = sign_of y -> (SF2Q x == SF2Q y)%Q -> x = y.
Proof.
  intros Hx Hy Hs HV.
  destruct x as [sx | sx | | sx mx ex]; try discriminate Hx;
  destruct y as [sy | sy | | sy my ey]; try discriminate Hy;
  cbn [sign_of SF2Q] in *.
  - congruence.
  - exfalso. pose proof (SF2Q_pos my ey). unfold F2Q in HV. destruct sy; lra.
  - exfalso. pose proof (SF2Q_pos mx ex). unfold F2Q in HV. destruct sx; lra.
  - subst sy.
    destruct (canonical_inj mx my ex ey) as [-> ->].
    + apply (valid_finite_canonical prec emax sx). assumption.
    + apply (valid_finite_canonical prec emax sx). assumption.
    + unfold F2Q in HV. destruct sx; lra.
    + reflexivity.
Qed.

Lemma binary_round_aux_opp (s : bool) (m e : Z) (l : location) :
  SFopp (binary_round_aux prec emax s m e l) = binary_round_aux prec emax (negb s) m e l.
Proof.
  unfold binary_round_aux.
  destruct (shr_fexp prec emax m e l) as [mrs' e'].
  destruct (shr_fexp prec emax _ e' loc_Exact) as [mrs'' e''].
  destruct (shr_m mrs''); [reflexivity | | reflexivity].
  destruct (e'' <=? emax - prec); reflexivity.
Qed.

Lemma SFmul_opp (x y : spec_float) :
  is_finite x = true -> is_finite y = true ->
  SFmul prec emax (SFopp x) y = SFopp (SFmul prec emax x y).
Proof.
  intros Hx Hy.
  destruct x as [sx | sx | | sx mx ex]; try discriminate Hx;
  destruct y as [sy | sy | | sy my ey]; try discriminate Hy;
  cbn [SFmul SFopp]; rewrite ?binary_round_aux_opp, ?negb_xorb_l; reflexivity.
Qed.

End Values.

(** An integer of fewer than [prec] bits, scaled by a power of two
    that is not below the least exponent, is a value of the format. *)
Lemma in_format_scaled (prec emax N e : Z) :
  0 < prec -> emin prec emax <= e -> Z.abs N < 2 ^ prec ->
  in_format prec emax (inject_Z N * pow2 e).
Proof.
  intros Hp He HN.
  destruct (Z.eq_dec N 0) as [-> | Hnz]; [left; ring|].
  right.
  set (M := Z.to_pos (Z.abs N)).
  assert (HM : Zpos M = Z.abs N) by (unfold M; rewrite Z2Pos.id; lia).
  set (d := Zpos (digits2_pos M)).
  assert (Hd : 0 < d <= prec).
  { split; [unfold d; lia|].
    destruct (Z.le_gt_cases d prec) as [|Hgt]; [assumption | exfalso].
    pose proof (digits2_pos_bounds M) as [Hlo _]. fold d in Hlo.
    assert (2 ^ prec <= 2 ^ (d - 1)) by (apply Z.pow_le_mono_r; lia). lia. }
  set (j := Z.min (prec - d) (e - emin prec emax)).
  assert (Hj : 0 <= j) by (unfold j; lia).
  assert (Hpos : 0 < Zpos M * 2 ^ j).
  { apply Z.mul_pos_pos; [lia|]. apply Z.pow_pos_nonneg; lia. }
  exists (N <? 0), (Z.to_pos (Zpos M * 2 ^ j)), (e - j). split.
  - apply canonical_spec.
    rewrite (digits2_pos_shift M (Z.to_pos (Zpos M * 2 ^ j)) j)
      by (try rewrite Z2Pos.id; lia).
    fold d. unfold fexp, j. lia.
  - rewrite Z2Pos.id by assumption.
    assert (Hsh := pow2_shift (Zpos M) (e - j) j Hj).
    replace (e - j + j) with e in Hsh by lia.
    destruct (Z.ltb_spec N 0) as [Hneg | Hnn].
    + rewrite F2Q_true, Hsh, HM. replace (Z.abs N) with (- N) by lia.
      rewrite inject_Z_opp. ring.
    + rewrite F2Q_false, Hsh, HM. replace (Z.abs N) with N by lia. reflexivity.
Qed.

(** Every value of a format is a value of a wider format. *)
Lemma in_format_embed (p1 E1 p2 E2 : Z) (F : Q) :
  0 < p1 -> p1 <= p2 -> emin p2 E2 <= emin p1 E1 ->
  in_format p1 E1 F -> in_format p2 E2 F.
Proof.
  intros Hp1 Hp Hmin [H0 | (s & m & e & Hc & HF)]; [left; assumption|].
  pose proof (canonical_bounds p1 E1 m e Hc) as [Hd He].
  pose proof (digits2_pos_bounds m) as [_ Hm].
  assert (Hlt : Zpos m < 2 ^ p2).
  { apply Z.lt_le_trans with (1 := Hm). apply Z.pow_le_mono_r; lia. }
  apply in_format_eq with (inject_Z (if s then - Zpos m else Zpos m) * pow2 e)%Q.
  - rewrite HF. unfold F2Q. destruct s; [rewrite inject_Z_opp|]; reflexivity.
  - apply in_format_scaled; [lia | lia |]. destruct s; lia.
Qed.

(** The integer part of a positive finite double. *)
Lemma trunc_pos_spec (m : positive) (e : Z) :
  let a := match e with
           | Zneg p => Zpos m / 2 ^ Zpos p
           | _ => Zpos m * 2 ^ e
           end in
  (inject_Z a <= inject_Z (Zpos m) * pow2 e < inject_Z a + 1)%Q.
Proof.
  destruct e as [ | p | p]; cbv zeta.
  - rewrite Z.pow_0_r, Z.mul_1_r. change (pow2 0) with 1%Q. lra.
  - rewrite inject_Z_mult, pow2_inject by lia. lra.
  - assert (HP : 0 < 2 ^ Zpos p) by (apply Z.pow_pos_nonneg; lia).
    pose proof (Z.div_mod (Zpos m) (2 ^ Zpos p) ltac:(lia)) as Hdm.
    pose proof (Z.mod_pos_bound (Zpos m) (2 ^ Zpos p) HP) as Hr.
    set (q := Zpos m / 2 ^ Zpos p) in *.
    assert (Hq : (inject_Z q == inject_Z (q * 2 ^ Zpos p) * pow2 (Zneg p))%Q).
    { rewrite pow2_shift by lia. replace (Zneg p + Zpos p) with 0 by lia.
      change (pow2 0) with 1%Q. ring. }
    assert (Hq1 : (inject_Z q + 1 == inject_Z ((q + 1) * 2 ^ Zpos p) * pow2 (Zneg p))%Q).
    { rewrite pow2_shift by lia. replace (Zneg p + Zpos p) with 0 by lia.
      change (pow2 0) with 1%Q. rewrite inject_Z_plus. ring. }
    rewrite Hq1, Hq. split; [apply scale_le | apply scale_lt]; lia.
Qed.

(** ** Results stay between format points that enclose the exact value *)

Section Bounds.
Variables prec emax : Z.
Hypothesis Hprec : 0 < prec.
Hypothesis Hemax : prec < emax.

Local Abbreviation valid_fin := (valid_finite prec emax).
Local Abbreviation nearest := (nearest prec emax).

Lemma valid_fin_in_format (x : spec_float) :
  valid_fin x = true -> in_format prec emax (SF2Q x).
Proof. intros H. apply SF2Q_in_format. apply valid_fin_inv in H as [H _]. exact H. Qed.

Lemma nearest_between (X V : Q) (A B : spec_float) :
  valid_fin A = true -> valid_fin B = true ->
  nearest X V -> (SF2Q A <= X <= SF2Q B)%Q -> (SF2Q A <= V <= SF2Q B)%Q.
Proof.
  intros HA HB Hn [H1 H2]. split.
  - apply (nearest_ge prec emax X V); [assumption | apply valid_fin_in_format; assumption | assumption].
  - apply (nearest_le prec emax X V); [assumption | apply valid_fin_in_format; assumption | assumption].
Qed.

Lemma binary_normalize_bounds (z e : Z) (sz : bool) (A B : spec_float) :
  valid_fin A = true -> valid_fin B = true ->
  (SF2Q A <= inject_Z z * pow2 e <= SF2Q B)%Q ->
  let r := binary_normalize prec emax z e sz in
  valid_fin r = true /\ (SF2Q A <= SF2Q r <= SF2Q B)%Q.
Proof.
  intros HA HB HAB r.
  destruct (binary_normalize_correct prec emax Hprec z e sz A B HA HB HAB) as [H1 H2].
  split; [assumption|]. apply (nearest_between _ _ A B HA HB H2 HAB).
Qed.

Lemma SFadd_bounds (x y A B : spec_float) :
  valid_fin x = true -> valid_fin y = true ->
  valid_fin A = true -> valid_fin B = true ->
  (SF2Q A <= SF2Q x + SF2Q y <= SF2Q B)%Q ->
  valid_fin (SFadd prec emax x y) = true /\
  (SF2Q A <= SF2Q (SFadd prec emax x y) <= SF2Q B)%Q.
Proof.
  intros Hx Hy HA HB HAB.
  destruct (SFadd_correct prec emax Hprec x y A B Hx Hy HA HB HAB) as [H1 H2].
  split; [assumption|]. apply (nearest_between _ _ A B HA HB H2 HAB).
Qed.

Lemma SFsub_bounds (x y A B : spec_float) :
  valid_fin x = true -> valid_fin y = true ->
  valid_fin A = true -> valid_fin B = true ->
  (SF2Q A <= SF2Q x - SF2Q y <= SF2Q B)%Q ->
  valid_fin (SFsub prec emax x y) = true /\
  (SF2Q A <= SF2Q (SFsub prec emax x y) <= SF2Q B)%Q.
Proof.
  intros Hx Hy HA HB HAB.
  destruct (SFsub_correct prec emax Hprec x y A B Hx Hy HA HB HAB) as [H1 H2].
  split; [assumption|]. apply (nearest_between _ _ A B HA HB H2 HAB).
Qed.

Lemma SFmul_bounds (x y B : spec_float) :
  valid_fin x = true -> valid_fin y = true -> valid_fin B = true ->
  (Qabs (SF2Q x * SF2Q y) <= SF2Q B)%Q ->
  valid_fin (SFmul prec emax x y) = true /\
  (Qabs (SF2Q (SFmul prec emax x y)) <= SF2Q B)%Q.
Proof.
  intros Hx Hy HB HXB.
  destruct (SFmul_correct prec emax Hprec Hemax x y B Hx Hy HB HXB) as (H1 & H2 & _).
  split; [assumption|].
  apply Qabs_Qle_condition in HXB.
  destruct (nearest_between _ _ (SFopp B) B (valid_fin_opp prec emax B HB) HB H2) as [H3 H4].
  { rewrite SF2Q_opp. exact HXB. }
  apply Qabs_Qle_condition. rewrite SF2Q_opp in H3. split; assumption.
Qed.

End Bounds.

(** * Part IV: the controller *)

(** ** The two formats *)

Lemma F_prec_pos : 0 < F.prec. Proof. reflexivity. Qed.
Lemma F_prec_lt_emax : F.prec < F.emax. Proof. reflexivity. Qed.
Lemma D_prec_pos : 0 < D.prec. Proof. reflexivity. Qed.
Lemma D_prec_lt_emax : D.prec < D.emax. Proof. reflexivity. Qed.

Local Abbreviation Fvalid := (valid_finite F.prec F.emax).
Local Abbreviation Dvalid := (valid_finite D.prec D.emax).

(** The constants of main.cpp as bit patterns: 0x3D4CCCCD, 0x3F4CCCCD
    and 0x3C23D70A. *)
Example incrementStep_bits : incrementStep = S754_finite false 13421773 (-28).
Proof. reflexivity. Qed.

Example decayRate_bits : decayRate = S754_finite false 13421773 (-24).
Proof. reflexivity. Qed.

Example zeroThreshold_bits : zeroThreshold = S754_finite false 10737418 (-30).
Proof. reflexivity. Qed.

Lemma SF2Q_fone : (SF2Q fone == 1)%Q.
Proof. vm_compute. reflexivity. Qed.

Lemma SF2Q_fmone : (SF2Q fmone == - (1))%Q.
Proof. vm_compute. reflexivity. Qed.

Lemma axis_ok_spec (x : spec_float) :
  axis_ok x = true <-> Fvalid x = true /\ (- (1) <= SF2Q x <= 1)%Q.
Proof.
  unfold axis_ok. rewrite !andb_true_iff. split.
  - intros [[Hv H1] H2]. split; [assumption|].
    apply (SFleb_spec F.prec F.emax F_prec_pos) in H1; [|reflexivity|assumption].
    apply (SFleb_spec F.prec F.emax F_prec_pos) in H2; [|assumption|reflexivity].
    rewrite SF2Q_fmone in H1. rewrite SF2Q_fone in H2. split; assumption.
  - intros [Hv [H1 H2]]. split; [split; [assumption|]|].
    + apply (SFleb_spec F.prec F.emax F_prec_pos); [reflexivity | assumption|].
      rewrite SF2Q_fmone. assumption.
    + apply (SFleb_spec F.prec F.emax F_prec_pos); [assumption | reflexivity|].
      rewrite SF2Q_fone. assumption.
Qed.

(** ** Promotion to [double] and back *)

Lemma float_lt_pow2_128 (s : bool) (m : positive) (e : Z) :
  Fvalid (S754_finite s m e) = true ->
  (inject_Z (Zpos m) * pow2 e <= pow2 128)%Q.
Proof.
  intros Hv. unfold valid_finite, valid_binary, bounded in Hv.
  rewrite andb_true_r in Hv. apply andb_prop in Hv as [Hc Hb]. apply Z.leb_le in Hb.
  apply Qlt_le_weak.
  eapply Qlt_le_trans; [apply (canonical_lt_pow2 F.prec F.emax F_prec_pos); exact Hc|].
  apply pow2_le. unfold F.prec, F.emax in *. lia.
Qed.

Lemma float_in_double_format (F : Q) :
  in_format F.prec F.emax F -> in_format D.prec D.emax F.
Proof. apply in_format_embed; vm_compute; congruence. Qed.

Lemma of_float_correct (x : spec_float) :
  Fvalid x = true ->
  Dvalid (D.of_float x) = true /\ (SF2Q (D.of_float x) == SF2Q x)%Q
  /\ sign_of (D.of_float x) = sign_of x.
Proof.
  intros Hx. destruct x as [s | s | | s m e]; try discriminate Hx.
  - repeat split; reflexivity.
  - cbn [D.of_float].
    destruct (binary_round_correct D.prec D.emax D_prec_pos s m e
                (S754_finite false 4503599627370496 76)) as (H1 & H2 & H3).
    + reflexivity.
    + apply Qle_trans with (1 := float_lt_pow2_128 s m e Hx).
      vm_compute. congruence.
    + split; [assumption | split; [|assumption]].
      apply (nearest_exact D.prec D.emax); [|assumption].
      apply float_in_double_format.
      apply (SF2Q_in_format F.prec F.emax (S754_finite s m e)).
      apply valid_fin_inv in Hx as [Hx _]. exact Hx.
Qed.

Lemma of_double_of_float (x : spec_float) :
  Fvalid x = true -> F.of_double (D.of_float x) = x.
Proof.
  intros Hx. destruct (of_float_correct x Hx) as (Hy & HV & Hs).
  destruct x as [s | s | | s m e]; try discriminate Hx; [reflexivity|].
  destruct (D.of_float (S754_finite s m e)) as [sy | sy | | sy my ey];
    try discriminate Hy; cbn [sign_of] in Hs; subst sy.
  - exfalso. cbn [SF2Q] in HV. pose proof (SF2Q_pos m e). unfold F2Q in HV.
    destruct s; lra.
  - cbn [F.of_double].
    assert (Hmag : (inject_Z (Zpos my) * pow2 ey == inject_Z (Zpos m) * pow2 e)%Q).
    { cbn [SF2Q] in HV. unfold F2Q in HV. destruct s; lra. }
    destruct (binary_round_correct F.prec F.emax F_prec_pos s my ey
                (S754_finite false m e)) as (H1 & H2 & H3).
    + exact Hx.
    + cbn [SF2Q]. rewrite F2Q_false, Hmag. apply Qle_refl.
    + apply (float_eq_of_value F.prec F.emax F_prec_pos); [assumption | assumption | assumption |].
      cbn [SF2Q] in HV.
      apply Qeq_trans with (F2Q s (Zpos my) ey); [|exact HV].
      apply (nearest_exact F.prec F.emax); [|assumption].
      apply (in_format_eq F.prec F.emax (SF2Q (S754_finite s m e)));
        [symmetry; exact HV|].
      apply (SF2Q_in_format F.prec F.emax (S754_finite s m e)).
      apply valid_fin_inv in Hx as [Hx _]. exact Hx.
Qed.

(** ** The tick update *)

Lemma SF2Q_f2p31 : (SF2Q f2p31 == inject_Z (2 ^ 31))%Q.
Proof. vm_compute. reflexivity. Qed.

Lemma SF2Q_f2p32 : (SF2Q f2p32 == inject_Z (2 ^ 32))%Q.
Proof. vm_compute. reflexivity. Qed.

Lemma SF2Q_incrementStep : (0 < SF2Q incrementStep <= 1)%Q.
Proof. split; vm_compute; congruence. Qed.

Lemma of_int_bounds (d : Z) :
  is_int d ->
  Fvalid (F.of_int d) = true /\ (Qabs (SF2Q (F.of_int d)) <= inject_Z (2 ^ 31))%Q.
Proof.
  intros Hd. unfold F.of_int.
  destruct (binary_normalize_bounds F.prec F.emax F_prec_pos d 0 false (SFopp f2p31) f2p31)
    as [H1 H2]; try reflexivity.
  - rewrite SF2Q_opp, SF2Q_f2p31. change (pow2 0) with 1%Q. rewrite Qmult_1_r.
    rewrite <- inject_Z_opp, <- !Zle_Qle. unfold is_int in Hd. lia.
  - split; [assumption|]. rewrite SF2Q_opp, SF2Q_f2p31 in H2.
    apply Qabs_Qle_condition. exact H2.
Qed.

Lemma tick_product_bounds (d : Z) :
  is_int d ->
  Fvalid (F.mul (F.of_int d) incrementStep) = true /\
  (Qabs (SF2Q (F.mul (F.of_int d) incrementStep)) <= inject_Z (2 ^ 31))%Q.
Proof.
  intros Hd. destruct (of_int_bounds d Hd) as [H1 H2].
  rewrite <- SF2Q_f2p31.
  apply (SFmul_bounds F.prec F.emax F_prec_pos F_prec_lt_emax); try assumption; try reflexivity.
  rewrite SF2Q_f2p31, Qabs_Qmult.
  pose proof SF2Q_incrementStep as [Hc0 Hc1].
  rewrite (Qabs_pos (SF2Q incrementStep)) by lra.
  pose proof (Qabs_nonneg (SF2Q (F.of_int d))).
  nra.
Qed.

Lemma tick_amount_valid (x : spec_float) (d : Z) :
  axis_ok x = true -> is_int d ->
  Fvalid (F.sub x (F.mul (F.of_int d) incrementStep)) = true.
Proof.
  intros Hx Hd. apply axis_ok_spec in Hx as [Hv [Hlo Hhi]].
  destruct (tick_product_bounds d Hd) as [Hp Hb]. apply Qabs_Qle_condition in Hb.
  destruct (SFsub_bounds F.prec F.emax F_prec_pos x (F.mul (F.of_int d) incrementStep)
              (SFopp f2p32) f2p32) as [H1 _]; try assumption; try reflexivity.
  rewrite SF2Q_opp, SF2Q_f2p32.
  change (inject_Z (2 ^ 31)) with (2147483648 # 1)%Q in Hb.
  change (inject_Z (2 ^ 32)) with (4294967296 # 1)%Q.
  lra.
Qed.

Lemma SFltb_false_spec (prec emax : Z) (x y : spec_float) :
  0 < prec ->
  valid_finite prec emax x = true -> valid_finite prec emax y = true ->
  (SFltb x y = false <-> (SF2Q y <= SF2Q x)%Q).
Proof.
  intros Hp Hx Hy. pose proof (SFltb_spec prec emax Hp x y Hx Hy) as H.
  destruct (SFltb x y); split; intros H'.
  - discriminate.
  - exfalso. assert (SF2Q x < SF2Q y)%Q by (apply H; reflexivity). lra.
  - destruct (Qlt_le_dec (SF2Q x) (SF2Q y)) as [Hlt | Hle]; [|assumption].
    apply H in Hlt. discriminate.
  - reflexivity.
Qed.

Lemma SFltb_promote_l (x c c' : spec_float) :
  Fvalid x = true -> Fvalid c = true -> Dvalid c' = true ->
  (SF2Q c' == SF2Q c)%Q ->
  SFltb (D.of_float x) c' = SFltb x c.
Proof.
  intros Hx Hc Hc' HV. destruct (of_float_correct x Hx) as (Hy & HVy & _).
  apply eq_iff_eq_true.
  rewrite (SFltb_spec D.prec D.emax D_prec_pos) by assumption.
  rewrite (SFltb_spec F.prec F.emax F_prec_pos) by assumption.
  rewrite HVy, HV. reflexivity.
Qed.

Lemma SFltb_promote_r (x c c' : spec_float) :
  Fvalid x = true -> Fvalid c = true -> Dvalid c' = true ->
  (SF2Q c' == SF2Q c)%Q ->
  SFltb c' (D.of_float x) = SFltb c x.
Proof.
  intros Hx Hc Hc' HV. destruct (of_float_correct x Hx) as (Hy & HVy & _).
  apply eq_iff_eq_true.
  rewrite (SFltb_spec D.prec D.emax D_prec_pos) by assumption.
  rewrite (SFltb_spec F.prec F.emax F_prec_pos) by assumption.
  rewrite HVy, HV. reflexivity.
Qed.

(** The comparison with the [double] bounds and the conversion back
    lose nothing: the clamp is the clamp of the [float]. *)
Lemma constrain_promoted (amt : spec_float) :
  Fvalid amt = true ->
  F.of_double (constrain (D.of_float amt) (D.of_int (-1)) (D.of_int 1))
  = constrain amt fmone fone.
Proof.
  intros Ha. unfold constrain, flt, fgt.
  rewrite (SFltb_promote_l amt fmone) by (assumption || reflexivity).
  rewrite (SFltb_promote_r amt fone) by (assumption || reflexivity).
  destruct (SFltb amt fmone); [reflexivity|].
  destruct (SFltb fone amt); [reflexivity|].
  apply of_double_of_float. assumption.
Qed.

Lemma constrain_axis_ok (amt : spec_float) :
  Fvalid amt = true -> axis_ok (constrain amt fmone fone) = true.
Proof.
  intros Ha. unfold constrain, flt, fgt.
  destruct (SFltb amt fmone) eqn:H1; [reflexivity|].
  destruct (SFltb fone amt) eqn:H2; [reflexivity|].
  apply (SFltb_false_spec F.prec F.emax) in H1; [|reflexivity|assumption|reflexivity].
  apply (SFltb_false_spec F.prec F.emax) in H2; [|reflexivity|reflexivity|assumption].
  rewrite SF2Q_fmone in H1. rewrite SF2Q_fone in H2.
  apply axis_ok_spec. split; [assumption | split; assumption].
Qed.

Lemma tick_value_constrain (x : spec_float) (d : Z) :
  axis_ok x = true -> is_int d ->
  tick_value x d = constrain (F.sub x (F.mul (F.of_int d) incrementStep)) fmone fone.
Proof.
  intros Hx Hd. unfold tick_value. apply constrain_promoted.
  apply tick_amount_valid; assumption.
Qed.

Lemma tick_value_ok (x : spec_float) (d : Z) :
  axis_ok x = true -> is_int d -> axis_ok (tick_value x d) = true.
Proof.
  intros Hx Hd. rewrite tick_value_constrain by assumption.
  apply constrain_axis_ok, tick_amount_valid; assumption.
Qed.

(** ** The decay *)

Lemma SF2Q_decayRate : (0 < SF2Q decayRate < 1)%Q.
Proof. split; vm_compute; congruence. Qed.

Lemma axis_ok_valid (x : spec_float) : axis_ok x = true -> Fvalid x = true.
Proof. intros H. apply axis_ok_spec in H as [H _]. exact H. Qed.

Lemma axis_ok_abs (x : spec_float) : axis_ok x = true -> (Qabs (SF2Q x) <= 1)%Q.
Proof. intros H. apply axis_ok_spec in H as [_ H]. apply Qabs_Qle_condition. exact H. Qed.

Lemma decay_product (x : spec_float) :
  axis_ok x = true ->
  let p := F.mul x decayRate in
  axis_ok p = true /\
  nearest F.prec F.emax (SF2Q x * SF2Q decayRate) (SF2Q p) /\
  sign_of p = sign_of x.
Proof.
  intros Hx p. pose proof (axis_ok_valid x Hx) as Hv. pose proof (axis_ok_abs x Hx) as Ha.
  pose proof SF2Q_decayRate as [Hc0 Hc1].
  assert (Hb : (Qabs (SF2Q x * SF2Q decayRate) <= SF2Q fone)%Q).
  { rewrite SF2Q_fone, Qabs_Qmult, (Qabs_pos (SF2Q decayRate)) by lra.
    pose proof (Qabs_nonneg (SF2Q x)). nra. }
  destruct (SFmul_correct F.prec F.emax F_prec_pos F_prec_lt_emax x decayRate fone)
    as (H1 & H2 & H3); try assumption; try reflexivity.
  destruct (SFmul_bounds F.prec F.emax F_prec_pos F_prec_lt_emax x decayRate fone)
    as (_ & H4); try assumption; try reflexivity.
  fold (F.mul x decayRate) in *. fold p in H1, H2, H3, H4.
  split; [|split].
  - apply axis_ok_spec. split; [assumption|].
    rewrite SF2Q_fone in H4. apply Qabs_Qle_condition. exact H4.
  - exact H2.
  - rewrite H3. cbn [sign_of decayRate]. apply xorb_false_r.
Qed.

Lemma arduino_abs_spec (p : spec_float) :
  Fvalid p = true ->
  Fvalid (arduino_abs p) = true /\ (SF2Q (arduino_abs p) == Qabs (SF2Q p))%Q.
Proof.
  intros Hp. unfold arduino_abs, fgt.
  destruct (SFltb (S754_zero false) p) eqn:H0.
  - split; [assumption|].
    apply (SFltb_spec F.prec F.emax F_prec_pos) in H0; [|reflexivity|assumption].
    change (SF2Q (S754_zero false)) with 0%Q in H0. rewrite Qabs_pos by lra. reflexivity.
  - split; [apply valid_fin_opp; assumption|].
    apply (SFltb_false_spec F.prec F.emax) in H0; [|reflexivity|reflexivity|assumption].
    change (SF2Q (S754_zero false)) with 0%Q in H0. rewrite SF2Q_opp, Qabs_neg by lra. reflexivity.
Qed.

Lemma fne_zero_spec (x : spec_float) :
  Fvalid x = true -> (fne x fzero = false <-> (SF2Q x == 0)%Q).
Proof.
  intros Hx. unfold fne. rewrite negb_false_iff.
  apply (SFeqb_spec F.prec F.emax F_prec_pos); [assumption | reflexivity].
Qed.

Lemma fne_promoted (x : spec_float) :
  Fvalid x = true -> fne (D.of_float x) dzero = fne x fzero.
Proof.
  intros Hx. destruct (of_float_correct x Hx) as (Hd & HV & _).
  unfold fne. f_equal. apply eq_iff_eq_true.
  rewrite (SFeqb_spec D.prec D.emax D_prec_pos) by (assumption || reflexivity).
  rewrite (SFeqb_spec F.prec F.emax F_prec_pos) by (assumption || reflexivity).
  rewrite HV. reflexivity.
Qed.

Lemma decay_step_cases (x : spec_float) :
  axis_ok x = true ->
  let p := F.mul x decayRate in
  ((SF2Q x == 0)%Q /\ decay_step x = x) \/
  (~ (SF2Q x == 0)%Q /\ (Qabs (SF2Q p) < SF2Q zeroThreshold)%Q /\ decay_step x = fzero) \/
  (~ (SF2Q x == 0)%Q /\ (SF2Q zeroThreshold <= Qabs (SF2Q p))%Q /\ decay_step x = p).
Proof.
  intros Hx p. pose proof (axis_ok_valid x Hx) as Hv.
  destruct (decay_product x Hx) as (Hp & _ & _). fold p in Hp.
  pose proof (axis_ok_valid p Hp) as Hpv.
  destruct (arduino_abs_spec p Hpv) as [Hav HaV].
  unfold decay_step. rewrite (fne_promoted x Hv). destruct (fne x fzero) eqn:Hne.
  - right.
    assert (Hnz : ~ (SF2Q x == 0)%Q).
    { intros H0. apply (fne_zero_spec x Hv) in H0. congruence. }
    unfold decay_value, flt. fold p.
    destruct (SFltb (arduino_abs p) zeroThreshold) eqn:Hlt.
    + left. split; [assumption | split; [|reflexivity]].
      apply (SFltb_spec F.prec F.emax F_prec_pos) in Hlt; [|assumption|reflexivity].
      rewrite HaV in Hlt. exact Hlt.
    + right. split; [assumption | split; [|reflexivity]].
      apply (SFltb_false_spec F.prec F.emax) in Hlt; [|reflexivity|assumption|reflexivity].
      rewrite HaV in Hlt. exact Hlt.
  - left. split; [|reflexivity]. apply (fne_zero_spec x Hv). exact Hne.
Qed.

Lemma decay_step_ok (x : spec_float) : axis_ok x = true -> axis_ok (decay_step x) = true.
Proof.
  intros Hx. destruct (decay_product x Hx) as (Hp & _ & _).
  destruct (decay_step_cases x Hx) as [[_ ->] | [(_ & _ & ->) | (_ & _ & ->)]];
    [assumption | reflexivity | assumption].
Qed.

(** ** The decay is monotone in the magnitude *)

Lemma sign_of_pos (x : spec_float) : (0 < SF2Q x)%Q -> sign_of x = false.
Proof.
  destruct x as [s | s | | s m e]; cbn [SF2Q sign_of]; intros H; try lra.
  pose proof (SF2Q_pos m e). unfold F2Q in H. destruct s; [lra | reflexivity].
Qed.

Lemma sign_of_neg (x : spec_float) : (SF2Q x < 0)%Q -> sign_of x = true.
Proof.
  destruct x as [s | s | | s m e]; cbn [SF2Q sign_of]; intros H; try lra.
  pose proof (SF2Q_pos m e). unfold F2Q in H. destruct s; [reflexivity | lra].
Qed.

Lemma decay_product_mono (y u : spec_float) :
  axis_ok y = true -> axis_ok u = true ->
  (Qabs (SF2Q y) <= SF2Q u)%Q ->
  (Qabs (SF2Q (F.mul y decayRate)) <= SF2Q (F.mul u decayRate))%Q.
Proof.
  intros Hy Hu Hle.
  destruct (decay_product y Hy) as (Hpy & Hny & _).
  destruct (decay_product u Hu) as (Hpu & Hnu & _). cbv zeta in *.
  pose proof SF2Q_decayRate as [Hc0 Hc1].
  pose proof (Qabs_nonneg (SF2Q y)) as Hy0.
  assert (HVu : (0 <= SF2Q (F.mul u decayRate))%Q).
  { apply (nearest_ge F.prec F.emax _ _ 0 Hnu); [apply in_format_0 | nra]. }
  apply Qabs_Qle_condition.
  destruct (Qlt_le_dec (Qabs (SF2Q y)) (SF2Q u)) as [Hlt | Hge].
  - (* strictly smaller magnitude *)
    destruct (Qlt_le_dec (SF2Q y) 0) as [Hneg | Hpos].
    + rewrite Qabs_neg in Hlt by lra. split.
      * apply (nearest_mono F.prec F.emax (- (SF2Q u * SF2Q decayRate)) (SF2Q y * SF2Q decayRate));
          [apply nearest_opp; assumption | assumption | nra].
      * apply Qle_trans with 0%Q; [|assumption].
        apply (nearest_le F.prec F.emax _ _ 0 Hny); [apply in_format_0 | nra].
    + rewrite Qabs_pos in Hlt by lra. split.
      * apply Qle_trans with 0%Q; [lra|].
        apply (nearest_ge F.prec F.emax _ _ 0 Hny); [apply in_format_0 | nra].
      * apply (nearest_mono F.prec F.emax (SF2Q y * SF2Q decayRate) (SF2Q u * SF2Q decayRate));
          [assumption | assumption | nra].
  - (* the same magnitude *)
    assert (Heq : (Qabs (SF2Q y) == SF2Q u)%Q) by lra.
    destruct (Q_dec (SF2Q y) 0) as [[Hneg | Hpos] | Hz].
    + rewrite Qabs_neg in Heq by lra.
      assert (Hu' : u = SFopp y).
      { apply (float_eq_of_value F.prec F.emax F_prec_pos).
        - apply axis_ok_valid; assumption.
        - apply valid_fin_opp, axis_ok_valid; assumption.
        - rewrite (sign_of_pos u) by lra.
          symmetry. apply sign_of_pos. rewrite SF2Q_opp. lra.
        - rewrite SF2Q_opp. symmetry. exact Heq. }
      rewrite Hu'. unfold F.mul.
      rewrite SFmul_opp; [|apply valid_fin_inv with (1 := axis_ok_valid y Hy) | reflexivity].
      rewrite SF2Q_opp.
      assert (SF2Q (SFmul F.prec F.emax y decayRate) <= 0)%Q
        by (apply (nearest_le F.prec F.emax _ _ 0 Hny); [apply in_format_0 | nra]).
      lra.
    + rewrite Qabs_pos in Heq by lra.
      assert (Hu' : y = u).
      { apply (float_eq_of_value F.prec F.emax F_prec_pos).
        - apply axis_ok_valid; assumption.
        - apply axis_ok_valid; assumption.
        - rewrite (sign_of_pos u), (sign_of_pos y) by lra. reflexivity.
        - exact Heq. }
      rewrite Hu'. lra.
    + assert (Hp0 : (SF2Q (F.mul y decayRate) == 0)%Q).
      { apply (nearest_exact F.prec F.emax); [apply in_format_0|].
        eapply nearest_eq; [| reflexivity | exact Hny]. rewrite Hz. ring. }
      rewrite Hp0. lra.
Qed.

Lemma decay_step_mono (y u : spec_float) :
  axis_ok y = true -> axis_ok u = true ->
  (Qabs (SF2Q y) <= SF2Q u)%Q ->
  (Qabs (SF2Q (decay_step y)) <= SF2Q (decay_step u))%Q.
Proof.
  intros Hy Hu Hle.
  pose proof (decay_product_mono y u Hy Hu Hle) as Hm.
  pose proof (Qabs_nonneg (SF2Q y)) as Hy0.
  pose proof (Qabs_nonneg (SF2Q (F.mul y decayRate))) as Hpy0.
  assert (Hu0 : (0 <= SF2Q (decay_step u))%Q).
  { destruct (decay_step_cases u Hu) as [[_ ->] | [(_ & _ & ->) | (_ & _ & ->)]];
      [lra | apply Qle_refl | lra]. }
  destruct (decay_step_cases y Hy) as [[Hz ->] | [(Hnz & Hs & ->) | (Hnz & Hs & ->)]].
  - rewrite Hz. exact Hu0.
  - exact Hu0.
  - destruct (decay_step_cases u Hu) as [[Hz' ->] | [(_ & Hs' & ->) | (_ & _ & ->)]].
    + exfalso. rewrite Hz' in Hle. apply Hnz.
      revert Hle. apply Qabs_case; intros; lra.
    + exfalso. rewrite (Qabs_pos (SF2Q (F.mul u decayRate))) in Hs' by lra. lra.
    + exact Hm.
Qed.

(** ** Iterating the decay *)

Lemma is_fzero_eq (x : spec_float) : is_fzero x = true -> x = fzero.
Proof. destruct x as [[|] | | | ]; try discriminate; reflexivity. Qed.

Lemma decay_step_fzero : decay_step fzero = fzero.
Proof. reflexivity. Qed.

Lemma decay_iter_S (n : nat) (x : spec_float) :
  decay_iter (S n) x = decay_step (decay_iter n x).
Proof. reflexivity. Qed.

Lemma decay_iter_fzero (n : nat) : decay_iter n fzero = fzero.
Proof.
  induction n as [ | n IH]; [reflexivity|].
  rewrite decay_iter_S, IH. reflexivity.
Qed.

Lemma decay_iter_add (n m : nat) (x : spec_float) :
  decay_iter (n + m) x = decay_iter n (decay_iter m x).
Proof. unfold decay_iter. apply Nat.iter_add. Qed.

Lemma decay_iter_ok (n : nat) (x : spec_float) :
  axis_ok x = true -> axis_ok (decay_iter n x) = true.
Proof.
  intros Hx. induction n as [ | n IH]; [exact Hx|].
  rewrite decay_iter_S. apply decay_step_ok. exact IH.
Qed.

Lemma decay_iter_mono (n : nat) (y u : spec_float) :
  axis_ok y = true -> axis_ok u = true ->
  (Qabs (SF2Q y) <= SF2Q u)%Q ->
  (Qabs (SF2Q (decay_iter n y)) <= SF2Q (decay_iter n u))%Q.
Proof.
  intros Hy Hu Hle. induction n as [ | n IH]; [exact Hle|].
  rewrite !decay_iter_S.
  apply decay_step_mono; [apply decay_iter_ok | apply decay_iter_ok |]; assumption.
Qed.

Lemma decay_step_zero_value (x : spec_float) :
  axis_ok x = true -> ~ (SF2Q x == 0)%Q ->
  (SF2Q (decay_step x) == 0)%Q -> decay_step x = fzero.
Proof.
  intros Hx Hnz H0.
  destruct (decay_step_cases x Hx) as [[Hz _] | [(_ & _ & E) | (_ & Hs & E)]].
  - contradiction.
  - exact E.
  - exfalso. rewrite E in H0. rewrite H0 in Hs.
    revert Hs. vm_compute. congruence.
Qed.

Lemma decay_iter_zero_value (n : nat) (x : spec_float) :
  axis_ok x = true -> ~ (SF2Q x == 0)%Q ->
  (SF2Q (decay_iter n x) == 0)%Q -> decay_iter n x = fzero.
Proof.
  intros Hx Hnz. induction n as [ | n IH]; intros H0.
  - contradiction.
  - rewrite decay_iter_S in *.
    destruct (Qeq_dec (SF2Q (decay_iter n x)) 0) as [Hz | Hz].
    + rewrite (IH Hz). reflexivity.
    + apply decay_step_zero_value; [apply decay_iter_ok; assumption | assumption | assumption].
Qed.

(** From a start no larger than [t], the decay is at 0.0 as soon as it
    is from [t]. *)
Lemma decay_reaches_zero_below (t s : spec_float) (n m : nat) :
  axis_ok t = true -> axis_ok s = true -> ~ (SF2Q s == 0)%Q ->
  (Qabs (SF2Q s) <= SF2Q t)%Q ->
  decay_iter n t = fzero -> (n <= m)%nat ->
  decay_iter m s = fzero.
Proof.
  intros Ht Hs Hnz Hle Hn Hnm.
  apply decay_iter_zero_value; [assumption | assumption |].
  pose proof (decay_iter_mono m s t Hs Ht Hle) as Hm.
  replace m with ((m - n) + n)%nat in Hm at 2 by lia.
  rewrite decay_iter_add, Hn, decay_iter_fzero in Hm.
  change (SF2Q fzero) with 0%Q in Hm.
  revert Hm. apply Qabs_case; intros; lra.
Qed.

Lemma decay_threshold_table :
  forallb decay_threshold_ok (seq 0 21) = true.
Proof. vm_compute. reflexivity. Qed.

Lemma pow_45_54 (n : nat) : ((4 # 5) ^ Z.of_nat n * (5 # 4) ^ Z.of_nat n == 1)%Q.
Proof.
  rewrite <- Qmult_power.
  setoid_replace ((4 # 5) * (5 # 4))%Q with 1%Q by reflexivity.
  apply Qpower_1.
Qed.

Lemma decay_reaches_zero (s : spec_float) (n : nat) :
  axis_ok s = true -> ~ (SF2Q s == 0)%Q ->
  (Qabs (SF2Q s) * (4 # 5) ^ Z.of_nat n <= 1 # 100)%Q ->
  decay_iter (S n) s = fzero.
Proof.
  intros Hs Hnz Hb.
  destruct (Nat.le_gt_cases n 20) as [Hn | Hn].
  - pose proof decay_threshold_table as Ht.
    rewrite forallb_forall in Ht. specialize (Ht n).
    assert (Hin : In n (seq 0 21)) by (apply in_seq; lia).
    specialize (Ht Hin). unfold decay_threshold_ok in Ht.
    apply andb_prop in Ht as [Ht H3]. apply andb_prop in Ht as [H1 H2].
    apply Qle_bool_iff in H3. apply is_fzero_eq in H2.
    apply (decay_reaches_zero_below (decay_threshold n) s (S n) (S n)); try assumption; [|lia].
    apply Qle_trans with (2 := H3).
    assert (Hp : (0 < (5 # 4) ^ Z.of_nat n)%Q) by (apply Qpower_0_lt; reflexivity).
    pose proof (pow_45_54 n) as H45.
    pose proof (Qabs_nonneg (SF2Q s)) as Ha.
    assert (Hq : (0 < (4 # 5) ^ Z.of_nat n)%Q) by (apply Qpower_0_lt; reflexivity).
    set (a := Qabs (SF2Q s)) in *. set (p := ((4 # 5) ^ Z.of_nat n)%Q) in *.
    set (q := ((5 # 4) ^ Z.of_nat n)%Q) in *.
    assert (Hstep : (a * p * q <= (1 # 100) * q)%Q).
    { apply Qmult_le_compat_r; [assumption | lra]. }
    setoid_replace (a * p * q)%Q with (a * (p * q))%Q in Hstep by ring.
    rewrite H45 in Hstep. lra.
  - apply (decay_reaches_zero_below fone s 21 (S n)); try assumption; try reflexivity; [|lia].
    rewrite SF2Q_fone. apply axis_ok_abs. assumption.
Qed.

(** ** The mapping to the sink's range *)

Lemma map_arg_bounds (x : spec_float) :
  axis_ok x = true ->
  Dvalid (map_arg x) = true /\ (1 <= SF2Q (map_arg x) <= 1023)%Q.
Proof.
  intros Hx. apply axis_ok_spec in Hx as [Hv Hr].
  destruct (of_float_correct x Hv) as (Hd & HV & _).
  destruct (SFmul_bounds D.prec D.emax D_prec_pos D_prec_lt_emax
              (D.of_float x) (D.of_int 511) (D.of_int 511)) as [Hp Hb];
    try assumption; try reflexivity.
  { rewrite HV. setoid_replace (SF2Q (D.of_int 511)) with 511%Q by (vm_compute; reflexivity).
    rewrite Qabs_Qmult. change (Qabs 511) with 511%Q.
    assert (Qabs (SF2Q x) <= 1)%Q by (apply Qabs_Qle_condition; exact Hr).
    pose proof (Qabs_nonneg (SF2Q x)). lra. }
  setoid_replace (SF2Q (D.of_int 511)) with 511%Q in Hb by (vm_compute; reflexivity).
  apply Qabs_Qle_condition in Hb.
  destruct (SFadd_bounds D.prec D.emax D_prec_pos (D.of_int 512)
              (D.mul (D.of_float x) (D.of_int 511)) (D.of_int 1) (D.of_int 1023))
    as [Hs Hsb]; try assumption; try reflexivity.
  { setoid_replace (SF2Q (D.of_int 512)) with 512%Q by (vm_compute; reflexivity).
    setoid_replace (SF2Q (D.of_int 1)) with 1%Q by (vm_compute; reflexivity).
    setoid_replace (SF2Q (D.of_int 1023)) with 1023%Q by (vm_compute; reflexivity).
    unfold D.mul. lra. }
  setoid_replace (SF2Q (D.of_int 1)) with 1%Q in Hsb by (vm_compute; reflexivity).
  setoid_replace (SF2Q (D.of_int 1023)) with 1023%Q in Hsb by (vm_compute; reflexivity).
  split; assumption.
Qed.

Lemma to_long_bounds (t : spec_float) (lo hi : Z) :
  Dvalid t = true -> 0 <= lo ->
  (inject_Z lo <= SF2Q t)%Q -> (SF2Q t < inject_Z (hi + 1))%Q ->
  (0 < SF2Q t)%Q ->
  lo <= D.to_long t <= hi.
Proof.
  intros Ht Hlo0 Hlo Hhi Hpos.
  pose proof (sign_of_pos t Hpos) as Hs.
  destruct t as [s | s | | s m e]; try discriminate Ht; cbn [SF2Q] in *; [lra|].
  cbn [sign_of] in Hs. subst s. cbn [D.to_long].
  pose proof (trunc_pos_spec m e) as Htr. cbv zeta in Htr.
  set (a := match e with
            | Zneg p => Zpos m / 2 ^ Zpos p
            | _ => Zpos m * 2 ^ e
            end) in *.
  rewrite F2Q_false in *. destruct Htr as [H1 H2]. split.
  - assert (inject_Z lo < inject_Z (a + 1))%Q by (rewrite inject_Z_plus; change (inject_Z 1) with 1%Q; lra).
    rewrite <- Zlt_Qlt in *. lia.
  - assert (inject_Z a < inject_Z (hi + 1))%Q by lra.
    rewrite <- Zlt_Qlt in *. lia.
Qed.

Lemma arduino_round_bounds (t : spec_float) :
  Dvalid t = true -> (1 <= SF2Q t <= 1023)%Q -> 1 <= arduino_round t <= 1023.
Proof.
  intros Ht [Hlo Hhi]. unfold arduino_round, fge.
  assert (H0 : SFleb (S754_zero false) t = true).
  { apply (SFleb_spec D.prec D.emax D_prec_pos); [reflexivity | assumption|].
    change (SF2Q (S754_zero false)) with 0%Q. lra. }
  rewrite H0.
  destruct (SFadd_bounds D.prec D.emax D_prec_pos t (D.lit 5 10) (D.lit 3 2) (D.lit 2047 2))
    as [Hs Hsb]; try assumption; try reflexivity.
  { setoid_replace (SF2Q (D.lit 5 10)) with (1 # 2)%Q by (vm_compute; reflexivity).
    setoid_replace (SF2Q (D.lit 3 2)) with (3 # 2)%Q by (vm_compute; reflexivity).
    setoid_replace (SF2Q (D.lit 2047 2)) with (2047 # 2)%Q by (vm_compute; reflexivity).
    lra. }
  setoid_replace (SF2Q (D.lit 3 2)) with (3 # 2)%Q in Hsb by (vm_compute; reflexivity).
  setoid_replace (SF2Q (D.lit 2047 2)) with (2047 # 2)%Q in Hsb by (vm_compute; reflexivity).
  fold (D.add t (D.lit 5 10)) in *.
  apply to_long_bounds; try assumption; try lia.
  - change (inject_Z 1) with 1%Q. lra.
  - change (inject_Z (1023 + 1)) with 1024%Q. lra.
  - lra.
Qed.

Lemma map_x_unclamped (x : spec_float) :
  axis_ok x = true ->
  1 <= arduino_round (map_arg x) <= 1023 /\ map_x x = arduino_round (map_arg x).
Proof.
  intros Hx. destruct (map_arg_bounds x Hx) as [Hv Hb].
  pose proof (arduino_round_bounds (map_arg x) Hv Hb) as Hr.
  split; [assumption|].
  unfold map_x. fold (map_arg x). unfold constrain_int.
  destruct (Z.ltb_spec (arduino_round (map_arg x)) 0); [lia|].
  destruct (Z.gtb_spec (arduino_round (map_arg x)) 1023); [lia | reflexivity].
Qed.

(** ** The mapping is the exact rounding *)

Lemma Qfloor_unique (q : Q) (k : Z) :
  (inject_Z k <= q)%Q -> (q < inject_Z (k + 1))%Q -> Qfloor q = k.
Proof.
  intros Hlo Hhi.
  pose proof (Qfloor_le q) as H1. pose proof (Qlt_floor q) as H2.
  assert (inject_Z (Qfloor q) < inject_Z (k + 1))%Q by lra.
  assert (inject_Z k < inject_Z (Qfloor q + 1))%Q by lra.
  rewrite <- Zlt_Qlt in *. lia.
Qed.

(** A [float] of magnitude at least [2^-11] is a multiple of [2^-34]. *)
Lemma axis_grid (x : spec_float) :
  axis_ok x = true -> (pow2 (-11) <= Qabs (SF2Q x))%Q ->
  exists N, (SF2Q x == inject_Z N * pow2 (-34))%Q /\ Z.abs N <= 2 ^ 34.
Proof.
  intros Hx Hbig. pose proof (axis_ok_abs x Hx) as Hle.
  pose proof (axis_ok_valid x Hx) as Hv.
  destruct x as [s | s | | s m e]; try discriminate Hv.
  - exfalso. revert Hbig. vm_compute. congruence.
  - cbn [SF2Q] in *.
    assert (Hmag : (Qabs (F2Q s (Zpos m) e) == inject_Z (Zpos m) * pow2 e)%Q).
    { pose proof (SF2Q_pos m e). destruct s; [rewrite F2Q_true, Qabs_opp | rewrite F2Q_false];
        apply Qabs_pos; lra. }
    rewrite Hmag in Hbig, Hle.
    pose proof (canonical_lt_pow2 F.prec F.emax F_prec_pos m e
                  (valid_finite_canonical F.prec F.emax s m e Hv)) as Hlt.
    assert (He : -34 <= e).
    { assert (Hp : (pow2 (-11) < pow2 (F.prec + e))%Q) by lra.
      apply Qpower_lt_compat_l_inv in Hp; [|reflexivity]. unfold F.prec in Hp. lia. }
    assert (Hsh := pow2_shift (Zpos m) (-34) (e + 34) ltac:(lia)).
    replace (-34 + (e + 34)) with e in Hsh by lia.
    exists (if s then - (Zpos m * 2 ^ (e + 34)) else Zpos m * 2 ^ (e + 34)). split.
    + destruct s; [rewrite F2Q_true, inject_Z_opp | rewrite F2Q_false]; rewrite <- Hsh; ring.
    + assert (Hpos : 0 < Zpos m * 2 ^ (e + 34)).
      { apply Z.mul_pos_pos; [lia | apply Z.pow_pos_nonneg; lia]. }
      assert (Zpos m * 2 ^ (e + 34) <= 2 ^ 34).
      { apply (scale_le_inv _ _ (-34)). rewrite Hsh.
        setoid_replace (inject_Z (2 ^ 34) * pow2 (-34))%Q with 1%Q by (vm_compute; reflexivity).
        exact Hle. }
      destruct s; lia.
Qed.

Lemma map_x_exact (x : spec_float) :
  axis_ok x = true ->
  map_x x = Qfloor (512 + 511 * SF2Q x + (1 # 2)).
Proof.
  intros Hx. destruct (map_x_unclamped x Hx) as [_ ->].
  destruct (map_arg_bounds x Hx) as [Hsv Hsb].
  pose proof (axis_ok_spec x) as [Hspec _]. destruct (Hspec Hx) as [Hv Hr]. clear Hspec.
  destruct (of_float_correct x Hv) as (Hd & HV & _).
  unfold arduino_round, fge.
  assert (H0 : SFleb (S754_zero false) (map_arg x) = true).
  { apply (SFleb_spec D.prec D.emax D_prec_pos); [reflexivity | assumption|].
    change (SF2Q (S754_zero false)) with 0%Q. lra. }
  rewrite H0.
  destruct (SFadd_correct D.prec D.emax D_prec_pos (map_arg x) (D.lit 5 10)
              (D.lit 3 2) (D.lit 2047 2)) as [Hzv Hzn]; try assumption; try reflexivity.
  { setoid_replace (SF2Q (D.lit 5 10)) with (1 # 2)%Q by (vm_compute; reflexivity).
    setoid_replace (SF2Q (D.lit 3 2)) with (3 # 2)%Q by (vm_compute; reflexivity).
    setoid_replace (SF2Q (D.lit 2047 2)) with (2047 # 2)%Q by (vm_compute; reflexivity).
    lra. }
  fold (D.add (map_arg x) (D.lit 5 10)) in *.
  set (z := D.add (map_arg x) (D.lit 5 10)) in *.
  set (Y := (512 + 511 * SF2Q x)%Q).
  (* it is enough to place the double sum in the unit interval of the floor *)
  enough (Hk : exists k, 1 <= k /\ Qfloor (Y + (1 # 2)) = k
                         /\ (inject_Z k <= SF2Q z < inject_Z (k + 1))%Q).
  { destruct Hk as (k & Hk1 & -> & Hlo & Hhi).
    assert (0 < SF2Q z)%Q.
    { apply Qlt_le_trans with (inject_Z k); [|assumption].
      change 0%Q with (inject_Z 0). rewrite <- Zlt_Qlt. lia. }
    pose proof (to_long_bounds z k k Hzv ltac:(lia) Hlo Hhi ltac:(assumption)). lia. }
  setoid_replace (SF2Q (D.lit 5 10)) with (1 # 2)%Q in Hzn by (vm_compute; reflexivity).
  destruct (Qlt_le_dec (Qabs (SF2Q x)) (pow2 (-11))) as [Hsmall | Hbig].
  - (* close to the centre: everything rounds to 512 *)
    exists 512. split; [lia|].
    assert (Hs : (- (1 # 2048) < SF2Q x < 1 # 2048)%Q).
    { apply Qabs_Qlt_condition. exact Hsmall. }
    split.
    + apply Qfloor_unique; unfold Y; change (inject_Z 512) with 512%Q;
        change (inject_Z (512 + 1)) with 513%Q; lra.
    + destruct (SFadd_bounds D.prec D.emax D_prec_pos (D.of_int 512)
                  (D.mul (D.of_float x) (D.of_int 511)) (D.lit 2047 4) (D.lit 2049 4))
        as [_ Hb1]; try reflexivity.
      { destruct (SFmul_bounds D.prec D.emax D_prec_pos D_prec_lt_emax
                    (D.of_float x) (D.of_int 511) (D.of_int 511)) as [Hp _];
          try assumption; try reflexivity.
        rewrite HV. setoid_replace (SF2Q (D.of_int 511)) with 511%Q by (vm_compute; reflexivity).
        rewrite Qabs_Qmult. change (Qabs 511) with 511%Q.
        assert (Qabs (SF2Q x) <= 1)%Q by (apply Qabs_Qle_condition; exact Hr).
        pose proof (Qabs_nonneg (SF2Q x)). lra. }
      { destruct (SFmul_correct D.prec D.emax D_prec_pos D_prec_lt_emax
                    (D.of_float x) (D.of_int 511) (D.lit 1 4)) as (_ & Hpn & _);
          try assumption; try reflexivity.
        - rewrite HV.
          setoid_replace (SF2Q (D.of_int 511)) with 511%Q by (vm_compute; reflexivity).
          setoid_replace (SF2Q (D.lit 1 4)) with (1 # 4)%Q by (vm_compute; reflexivity).
          apply Qabs_Qle_condition. lra.
        - rewrite HV in Hpn.
          setoid_replace (SF2Q (D.of_int 511)) with 511%Q in Hpn by (vm_compute; reflexivity).
          assert (Hpb : (SF2Q (SFopp (D.lit 1 4))
                         <= SF2Q (SFmul D.prec D.emax (D.of_float x) (D.of_int 511))
                         <= SF2Q (D.lit 1 4))%Q).
          { apply (nearest_between D.prec D.emax _ _ (SFopp (D.lit 1 4)) (D.lit 1 4) eq_refl eq_refl Hpn).
            setoid_replace (SF2Q (SFopp (D.lit 1 4))) with (- (1 # 4))%Q
              by (vm_compute; reflexivity).
            setoid_replace (SF2Q (D.lit 1 4)) with (1 # 4)%Q by (vm_compute; reflexivity).
            lra. }
          setoid_replace (SF2Q (SFopp (D.lit 1 4))) with (- (1 # 4))%Q in Hpb
            by (vm_compute; reflexivity).
          setoid_replace (SF2Q (D.lit 1 4)) with (1 # 4)%Q in Hpb by (vm_compute; reflexivity).
          unfold D.mul.
          setoid_replace (SF2Q (D.of_int 512)) with 512%Q by (vm_compute; reflexivity).
          setoid_replace (SF2Q (D.lit 2047 4)) with (2047 # 4)%Q by (vm_compute; reflexivity).
          setoid_replace (SF2Q (D.lit 2049 4)) with (2049 # 4)%Q by (vm_compute; reflexivity).
          lra. }
      change (SFadd D.prec D.emax (D.of_int 512) (D.mul (D.of_float x) (D.of_int 511)))
        with (map_arg x) in Hb1.
      setoid_replace (SF2Q (D.lit 2047 4)) with (2047 # 4)%Q in Hb1 by (vm_compute; reflexivity).
      setoid_replace (SF2Q (D.lit 2049 4)) with (2049 # 4)%Q in Hb1 by (vm_compute; reflexivity).
      assert (Hzb : (SF2Q (D.lit 2049 4) <= SF2Q z <= SF2Q (D.lit 2051 4))%Q).
      { apply (nearest_between D.prec D.emax _ _ (D.lit 2049 4) (D.lit 2051 4) eq_refl eq_refl Hzn).
        setoid_replace (SF2Q (D.lit 2049 4)) with (2049 # 4)%Q by (vm_compute; reflexivity).
        setoid_replace (SF2Q (D.lit 2051 4)) with (2051 # 4)%Q by (vm_compute; reflexivity).
        lra. }
      setoid_replace (SF2Q (D.lit 2049 4)) with (2049 # 4)%Q in Hzb by (vm_compute; reflexivity).
      setoid_replace (SF2Q (D.lit 2051 4)) with (2051 # 4)%Q in Hzb by (vm_compute; reflexivity).
      change (inject_Z 512) with 512%Q. change (inject_Z (512 + 1)) with 513%Q. lra.
  - (* on the grid of step 2^-34 every operation is exact *)
    destruct (axis_grid x Hx Hbig) as (N & HN & HNb).
    set (u := pow2 (-34)) in *.
    assert (Hu : (inject_Z (2 ^ 34) * u == 1)%Q) by (vm_compute; reflexivity).
    assert (Hemin : emin D.prec D.emax <= -34) by (vm_compute; congruence).
    (* the product *)
    destruct (SFmul_correct D.prec D.emax D_prec_pos D_prec_lt_emax
                (D.of_float x) (D.of_int 511) (D.of_int 511)) as (Hpv & Hpn & _);
      try assumption; try reflexivity.
    { rewrite HV. setoid_replace (SF2Q (D.of_int 511)) with 511%Q by (vm_compute; reflexivity).
      rewrite Qabs_Qmult. change (Qabs 511) with 511%Q.
      assert (Qabs (SF2Q x) <= 1)%Q by (apply Qabs_Qle_condition; exact Hr).
      pose proof (Qabs_nonneg (SF2Q x)). lra. }
    fold (D.mul (D.of_float x) (D.of_int 511)) in *.
    assert (HP : (SF2Q (D.mul (D.of_float x) (D.of_int 511)) == inject_Z (511 * N) * u)%Q).
    { apply Qeq_trans with (SF2Q (D.of_float x) * SF2Q (D.of_int 511))%Q.
      - apply (nearest_exact D.prec D.emax); [|exact Hpn].
        apply in_format_eq with (inject_Z (511 * N) * u)%Q.
        + rewrite HV, HN, inject_Z_mult.
          setoid_replace (SF2Q (D.of_int 511)) with 511%Q by (vm_compute; reflexivity).
          change (inject_Z 511) with 511%Q. ring.
        + apply in_format_scaled; [reflexivity | exact Hemin |].
          change (2 ^ D.prec) with 9007199254740992. change (2 ^ 34) with 17179869184 in HNb. lia.
      - rewrite HV, HN, inject_Z_mult.
        setoid_replace (SF2Q (D.of_int 511)) with 511%Q by (vm_compute; reflexivity).
        change (inject_Z 511) with 511%Q. ring. }
    (* the sum with 512.0 *)
    destruct (SFadd_correct D.prec D.emax D_prec_pos (D.of_int 512)
                (D.mul (D.of_float x) (D.of_int 511)) (D.of_int 1) (D.of_int 1023))
      as [_ Hsn]; try assumption; try reflexivity.
    { unfold map_arg, D.add in Hsb. 
      setoid_replace (SF2Q (D.of_int 512)) with 512%Q by (vm_compute; reflexivity).
      setoid_replace (SF2Q (D.of_int 1)) with 1%Q by (vm_compute; reflexivity).
      setoid_replace (SF2Q (D.of_int 1023)) with 1023%Q by (vm_compute; reflexivity).
      rewrite HP, inject_Z_mult. change (inject_Z 511) with 511%Q.
      rewrite <- Qmult_assoc, <- HN. lra. }
    fold (D.add (D.of_int 512) (D.mul (D.of_float x) (D.of_int 511))) in Hsn.
    fold (map_arg x) in Hsn.
    assert (HYN : (Y == inject_Z (512 * 2 ^ 34 + 511 * N) * u)%Q).
    { unfold Y. rewrite HN, inject_Z_plus, !inject_Z_mult.
      change (inject_Z 512) with 512%Q. change (inject_Z 511) with 511%Q.
      setoid_replace ((512 * inject_Z (2 ^ 34) + 511 * inject_Z N) * u)%Q
        with (512 * (inject_Z (2 ^ 34) * u) + 511 * (inject_Z N * u))%Q by ring.
      rewrite Hu. ring. }
    assert (HS : (SF2Q (map_arg x) == Y)%Q).
    { apply Qeq_trans with (SF2Q (D.of_int 512) + SF2Q (D.mul (D.of_float x) (D.of_int 511)))%Q.
      - apply (nearest_exact D.prec D.emax); [|exact Hsn].
        apply in_format_eq with (inject_Z (512 * 2 ^ 34 + 511 * N) * u)%Q.
        + rewrite <- HYN. unfold Y. rewrite HP, inject_Z_mult, HN.
          setoid_replace (SF2Q (D.of_int 512)) with 512%Q by (vm_compute; reflexivity).
          change (inject_Z 511) with 511%Q. ring.
        + apply in_format_scaled; [reflexivity | exact Hemin |].
          change (2 ^ D.prec) with 9007199254740992. change (2 ^ 34) with 17179869184 in *. lia.
      - unfold Y. rewrite HP, inject_Z_mult, HN.
        setoid_replace (SF2Q (D.of_int 512)) with 512%Q by (vm_compute; reflexivity).
        change (inject_Z 511) with 511%Q. ring. }
    (* the sum with 0.5 *)
    assert (HZ : (SF2Q z == Y + (1 # 2))%Q).
    { apply Qeq_trans with (SF2Q (map_arg x) + (1 # 2))%Q; [|rewrite HS; reflexivity].
      apply (nearest_exact D.prec D.emax); [|exact Hzn].
      apply in_format_eq with (inject_Z (512 * 2 ^ 34 + 511 * N + 2 ^ 33) * u)%Q.
      - rewrite HS, HYN, (inject_Z_plus _ (2 ^ 33)).
        setoid_replace (1 # 2)%Q with (inject_Z (2 ^ 33) * u)%Q by (vm_compute; reflexivity).
        ring.
      - apply in_format_scaled; [reflexivity | exact Hemin |].
        change (2 ^ D.prec) with 9007199254740992. change (2 ^ 34) with 17179869184 in *.
        change (2 ^ 33) with 8589934592. lia. }
    exists (Qfloor (Y + (1 # 2))). split; [|split; [reflexivity|]].
    + assert (Hfl : Qfloor 1 <= Qfloor (Y + (1 # 2)))
        by (apply Qfloor_resp_le; rewrite <- HS; lra).
      exact Hfl.
    + rewrite HZ. split; [apply Qfloor_le | apply Qlt_floor].
Qed.

(** * Part V: the claims *)

(** ** Sequences of mutations of the axis value *)

Lemma apply_op_ok (x : spec_float) (o : axis_op) :
  axis_ok x = true -> op_is_int o -> axis_ok (apply_op x o) = true.
Proof.
  intros Hx Ho. destruct o as [d | ]; cbn [apply_op].
  - apply tick_value_ok; assumption.
  - apply decay_step_ok; assumption.
Qed.

Lemma axis_trace_ok (ops : list axis_op) (x : spec_float) :
  axis_ok x = true -> Forall op_is_int ops ->
  Forall (fun y => axis_ok y = true) (axis_trace ops x).
Proof.
  revert x. induction ops as [ | o ops IH]; intros x Hx Hops; cbn [axis_trace].
  - constructor.
  - inversion Hops as [ | o' ops' Ho Hops']; subst.
    pose proof (apply_op_ok x o Hx Ho) as Hx'.
    constructor; [exact Hx' | apply IH; assumption].
Qed.

(** ** The tick update, C2 *)

Lemma wrap32_is_int (z : Z) : is_int (wrap32 z).
Proof.
  unfold is_int, wrap32.
  pose proof (Z.mod_pos_bound (z + 2 ^ 31) (2 ^ 32) ltac:(lia)). lia.
Qed.

Lemma wrap32_small (z : Z) : is_int z -> wrap32 z = z.
Proof.
  unfold is_int, wrap32. intros H. rewrite Z.mod_small by lia. lia.
Qed.

Lemma wrap32_diff_nonzero (a b : Z) :
  is_int a -> is_int b -> a <> b -> wrap32 (a - b) <> 0.
Proof.
  unfold is_int, wrap32. intros Ha Hb Hab H.
  assert (Hm : (a - b + 2 ^ 31) mod 2 ^ 32 = 2 ^ 31) by lia.
  pose proof (Z.div_mod (a - b + 2 ^ 31) (2 ^ 32) ltac:(lia)) as Hd.
  rewrite Hm in Hd. lia.
Qed.

Lemma of_int_magnitude (d : Z) :
  is_int d -> d <> 0 ->
  Fvalid (F.of_int d) = true /\
  ((0 < d /\ (1 <= SF2Q (F.of_int d))%Q) \/ (d < 0 /\ (SF2Q (F.of_int d) <= - (1))%Q)).
Proof.
  intros Hd H0. unfold F.of_int, is_int in *.
  destruct (Z.lt_total 0 d) as [Hpos | [Heq | Hneg]]; [ | lia | ].
  - destruct (binary_normalize_bounds F.prec F.emax F_prec_pos d 0 false fone f2p31)
      as [H1 H2]; try reflexivity.
    + rewrite SF2Q_fone, SF2Q_f2p31. change (pow2 0) with 1%Q. rewrite Qmult_1_r.
      change 1%Q with (inject_Z 1). rewrite <- !Zle_Qle. lia.
    + split; [assumption|]. left. rewrite SF2Q_fone in H2. split; [assumption | apply H2].
  - destruct (binary_normalize_bounds F.prec F.emax F_prec_pos d 0 false (SFopp f2p31) fmone)
      as [H1 H2]; try reflexivity.
    + rewrite SF2Q_fmone, SF2Q_opp, SF2Q_f2p31. change (pow2 0) with 1%Q. rewrite Qmult_1_r.
      change (- (1))%Q with (inject_Z (-1)). rewrite <- inject_Z_opp, <- !Zle_Qle. lia.
    + split; [assumption|]. right. rewrite SF2Q_fmone in H2. split; [assumption | apply H2].
Qed.

Lemma tick_product_finite (d : Z) :
  is_int d -> d <> 0 ->
  exists s m e, F.mul (F.of_int d) incrementStep = S754_finite s m e.
Proof.
  intros Hd H0. destruct (of_int_magnitude d Hd H0) as [Hv Hmag].
  destruct (of_int_bounds d Hd) as [_ Hb].
  pose proof SF2Q_incrementStep as [Hc0 Hc1].
  destruct (SFmul_correct F.prec F.emax F_prec_pos F_prec_lt_emax
              (F.of_int d) incrementStep f2p31) as (H1 & H2 & _);
    try assumption; try reflexivity.
  { rewrite SF2Q_f2p31, Qabs_Qmult, (Qabs_pos (SF2Q incrementStep)) by lra.
    pose proof (Qabs_nonneg (SF2Q (F.of_int d))). nra. }
  fold (F.mul (F.of_int d) incrementStep) in *.
  assert (Hnz : ~ (SF2Q (F.mul (F.of_int d) incrementStep) == 0)%Q).
  { destruct Hmag as [[_ Hm] | [_ Hm]].
    - assert (SF2Q incrementStep <= SF2Q (F.mul (F.of_int d) incrementStep))%Q.
      { apply (nearest_ge F.prec F.emax _ _ _ H2).
        - apply (valid_fin_in_format F.prec F.emax incrementStep). reflexivity.
        - nra. }
      lra.
    - assert (SF2Q (F.mul (F.of_int d) incrementStep) <= SF2Q (SFopp incrementStep))%Q.
      { apply (nearest_le F.prec F.emax _ _ _ H2).
        - apply (valid_fin_in_format F.prec F.emax (SFopp incrementStep)). reflexivity.
        - rewrite SF2Q_opp. nra. }
      rewrite SF2Q_opp in *. lra. }
  destruct (F.mul (F.of_int d) incrementStep) as [s | s | | s m e]; try discriminate H1.
  - exfalso. apply Hnz. reflexivity.
  - exists s, m, e. reflexivity.
Qed.

(** C2.  A pass of [loop] that reads a new encoder count sets the axis
    value to [constrain(x - delta * incrementStep, -1.0, 1.0)], with
    the arithmetic of [float], and always asks for an update of the
    sink; from rest the value is [constrain(-(delta * incrementStep), -1.0, 1.0)]. *)
Theorem C2_tick_update (st : state) (enc : Z) :
  axis_ok (joystickXFloat st) = true ->
  is_int (lastEncoder1Position st) -> is_int enc ->
  enc <> lastEncoder1Position st ->
  let v := joystickXFloat st in
  let delta := wrap32 (enc - lastEncoder1Position st) in
  let v' := constrain (F.sub v (F.mul (F.of_int delta) incrementStep)) fmone fone in
  delta <> 0 /\
  read_encoder enc st =
    ({| lastEncoder1Position := enc; joystickXFloat := v'; button := button st |},
     true, [Serial_enc delta v']) /\
  (v = fzero ->
   v' = constrain (SFopp (F.mul (F.of_int delta) incrementStep)) fmone fone).
Proof.
  intros Hx Hl He Hne v delta v'.
  assert (Hd0 : delta <> 0) by (apply wrap32_diff_nonzero; assumption).
  assert (Hdi : is_int delta) by apply wrap32_is_int.
  split; [exact Hd0 | split].
  - unfold read_encoder. destruct (Z.eqb_spec enc (lastEncoder1Position st)) as [E | _]; [contradiction|].
    cbn [negb]. fold delta. rewrite (tick_value_constrain _ _ Hx Hdi). reflexivity.
  - intros Hv. unfold v'. rewrite Hv.
    destruct (tick_product_finite delta Hdi Hd0) as (s & m & e & ->). reflexivity.
Qed.

Lemma C2_witness :
  axis_ok (joystickXFloat saturated_state) = true /\
  is_int (lastEncoder1Position saturated_state) /\ is_int (-1) /\
  -1 <> lastEncoder1Position saturated_state /\
  read_encoder (-1) saturated_state =
    ({| lastEncoder1Position := -1; joystickXFloat := fone;
        button := button saturated_state |}, true, [Serial_enc (-1) fone]).
Proof.
  assert (H1 : axis_ok (joystickXFloat saturated_state) = true) by reflexivity.
  assert (H2 : is_int (lastEncoder1Position saturated_state)) by (cbn; unfold is_int; lia).
  assert (H3 : is_int (-1)) by (unfold is_int; lia).
  assert (H4 : -1 <> lastEncoder1Position saturated_state) by (cbn; lia).
  split; [exact H1 | split; [exact H2 | split; [exact H3 | split; [exact H4 |]]]].
  destruct (C2_tick_update saturated_state (-1) H1 H2 H3 H4) as (_ & E & _).
  rewrite E. vm_compute. reflexivity.
Defined.

(** ** The decay step, C3 *)

(** C3.  The decay block leaves the state alone when [x == 0.0];
    otherwise it stores [x * decayRate], or 0.0 when the absolute value
    of that product is below [zeroThreshold], and reports a change
    exactly when [x] was nonzero and the stored value differs from it.
    The product is the [float] nearest to the exact product. *)
Theorem C3_decay_step (st : state) :
  let v := joystickXFloat st in
  let p := F.mul v decayRate in
  let v' := if flt (arduino_abs p) zeroThreshold then fzero else p in
  let st' := {| lastEncoder1Position := lastEncoder1Position st;
                joystickXFloat := v'; button := button st |} in
  (fne (D.of_float v) dzero = true ->
   auto_center st = (st', fne v' v, if fne v' v then [Serial_decay v'] else [])) /\
  (fne (D.of_float v) dzero = false -> auto_center st = (st, false, [])) /\
  (snd (fst (auto_center st)) = true <->
   fne (D.of_float v) dzero = true /\
   fne (joystickXFloat (fst (fst (auto_center st)))) v = true) /\
  (axis_ok v = true ->
   nearest F.prec F.emax (SF2Q v * SF2Q decayRate) (SF2Q p)).
Proof.
  intros v p v' st'. unfold auto_center. fold v.
  unfold decay_value. fold p. fold v'. fold st'.
  split; [|split; [|split]].
  - intros ->. destruct (fne v' v); reflexivity.
  - intros ->. reflexivity.
  - destruct (fne (D.of_float v) dzero).
    + destruct (fne v' v) eqn:E; cbn [fst snd];
        change (joystickXFloat st') with v'; rewrite E; intuition congruence.
    + cbn [fst snd]. intuition congruence.
  - intros H. apply (decay_product v H).
Qed.

(** ** One pass of [loop] *)

Lemma read_encoder_state (enc : Z) (st : state) :
  fst (fst (read_encoder enc st)) =
  {| lastEncoder1Position := enc; joystickXFloat := after_encoder enc st;
     button := button st |}.
Proof.
  unfold read_encoder, after_encoder.
  destruct (Z.eqb_spec enc (lastEncoder1Position st)) as [-> | _]; cbn [negb fst].
  - destruct st; reflexivity.
  - reflexivity.
Qed.

Lemma auto_center_state (st : state) :
  fst (fst (auto_center st)) =
  {| lastEncoder1Position := lastEncoder1Position st;
     joystickXFloat := decay_step (joystickXFloat st); button := button st |}.
Proof.
  unfold auto_center, decay_step. destruct (fne (D.of_float (joystickXFloat st)) dzero).
  - destruct (fne (decay_value (joystickXFloat st)) (joystickXFloat st)); reflexivity.
  - destruct st; reflexivity.
Qed.

Lemma loop_state (i : input) (st : state) :
  fst (loop i st) =
  {| lastEncoder1Position := encoder1_read i;
     joystickXFloat := decay_step (after_encoder (encoder1_read i) st);
     button := Bounce_update (button_level i) (button st) |}.
Proof.
  unfold loop.
  set (st0 := {| lastEncoder1Position := lastEncoder1Position st;
                 joystickXFloat := joystickXFloat st;
                 button := Bounce_update (button_level i) (button st) |}).
  pose proof (read_encoder_state (encoder1_read i) st0) as H1.
  destruct (read_encoder (encoder1_read i) st0) as [[st1 u1] ev1]. cbn [fst] in H1.
  pose proof (auto_center_state st1) as H2.
  destruct (auto_center st1) as [[st2 u2] ev2]. cbn [fst] in *.
  rewrite H2, H1. reflexivity.
Qed.

Lemma loop_events (i : input) (st : state) :
  exists ev upd,
    snd (loop i st) =
      ev ++ update_hid upd (fst (loop i st)) ++ button_handling (fst (loop i st)) ++ [Delay 5]
    /\ Forall (fun e => is_key e = false /\ is_joystick e = false
                        /\ match e with Serial_hid _ _ _ => False | _ => True end) ev
    /\ (encoder1_read i = lastEncoder1Position st ->
        fne (D.of_float (joystickXFloat st)) dzero = false -> upd = false).
Proof.
  unfold loop.
  set (st0 := {| lastEncoder1Position := lastEncoder1Position st;
                 joystickXFloat := joystickXFloat st;
                 button := Bounce_update (button_level i) (button st) |}).
  assert (H1 : Forall (fun e => is_key e = false /\ is_joystick e = false
                        /\ match e with Serial_hid _ _ _ => False | _ => True end)
                      (snd (read_encoder (encoder1_read i) st0))).
  { unfold read_encoder. destruct (negb _); cbn [snd]; repeat constructor. }
  assert (H1' : encoder1_read i = lastEncoder1Position st ->
                read_encoder (encoder1_read i) st0 = (st0, false, [])).
  { intros E. unfold read_encoder. cbn [lastEncoder1Position st0].
    rewrite E, Z.eqb_refl. reflexivity. }
  destruct (read_encoder (encoder1_read i) st0) as [[st1 u1] ev1]. cbn [snd] in H1.
  assert (H2 : Forall (fun e => is_key e = false /\ is_joystick e = false
                        /\ match e with Serial_hid _ _ _ => False | _ => True end)
                      (snd (auto_center st1))).
  { unfold auto_center. destruct (fne _ _); [destruct (fne _ _)|]; cbn [snd]; repeat constructor. }
  assert (H2' : fne (D.of_float (joystickXFloat st1)) dzero = false ->
                auto_center st1 = (st1, false, [])).
  { intros E. unfold auto_center. rewrite E. reflexivity. }
  destruct (auto_center st1) as [[st2 u2] ev2]. cbn [fst snd] in *.
  exists (ev1 ++ ev2), (u1 || u2). split; [|split].
  - rewrite <- app_assoc. reflexivity.
  - apply Forall_app. split; assumption.
  - intros E1 E2. specialize (H1' E1). inversion H1'; subst.
    specialize (H2' E2). inversion H2'; subst. reflexivity.
Qed.

Lemma after_encoder_ok (enc : Z) (st : state) :
  axis_ok (joystickXFloat st) = true -> axis_ok (after_encoder enc st) = true.
Proof.
  intros Hx. unfold after_encoder. destruct (negb _); [|exact Hx].
  apply tick_value_ok; [exact Hx | apply wrap32_is_int].
Qed.

Lemma loop_axis_ok (i : input) (st : state) :
  axis_ok (joystickXFloat st) = true ->
  axis_ok (joystickXFloat (fst (loop i st))) = true.
Proof.
  intros Hst. rewrite loop_state. cbn [joystickXFloat].
  apply decay_step_ok, after_encoder_ok; assumption.
Qed.

Lemma run_axis_ok (ins : list input) (st : state) :
  axis_ok (joystickXFloat st) = true ->
  axis_ok (joystickXFloat (fst (run ins st))) = true.
Proof.
  revert st. induction ins as [ | i ins IH]; intros st Hst; cbn [run]; [exact Hst|].
  pose proof (loop_axis_ok i st Hst) as Hst'.
  destruct (loop i st) as [st' ev]. cbn [fst] in Hst'.
  specialize (IH st' Hst').
  destruct (run ins st') as [st'' ev']. exact IH.
Qed.

Lemma filter_none {A : Type} (f : A -> bool) (l : list A) :
  Forall (fun x => f x = false) l -> filter f l = [].
Proof.
  induction 1 as [ | x l Hx _ IH]; cbn [filter]; [reflexivity|].
  rewrite Hx. exact IH.
Qed.

Lemma button_handling_joystick (st : state) : filter is_joystick (button_handling st) = [].
Proof.
  unfold button_handling. destruct (fallingEdge _), (risingEdge _); reflexivity.
Qed.

Lemma loop_frames (i : input) (st : state) :
  filter is_joystick (snd (loop i st)) = [] \/
  filter is_joystick (snd (loop i st)) =
    [Joystick_X (map_x (joystickXFloat (fst (loop i st)))); Joystick_Y 512; Joystick_send_now].
Proof.
  destruct (loop_events i st) as (ev & upd & -> & Hev & _).
  rewrite !filter_app, button_handling_joystick.
  rewrite (filter_none is_joystick ev)
    by (apply Forall_impl with (2 := Hev); intros e (_ & H & _); exact H).
  destruct upd; cbn; [right | left]; reflexivity.
Qed.

(** ** The axis invariant, C1 *)

Lemma loop_events_axis_ok (i : input) (st : state) :
  axis_ok (joystickXFloat st) = true -> Forall event_axis_ok (snd (loop i st)).
Proof.
  intros Hst. pose proof (loop_axis_ok i st Hst) as Hfin. revert Hfin.
  unfold loop.
  set (st0 := {| lastEncoder1Position := lastEncoder1Position st;
                 joystickXFloat := joystickXFloat st;
                 button := Bounce_update (button_level i) (button st) |}).
  assert (H1 : axis_ok (joystickXFloat (fst (fst (read_encoder (encoder1_read i) st0)))) = true
               /\ Forall event_axis_ok (snd (read_encoder (encoder1_read i) st0))).
  { unfold read_encoder. destruct (negb _); cbn [fst snd joystickXFloat].
    - assert (axis_ok (tick_value (joystickXFloat st0)
                         (wrap32 (encoder1_read i - lastEncoder1Position st0))) = true)
        by (apply tick_value_ok; [exact Hst | apply wrap32_is_int]).
      split; [assumption | constructor; [assumption | constructor]].
    - split; [exact Hst | constructor]. }
  destruct (read_encoder (encoder1_read i) st0) as [[st1 u1] ev1].
  cbn [fst snd] in H1. destruct H1 as [Hst1 Hev1].
  assert (H2 : Forall event_axis_ok (snd (auto_center st1))).
  { pose proof (decay_step_ok _ Hst1) as Hd. unfold decay_step in Hd.
    unfold auto_center. destruct (fne (D.of_float (joystickXFloat st1)) dzero); [|constructor].
    destruct (fne _ _); cbn [snd]; [|constructor].
    constructor; [exact Hd | constructor]. }
  destruct (auto_center st1) as [[st2 u2] ev2]. cbn [fst snd] in *.
  intros Hfin.
  apply Forall_app; split; [exact Hev1|].
  apply Forall_app; split; [exact H2|].
  apply Forall_app; split; [|apply Forall_app; split; [|repeat constructor]].
  - destruct (u1 || u2); cbn [update_hid]; repeat constructor. exact Hfin.
  - unfold button_handling.
    destruct (fallingEdge (button st2)), (risingEdge (button st2)); repeat constructor.
Qed.

Lemma run_events_axis_ok (ins : list input) (st : state) :
  axis_ok (joystickXFloat st) = true -> Forall event_axis_ok (snd (run ins st)).
Proof.
  revert st. induction ins as [ | i ins IH]; intros st Hst; cbn [run]; [constructor|].
  pose proof (loop_axis_ok i st Hst) as Hst'.
  pose proof (loop_events_axis_ok i st Hst) as Hev.
  destruct (loop i st) as [st' ev]. cbn [fst snd] in *.
  specialize (IH st' Hst'). destruct (run ins st') as [st'' ev']. cbn [snd] in *.
  apply Forall_app. split; assumption.
Qed.

(** C1.  From 0.0, whatever the sequence of tick updates (with [int]
    deltas) and decay steps, the axis value after every one of them is a
    finite [float] with [-1.0 <= x <= 1.0]; and so is every axis value a
    run of [loop] from [setup] prints or ends with, whatever it reads. *)
Theorem C1_axis_always_in_range (ops : list axis_op) (ins : list input) :
  Forall op_is_int ops ->
  Forall (fun x => axis_ok x = true /\ (- (1) <= SF2Q x <= 1)%Q) (axis_trace ops fzero) /\
  Forall event_axis_ok (snd (run ins (fst setup))) /\
  axis_ok (joystickXFloat (fst (run ins (fst setup)))) = true.
Proof.
  intros Hops. split; [|split].
  - pose proof (axis_trace_ok ops fzero eq_refl Hops) as H.
    apply Forall_impl with (2 := H). intros x Hx. split; [exact Hx|].
    apply axis_ok_spec in Hx as [_ Hx]. exact Hx.
  - apply run_events_axis_ok. reflexivity.
  - apply run_axis_ok. reflexivity.
Qed.

Lemma C1_witness :
  Forall op_is_int [Tick 30; Decay; Tick (-2); Decay; Decay; Tick (-100)] /\
  Forall (fun x => axis_ok x = true /\ (- (1) <= SF2Q x <= 1)%Q)
         (axis_trace [Tick 30; Decay; Tick (-2); Decay; Decay; Tick (-100)] fzero).
Proof.
  assert (H : Forall op_is_int [Tick 30; Decay; Tick (-2); Decay; Decay; Tick (-100)]).
  { repeat constructor; cbn; unfold is_int; lia. }
  split; [exact H | apply (C1_axis_always_in_range _ [] H)].
Defined.

(** ** The mapping, C4 *)

(** C4.  Whenever a pass of [loop] sends a frame, its X is
    [constrain(round(512.0 + x * 511.0), 0, 1023)] for the axis value
    [x] the pass ends with, and its Y is 512.  With [x] in [-1.0, 1.0]
    the [double] arithmetic of the mapping loses nothing: X is the
    clamp to [0, 1023] of the integer nearest to the exact
    [512 + 511 * x] (halves up).  0.0 maps to 512, 1.0 to 1023 and
    -1.0 to 1. *)
Theorem C4_mapped_output (i : input) (st : state) :
  axis_ok (joystickXFloat st) = true ->
  let x := joystickXFloat (fst (loop i st)) in
  let xVal :=
    constrain_int
      (arduino_round (D.add (D.of_int 512) (D.mul (D.of_float x) (D.of_int 511))))
      0 1023 in
  (filter is_joystick (snd (loop i st)) = [] \/
   filter is_joystick (snd (loop i st)) = [Joystick_X xVal; Joystick_Y 512; Joystick_send_now])
  /\ xVal = Z.max 0 (Z.min 1023 (Qfloor (512 + 511 * SF2Q x + (1 # 2))))
  /\ map_x fzero = 512 /\ map_x fone = 1023 /\ map_x fmone = 1.
Proof.
  intros Hst x xVal. split; [apply loop_frames|]. split.
  - pose proof (loop_axis_ok i st Hst) as Hx. fold x in Hx.
    change xVal with (map_x x).
    destruct (map_x_unclamped x Hx) as [Hr Hm]. rewrite <- Hm in Hr.
    rewrite <- (map_x_exact x Hx). lia.
  - repeat split; vm_compute; reflexivity.
Qed.

Lemma C4_witness :
  axis_ok (joystickXFloat (fst setup)) = true /\
  filter is_joystick (snd (loop (mkInput (-2) true) (fst setup)))
  = [Joystick_X 553; Joystick_Y 512; Joystick_send_now].
Proof.
  split; [reflexivity|].
  destruct (C4_mapped_output (mkInput (-2) true) (fst setup) eq_refl) as ([H | H] & _).
  - vm_compute in H. discriminate H.
  - rewrite H. vm_compute. reflexivity.
Defined.

(** ** The button, C6 *)

Lemma loop_button_level (i : input) (st : state) :
  level (button (fst (loop i st))) = button_level i.
Proof. rewrite loop_state. reflexivity. Qed.

Lemma loop_keys (i : input) (st : state) :
  filter is_key (snd (loop i st)) =
  (if level (button st) && negb (button_level i) then [Keyboard_press] else [])
  ++ (if negb (level (button st)) && button_level i then [Keyboard_release] else []).
Proof.
  destruct (loop_events i st) as (ev & upd & -> & Hev & _).
  rewrite !filter_app.
  rewrite (filter_none is_key ev)
    by (apply Forall_impl with (2 := Hev); intros e (H & _); exact H).
  assert (Hh : filter is_key (update_hid upd (fst (loop i st))) = [])
    by (destruct upd; reflexivity).
  rewrite Hh, loop_state. cbn [app filter is_key].
  unfold button_handling, fallingEdge, risingEdge, Bounce_update.
  cbn [button level stateChanged].
  destruct (level (button st)), (button_level i); reflexivity.
Qed.

Lemma run_keys (ins : list input) (st : state) :
  filter is_key (snd (run ins st)) = key_edges (level (button st)) (map button_level ins).
Proof.
  revert st. induction ins as [ | i ins IH]; intros st; cbn [run map key_edges]; [reflexivity|].
  pose proof (loop_keys i st) as Hk. pose proof (loop_button_level i st) as Hl.
  destruct (loop i st) as [st' ev]. cbn [fst snd] in Hk, Hl.
  specialize (IH st'). destruct (run ins st') as [st'' ev']. cbn [snd] in *.
  rewrite filter_app, Hk, IH, Hl, <- app_assoc. reflexivity.
Qed.

Lemma key_edges_held (lvl : bool) (n : nat) (levels : list bool) :
  key_edges lvl (repeat lvl n ++ levels) = key_edges lvl levels.
Proof.
  induction n as [ | n IH]; cbn [repeat app key_edges]; [reflexivity|].
  rewrite IH. destruct lvl; reflexivity.
Qed.

(** C6.  Whatever the encoder does meanwhile, a run of [loop] over a
    debounced press-then-release (released for [a] passes, pressed for
    [S b] passes, released again for [S c] passes) sends exactly one
    key-down followed by exactly one key-up. *)
Theorem C6_press_release (ins : list input) (st : state) (a b c : nat) :
  level (button st) = true ->
  map button_level ins = repeat true a ++ repeat false (S b) ++ repeat true (S c) ->
  filter is_key (snd (run ins st)) = [Keyboard_press; Keyboard_release].
Proof.
  intros Hl Hlv. rewrite run_keys, Hl, Hlv.
  rewrite key_edges_held. cbn [repeat app key_edges andb negb].
  rewrite key_edges_held. cbn [key_edges andb negb app].
  rewrite <- (app_nil_r (repeat true c)), key_edges_held. reflexivity.
Qed.

Lemma C6_witness :
  level (button (fst setup)) = true /\
  map button_level press_release_inputs
    = repeat true 1 ++ repeat false (S 2) ++ repeat true (S 0) /\
  filter is_key (snd (run press_release_inputs (fst setup)))
    = [Keyboard_press; Keyboard_release].
Proof.
  split; [reflexivity | split; [reflexivity|]].
  apply (C6_press_release press_release_inputs (fst setup) 1 2 0); reflexivity.
Defined.

(** ** The idle cycle, C7 *)

(** C7.  A pass of [loop] that reads the encoder count it already has,
    with the axis value at 0.0, sends no frame (no [Joystick.X], no
    [Joystick.Y], no [send_now]) and leaves the axis value and the
    stored count as they were. *)
Theorem C7_idle_cycle (i : input) (st : state) :
  encoder1_read i = lastEncoder1Position st ->
  fne (D.of_float (joystickXFloat st)) dzero = false ->
  filter is_joystick (snd (loop i st)) = [] /\
  Forall (fun e => match e with Serial_hid _ _ _ => False | _ => True end) (snd (loop i st)) /\
  joystickXFloat (fst (loop i st)) = joystickXFloat st /\
  lastEncoder1Position (fst (loop i st)) = lastEncoder1Position st.
Proof.
  intros He Hz.
  destruct (loop_events i st) as (ev & upd & Hev & Hf & Hupd).
  specialize (Hupd He Hz). subst upd. rewrite Hev. cbn [update_hid app].
  split; [|split; [|split]].
  - rewrite !filter_app, button_handling_joystick.
    rewrite (filter_none is_joystick ev)
      by (apply Forall_impl with (2 := Hf); intros e (_ & H & _); exact H).
    reflexivity.
  - apply Forall_app. split.
    + apply Forall_impl with (2 := Hf). intros e (_ & _ & H). exact H.
    + apply Forall_app. split; [|repeat constructor].
      unfold button_handling. destruct (fallingEdge _), (risingEdge _); repeat constructor.
  - rewrite loop_state. cbn [joystickXFloat]. unfold after_encoder, decay_step.
    rewrite He, Z.eqb_refl. cbn [negb]. rewrite Hz. reflexivity.
  - rewrite loop_state. exact He.
Qed.

Lemma C7_witness :
  encoder1_read (mkInput 0 true) = lastEncoder1Position (fst setup) /\
  fne (D.of_float (joystickXFloat (fst setup))) dzero = false /\
  filter is_joystick (snd (loop (mkInput 0 true) (fst setup))) = [] /\
  joystickXFloat (fst (loop (mkInput 0 true) (fst setup))) = joystickXFloat (fst setup).
Proof.
  split; [reflexivity | split; [reflexivity|]].
  destruct (C7_idle_cycle (mkInput 0 true) (fst setup) eq_refl eq_refl) as (H1 & _ & H2 & _).
  split; assumption.
Defined.

(** ** The end-to-end scenario, C8 *)

(** C8.  From 0.0 a tick delta of -2 gives the [float] nearest to
    0.10; one decay of it gives a [float] within [10^-8] of 0.08; that
    value maps to 553, which is what the pass of [loop] sends. *)
Theorem C8_scenario :
  let x1 := tick_value fzero (-2) in
  let x2 := decay_step x1 in
  x1 = F.of_double (D.lit 10 100) /\
  (Qabs (SF2Q x1 - (10 # 100)) < 1 # 100000000)%Q /\
  x2 = S754_finite false 10737419 (-27) /\
  (Qabs (SF2Q x2 - (8 # 100)) < 1 # 100000000)%Q /\
  map_x x2 = 553 /\
  joystickXFloat (fst (loop (mkInput (-2) true) (fst setup))) = x2 /\
  filter is_joystick (snd (loop (mkInput (-2) true) (fst setup)))
    = [Joystick_X 553; Joystick_Y 512; Joystick_send_now].
Proof. cbv zeta. repeat split; vm_compute; reflexivity. Qed.

(** ** The mapped value needs no clamp, C9 *)

(** C9.  For an axis value in [-1.0, 1.0], [round(512.0 + x * 511.0)]
    is already in [1, 1023]: the clamp to [0, 1023] returns it
    unchanged, and 0 is never sent. *)
Theorem C9_mapping_never_saturates (x : spec_float) :
  axis_ok x = true ->
  let r := arduino_round (D.add (D.of_int 512) (D.mul (D.of_float x) (D.of_int 511))) in
  1 <= r <= 1023 /\ constrain_int r 0 1023 = r /\ map_x x = r /\ map_x x <> 0.
Proof.
  intros Hx r. destruct (map_x_unclamped x Hx) as [Hr Hm].
  fold (map_arg x) in r. fold r in Hr, Hm.
  split; [exact Hr | split; [|split]].
  - unfold constrain_int. destruct (Z.ltb_spec r 0); [lia|].
    destruct (Z.gtb_spec r 1023); [lia | reflexivity].
  - exact Hm.
  - lia.
Qed.

Lemma C9_witness :
  axis_ok fmone = true /\
  1 <= arduino_round (D.add (D.of_int 512) (D.mul (D.of_float fmone) (D.of_int 511))) <= 1023.
Proof.
  split; [reflexivity|].
  destruct (C9_mapping_never_saturates fmone eq_refl) as [H _]. exact H.
Defined.

(** ** The deadband, C10 *)

Lemma decay_step_deadband (x : spec_float) :
  axis_ok x = true -> deadband_ok (decay_step x) = true.
Proof.
  intros Hx. unfold deadband_ok. apply orb_true_iff.
  destruct (decay_product x Hx) as (Hp & _ & _). cbv zeta in Hp.
  destruct (decay_step_cases x Hx) as [[Hz ->] | [(_ & _ & ->) | (_ & Hs & ->)]].
  - left. apply negb_true_iff, fne_zero_spec; [apply axis_ok_valid|]; assumption.
  - left. reflexivity.
  - right. unfold fge.
    destruct (arduino_abs_spec (F.mul x decayRate) (axis_ok_valid _ Hp)) as [Hav HaV].
    apply (SFleb_spec F.prec F.emax F_prec_pos); [reflexivity | assumption|].
    rewrite HaV. exact Hs.
Qed.

Lemma loop_deadband (i : input) (st : state) :
  axis_ok (joystickXFloat st) = true ->
  deadband_ok (joystickXFloat (fst (loop i st))) = true /\
  Forall hid_event_ok (snd (loop i st)).
Proof.
  intros Hst.
  assert (Hd : deadband_ok (joystickXFloat (fst (loop i st))) = true).
  { rewrite loop_state. cbn [joystickXFloat].
    apply decay_step_deadband, after_encoder_ok; assumption. }
  split; [exact Hd|].
  pose proof (loop_axis_ok i st Hst) as Hok.
  destruct (loop_events i st) as (ev & upd & -> & Hev & _).
  apply Forall_app. split.
  - apply Forall_impl with (2 := Hev). intros e (_ & Hj & H).
    destruct e; cbn in *; try discriminate; try exact I. contradiction.
  - apply Forall_app. split; [|apply Forall_app; split].
    + destruct upd; cbn [update_hid]; [|constructor].
      destruct (map_x_unclamped _ Hok) as [Hr Hm].
      constructor; [cbn [hid_event_ok]; rewrite Hm; exact Hr|].
      constructor; [exact I|]. constructor; [exact I|].
      constructor; [split; [exact Hd | reflexivity] | constructor].
    + unfold button_handling. destruct (fallingEdge _), (risingEdge _); repeat constructor.
    + repeat constructor.
Qed.

(** C10.  After every pass of [loop], from a state within the axis
    invariant, the axis value satisfies
    [x == 0.0 || abs(x) >= zeroThreshold]; so does the value behind
    every frame that is sent, and the X of every frame is in [1, 1023]. *)
Theorem C10_deadband (ins : list input) (i : input) (st : state) :
  axis_ok (joystickXFloat st) = true ->
  deadband_ok (joystickXFloat (fst (run (ins ++ [i]) st))) = true /\
  Forall hid_event_ok (snd (run (ins ++ [i]) st)).
Proof.
  revert st. induction ins as [ | j ins IH]; intros st Hst.
  - cbn [app run].
    pose proof (loop_deadband i st Hst) as [H1 H2].
    destruct (loop i st) as [st' ev]. cbn [fst snd] in *.
    split; [exact H1|]. rewrite app_nil_r. exact H2.
  - cbn [app run].
    pose proof (loop_deadband j st Hst) as [_ H2].
    pose proof (loop_axis_ok j st Hst) as Hst'.
    destruct (loop j st) as [st' ev]. cbn [fst snd] in *.
    specialize (IH st' Hst').
    destruct (run (ins ++ [i]) st') as [st'' ev']. cbn [fst snd] in *.
    destruct IH as [IH1 IH2]. split; [exact IH1|].
    apply Forall_app. split; assumption.
Qed.

Lemma C10_witness :
  axis_ok (joystickXFloat (fst setup)) = true /\
  deadband_ok (joystickXFloat
    (fst (run ([mkInput (-2) true; mkInput (-2) true] ++ [mkInput 5 false]) (fst setup)))) = true.
Proof.
  split; [reflexivity|].
  destruct (C10_deadband [mkInput (-2) true; mkInput (-2) true] (mkInput 5 false)
              (fst setup) eq_refl) as [H1 _].
  exact H1.
Defined.

(** ** Convergence of the decay, C5 *)

Lemma decay_step_sign (x : spec_float) :
  axis_ok x = true ->
  ((0 <= SF2Q x)%Q -> (0 <= SF2Q (decay_step x) <= SF2Q x)%Q) /\
  ((SF2Q x <= 0)%Q -> (SF2Q x <= SF2Q (decay_step x) <= 0)%Q).
Proof.
  intros Hx. destruct (decay_product x Hx) as (Hp & Hn & _). cbv zeta in *.
  pose proof SF2Q_decayRate as [Hc0 Hc1].
  pose proof (valid_fin_in_format F.prec F.emax x (axis_ok_valid x Hx)) as Hfx.
  assert (Hpos : (0 <= SF2Q x)%Q -> (0 <= SF2Q (F.mul x decayRate) <= SF2Q x)%Q).
  { intros H0. split.
    - apply (nearest_ge F.prec F.emax _ _ 0 Hn); [apply in_format_0 | nra].
    - apply (nearest_le F.prec F.emax _ _ _ Hn); [exact Hfx | nra]. }
  assert (Hneg : (SF2Q x <= 0)%Q -> (SF2Q x <= SF2Q (F.mul x decayRate) <= 0)%Q).
  { intros H0. split.
    - apply (nearest_ge F.prec F.emax _ _ _ Hn); [exact Hfx | nra].
    - apply (nearest_le F.prec F.emax _ _ 0 Hn); [apply in_format_0 | nra]. }
  destruct (decay_step_cases x Hx) as [[_ ->] | [(_ & _ & ->) | (_ & _ & ->)]];
    change (SF2Q fzero) with 0%Q; split; intros H0;
    try (specialize (Hpos H0)); try (specialize (Hneg H0)); lra.
Qed.

Lemma decay_iter_sign (k : nat) (x : spec_float) :
  axis_ok x = true ->
  ((0 <= SF2Q x)%Q -> (0 <= SF2Q (decay_iter k x) <= SF2Q x)%Q) /\
  ((SF2Q x <= 0)%Q -> (SF2Q x <= SF2Q (decay_iter k x) <= 0)%Q).
Proof.
  intros Hx. induction k as [ | k IH].
  - cbn. split; intros; lra.
  - rewrite decay_iter_S.
    destruct (decay_step_sign (decay_iter k x) (decay_iter_ok k x Hx)) as [H1 H2].
    destruct IH as [IH1 IH2]. split; intros H0.
    + specialize (IH1 H0). specialize (H1 ltac:(lra)). lra.
    + specialize (IH2 H0). specialize (H2 ltac:(lra)). lra.
Qed.

(** ** The bound of the spec, with its logarithms *)

Lemma ln_45_neg : (ln (4 / 5) < 0)%R.
Proof.
  rewrite <- ln_1. apply ln_increasing; lra.
Qed.

Lemma ln_pow_nat (x : R) (n : nat) : (0 < x)%R -> (ln (x ^ n) = INR n * ln x)%R.
Proof.
  intros Hx. induction n as [ | n IH].
  - cbn. rewrite ln_1. ring.
  - rewrite S_INR. cbn [pow]. rewrite ln_mult, IH; [ring | assumption | apply pow_lt; assumption].
Qed.

(** For a natural number [n], [n >= ceil(log(0.01/a) / log(0.8))] is
    [log(0.01/a) / log(0.8) <= n], and that is [a * 0.8^n <= 0.01]. *)
Lemma log_bound_iff (a : R) (n : nat) :
  (0 < a)%R ->
  ((ln (1 / 100 / a) / ln (4 / 5) <= INR n)%R <-> (a * (4 / 5) ^ n <= 1 / 100)%R).
Proof.
  intros Ha. pose proof ln_45_neg as Hl.
  assert (Hp : (0 < (4 / 5) ^ n)%R) by (apply pow_lt; lra).
  assert (Hq : (0 < 1 / 100 / a)%R) by (apply Rdiv_lt_0_compat; lra).
  pose proof (ln_pow_nat (4 / 5) n ltac:(lra)) as Hpow.
  split; intros H.
  - assert (Hln : (ln ((4 / 5) ^ n) <= ln (1 / 100 / a))%R).
    { rewrite Hpow.
      replace (ln (1 / 100 / a)) with ((ln (1 / 100 / a) / ln (4 / 5)) * ln (4 / 5))%R
        by (field; lra).
      set (L := (ln (1 / 100 / a) / ln (4 / 5))%R) in *.
      set (c := ln (4 / 5)) in *. nra. }
    assert (Hle : ((4 / 5) ^ n <= 1 / 100 / a)%R).
    { destruct (Rle_or_lt ((4 / 5) ^ n) (1 / 100 / a)) as [|Hlt]; [assumption|].
      apply ln_increasing in Hlt; [lra | assumption]. }
    apply (Rmult_le_compat_l a) in Hle; [|lra].
    replace (a * (1 / 100 / a))%R with (1 / 100)%R in Hle by (field; lra). exact Hle.
  - assert (Hle : ((4 / 5) ^ n <= 1 / 100 / a)%R).
    { apply (Rmult_le_reg_l a); [assumption|].
      replace (a * (1 / 100 / a))%R with (1 / 100)%R by (field; lra). exact H. }
    assert (Hln : (ln ((4 / 5) ^ n) <= ln (1 / 100 / a))%R).
    { destruct Hle as [Hlt | Heq]; [left; apply ln_increasing; assumption | right; rewrite Heq; reflexivity]. }
    rewrite Hpow in Hln.
    apply (Rmult_le_reg_r (- ln (4 / 5))); [lra|].
    replace (ln (1 / 100 / a) / ln (4 / 5) * - ln (4 / 5))%R with (- ln (1 / 100 / a))%R
      by (field; lra).
    lra.
Qed.

Lemma Q2R_pow_45 (n : nat) : Q2R ((4 # 5) ^ Z.of_nat n) = ((4 / 5) ^ n)%R.
Proof.
  induction n as [ | n IH].
  - cbn. unfold Q2R. cbn. lra.
  - rewrite Nat2Z.inj_succ, <- Z.add_1_r.
    rewrite (Qeq_eqR _ _ (Qpower_plus (4 # 5) (Z.of_nat n) 1 ltac:(discriminate))).
    rewrite Q2R_mult, IH. cbn [pow]. unfold Q2R at 1. cbn. lra.
Qed.

Lemma log_bound_Q (q : Q) (n : nat) :
  (0 < q)%Q ->
  ((q * (4 # 5) ^ Z.of_nat n <= 1 # 100)%Q <->
   (ln (1 / 100 / Q2R q) / ln (4 / 5) <= INR n)%R).
Proof.
  intros Hq.
  assert (HqR : (0 < Q2R q)%R).
  { replace 0%R with (Q2R 0) by (unfold Q2R; cbn; lra). apply Qlt_Rlt. exact Hq. }
  rewrite (log_bound_iff (Q2R q) n HqR), <- Q2R_pow_45, <- Q2R_mult.
  replace (1 / 100)%R with (Q2R (1 # 100)) by (unfold Q2R; cbn; lra).
  split; [apply Qle_Rle | apply Rle_Qle].
Qed.

(** C5 as stated fails.  For a natural number [n],
    [n >= ceil(log(0.01/|s|) / log(0.8))] is
    [log(0.01/|s|) / log(0.8) <= n].  At the start value
    [below_0_0125] this holds for [n = 1], and one decay leaves the
    value [zeroThreshold], which is not 0.0. *)
Lemma C5_counterexample :
  axis_ok below_0_0125 = true /\ fne below_0_0125 fzero = true /\
  (ln (1 / 100 / Q2R (Qabs (SF2Q below_0_0125))) / ln (4 / 5) <= INR 1)%R /\
  decay_iter 1 below_0_0125 = zeroThreshold /\
  fne (decay_iter 1 below_0_0125) fzero = true.
Proof.
  split; [reflexivity | split; [reflexivity | split; [|split; reflexivity]]].
  apply (log_bound_Q (Qabs (SF2Q below_0_0125)) 1); [reflexivity|].
  vm_compute. congruence.
Qed.

(** C5, amended.  From a nonzero start [s] in [-1.0, 1.0] the decay is
    at exactly 0.0 after [n + 1] calls for every natural number [n]
    with [log(0.01/|s|) / log(0.8) <= n] (one call more than the bound
    of the claim), and after 21 calls in any case; the value never
    changes sign and never grows. *)
Theorem C5_decay_converges (s : spec_float) :
  axis_ok s = true -> fne s fzero = true ->
  (forall n : nat,
     (ln (1 / 100 / Q2R (Qabs (SF2Q s))) / ln (4 / 5) <= INR n)%R ->
     decay_iter (S n) s = fzero) /\
  decay_iter 21 s = fzero /\
  (forall k : nat,
     ((0 <= SF2Q s)%Q -> (0 <= SF2Q (decay_iter k s) <= SF2Q s)%Q) /\
     ((SF2Q s <= 0)%Q -> (SF2Q s <= SF2Q (decay_iter k s) <= 0)%Q)).
Proof.
  intros Hs Hne.
  assert (Hnz : ~ (SF2Q s == 0)%Q).
  { intros H0. apply (fne_zero_spec s (axis_ok_valid s Hs)) in H0. congruence. }
  assert (Hpos : (0 < Qabs (SF2Q s))%Q).
  { revert Hnz. apply Qabs_case; intros; destruct (Q_dec (SF2Q s) 0) as [[|]|]; lra || contradiction. }
  split; [|split].
  - intros n Hb. apply (log_bound_Q _ n Hpos) in Hb.
    apply decay_reaches_zero; assumption.
  - apply (decay_reaches_zero_below fone s 21 21); try assumption; try reflexivity.
    rewrite SF2Q_fone. apply axis_ok_abs. assumption.
  - intros k. apply decay_iter_sign. assumption.
Qed.

Lemma C5_witness :
  axis_ok below_0_0125 = true /\ fne below_0_0125 fzero = true /\
  decay_iter 2 below_0_0125 = fzero.
Proof.
  split; [reflexivity | split; [reflexivity|]].
  destruct (C5_decay_converges below_0_0125 eq_refl eq_refl) as (H & _ & _).
  apply (H 1%nat).
  apply (log_bound_Q (Qabs (SF2Q below_0_0125)) 1); [reflexivity|].
  vm_compute. congruence.
Defined.

(** * Part VI: further properties of the controller *)

(** ** A format value strictly inside an interval

    Rounding to nearest moves off a value [Y] as soon as some value of
    the format is closer to the exact result than [Y] is; the multiples
    of [2^-n] supply such values. *)

Lemma nearest_differs (prec emax : Z) (X V Y F : Q) :
  nearest prec emax X V -> in_format prec emax F ->
  (Qabs (F - X) < Qabs (Y - X))%Q -> ~ (V == Y)%Q.
Proof.
  intros [_ Hn] HF Hlt Heq. specialize (Hn F HF). rewrite Heq in Hn. lra.
Qed.

Lemma grid_below (q : Q) (e : Z) :
  exists k, (inject_Z k * pow2 e < q <= inject_Z k * pow2 e + pow2 e)%Q.
Proof.
  exists (Qceiling (q * pow2 (- e)) - 1).
  pose proof (Qceiling_lt (q * pow2 (- e))) as H1.
  pose proof (Qle_ceiling (q * pow2 (- e))) as H2.
  pose proof (pow2_pos e) as Hp.
  assert (Hinv : (pow2 (- e) * pow2 e == 1)%Q).
  { rewrite <- pow2_add. replace (- e + e) with 0 by lia. reflexivity. }
  rewrite inject_Z_sub in *. change (inject_Z 1) with 1%Q in *.
  set (c := inject_Z (Qceiling (q * pow2 (- e)))) in *.
  set (a := pow2 (- e)) in *. set (b := pow2 e) in *.
  assert (Hq : (q == q * a * b)%Q) by (rewrite <- Qmult_assoc, Hinv; ring).
  assert (H1' : ((c - 1) * b < q * a * b)%Q) by (apply Qmult_lt_compat_r; assumption).
  assert (H2' : (q * a * b <= c * b)%Q) by (apply Qmult_le_compat_r; [assumption | lra]).
  rewrite <- Hq in H1', H2'. split; lra.
Qed.

Lemma grid_above (q : Q) (e : Z) :
  exists k, (inject_Z k * pow2 e - pow2 e <= q < inject_Z k * pow2 e)%Q.
Proof.
  destruct (grid_below (- q) e) as [k [H1 H2]].
  exists (- k). rewrite inject_Z_opp. split; lra.
Qed.

(** ** The decay always moves a nonzero value *)

Lemma decayRate_value : (SF2Q decayRate == 13421773 # 16777216)%Q.
Proof. vm_compute. reflexivity. Qed.

Lemma zeroThreshold_value : (SF2Q zeroThreshold == 10737418 # 1073741824)%Q.
Proof. vm_compute. reflexivity. Qed.

Lemma incrementStep_value : (SF2Q incrementStep == 13421773 # 268435456)%Q.
Proof. vm_compute. reflexivity. Qed.

Lemma grid_in_format (k e : Z) :
  - 100 <= e -> Z.abs k < 2 ^ 24 -> in_format F.prec F.emax (inject_Z k * pow2 e).
Proof.
  intros He Hk. apply in_format_scaled; [reflexivity | | exact Hk].
  unfold emin, F.prec, F.emax. lia.
Qed.

Lemma grid512_in_format (k : Z) (v : Q) :
  (- (2) <= v <= 2)%Q ->
  (inject_Z k * pow2 (-9) <= v + (1 # 512))%Q -> (v - (1 # 512) <= inject_Z k * pow2 (-9))%Q ->
  in_format F.prec F.emax (inject_Z k * pow2 (-9)).
Proof.
  intros Hv H1 H2. change (pow2 (-9)) with (1 # 512)%Q in *.
  apply (grid_in_format k (-9)); [lia|].
  assert (inject_Z (- 2000) < inject_Z k)%Q
    by (change (inject_Z (- 2000)) with (- 2000 # 1)%Q; lra).
  assert (inject_Z k < inject_Z 2000)%Q by (change (inject_Z 2000) with (2000 # 1)%Q; lra).
  rewrite <- Zlt_Qlt in *. lia.
Qed.

Lemma decay_product_moves (x : spec_float) :
  axis_ok x = true -> (SF2Q zeroThreshold <= Qabs (SF2Q x))%Q ->
  ~ (SF2Q (F.mul x decayRate) == SF2Q x)%Q.
Proof.
  intros Hx Ht. destruct (decay_product x Hx) as (_ & Hn & _). cbv zeta in Hn.
  apply axis_ok_spec in Hx as [_ [Hlo Hhi]].
  rewrite zeroThreshold_value in Ht. rewrite decayRate_value in Hn.
  set (v := SF2Q x) in *.
  destruct (Qlt_le_dec v 0) as [Hneg | Hpos].
  - rewrite Qabs_neg in Ht by lra.
    destruct (grid_above v (-9)) as [k [H1 H2]].
    apply (nearest_differs _ _ _ _ v (inject_Z k * pow2 (-9)) Hn).
    + apply (grid512_in_format k v); change (pow2 (-9)) with (1 # 512)%Q in *; lra.
    + change (pow2 (-9)) with (1 # 512)%Q in *.
      apply Qabs_case; intros; apply Qabs_case; intros; lra.
  - rewrite Qabs_pos in Ht by lra.
    destruct (grid_below v (-9)) as [k [H1 H2]].
    apply (nearest_differs _ _ _ _ v (inject_Z k * pow2 (-9)) Hn).
    + apply (grid512_in_format k v); change (pow2 (-9)) with (1 # 512)%Q in *; lra.
    + change (pow2 (-9)) with (1 # 512)%Q in *.
      apply Qabs_case; intros; apply Qabs_case; intros; lra.
Qed.

Lemma decay_step_moves (x : spec_float) :
  axis_ok x = true -> ~ (SF2Q x == 0)%Q -> ~ (SF2Q (decay_step x) == SF2Q x)%Q.
Proof.
  intros Hx Hnz. pose proof (decay_step_sign x Hx) as [Hs1 Hs2].
  destruct (decay_step_cases x Hx) as [[H0 _] | [(_ & _ & E) | (_ & Ht & E)]].
  - contradiction.
  - rewrite E. change (SF2Q fzero) with 0%Q. intros H. apply Hnz. symmetry. exact H.
  - rewrite E in *. apply decay_product_moves; [assumption|].
    revert Ht. cbv zeta. set (p := SF2Q (F.mul x decayRate)) in *. intros Ht.
    destruct (Qlt_le_dec (SF2Q x) 0) as [Hneg | Hpos].
    + specialize (Hs2 ltac:(lra)). rewrite Qabs_neg in * by lra. lra.
    + specialize (Hs1 Hpos). rewrite Qabs_pos in * by lra. lra.
Qed.

Lemma decay_value_moves (x : spec_float) :
  axis_ok x = true -> fne (D.of_float x) dzero = true -> fne (decay_value x) x = true.
Proof.
  intros Hx Hne. pose proof (axis_ok_valid x Hx) as Hv.
  assert (E : decay_step x = decay_value x) by (unfold decay_step; rewrite Hne; reflexivity).
  rewrite <- E. rewrite fne_promoted in Hne by assumption.
  assert (Hnz : ~ (SF2Q x == 0)%Q).
  { intros H0. apply (fne_zero_spec x Hv) in H0. congruence. }
  pose proof (decay_step_moves x Hx Hnz) as Hm.
  pose proof (axis_ok_valid _ (decay_step_ok x Hx)) as Hv'.
  unfold fne. destruct (SFeqb (decay_step x) x) eqn:Eq; [|reflexivity].
  apply (SFeqb_spec F.prec F.emax F_prec_pos) in Eq; [contradiction | assumption | assumption].
Qed.

(** ** When a pass sends a frame *)

Lemma auto_center_flag (st : state) :
  axis_ok (joystickXFloat st) = true ->
  snd (fst (auto_center st)) = fne (D.of_float (joystickXFloat st)) dzero.
Proof.
  intros Hx. unfold auto_center.
  destruct (fne (D.of_float (joystickXFloat st)) dzero) eqn:E; [|reflexivity].
  rewrite (decay_value_moves _ Hx E). reflexivity.
Qed.

Local Ltac frames_of_pass :=
  cbn [fst snd joystickXFloat]; rewrite !filter_app, button_handling_joystick; reflexivity.

Lemma loop_frames_sent (i : input) (st : state) :
  axis_ok (joystickXFloat st) = true ->
  filter is_joystick (snd (loop i st)) =
    if negb (encoder1_read i =? lastEncoder1Position st)
       || fne (D.of_float (joystickXFloat st)) dzero
    then [Joystick_X (map_x (joystickXFloat (fst (loop i st)))); Joystick_Y 512;
          Joystick_send_now]
    else [].
Proof.
  intros Hx. unfold loop, read_encoder. cbn [lastEncoder1Position joystickXFloat button].
  destruct (encoder1_read i =? lastEncoder1Position st) eqn:Ee; cbn [negb orb].
  - pose proof (auto_center_flag
                  {| lastEncoder1Position := lastEncoder1Position st;
                     joystickXFloat := joystickXFloat st;
                     button := Bounce_update (button_level i) (button st) |} Hx) as Hf.
    cbn [joystickXFloat] in Hf.
    destruct (auto_center _) as [[st2 upd2] ev2] eqn:Ea. cbn [fst snd] in Hf. subst upd2.
    unfold auto_center in Ea. cbn [lastEncoder1Position joystickXFloat button] in Ea.
    destruct (fne (D.of_float (joystickXFloat st)) dzero) eqn:E.
    + destruct (fne (decay_value (joystickXFloat st)) (joystickXFloat st));
        [|discriminate Ea].
      injection Ea as <- <-. frames_of_pass.
    + injection Ea as <- <-. frames_of_pass.
  - destruct (auto_center _) as [[st2 upd2] ev2] eqn:Ea.
    unfold auto_center in Ea. cbn [lastEncoder1Position joystickXFloat button] in Ea.
    destruct (fne (D.of_float _) dzero) in Ea.
    + destruct (fne _ _) in Ea; injection Ea as <- <- <-; frames_of_pass.
    + injection Ea as <- <- <-. frames_of_pass.
Qed.

(** ** Runs, pass by pass *)

Lemma run_cons (i : input) (ins : list input) (st : state) :
  run (i :: ins) st =
    (fst (run ins (fst (loop i st))), snd (loop i st) ++ snd (run ins (fst (loop i st)))).
Proof.
  cbn [run]. destruct (loop i st) as [st' ev]. cbn [fst snd].
  destruct (run ins st') as [st'' ev']. reflexivity.
Qed.

Lemma run_app (ins1 ins2 : list input) (st : state) :
  run (ins1 ++ ins2) st =
    (fst (run ins2 (fst (run ins1 st))), snd (run ins1 st) ++ snd (run ins2 (fst (run ins1 st)))).
Proof.
  revert st. induction ins1 as [ | i ins1 IH]; intros st.
  - cbn [app run fst snd]. destruct (run ins2 st). reflexivity.
  - rewrite <- app_comm_cons, !run_cons, IH. cbn [fst snd]. rewrite app_assoc. reflexivity.
Qed.

Lemma loop_idle_state (i : input) (st : state) :
  encoder1_read i = lastEncoder1Position st ->
  fne (D.of_float (joystickXFloat st)) dzero = false ->
  joystickXFloat (fst (loop i st)) = joystickXFloat st.
Proof.
  intros He Hz. rewrite loop_state. cbn [joystickXFloat]. unfold after_encoder.
  rewrite He, Z.eqb_refl. cbn [negb]. unfold decay_step. rewrite Hz. reflexivity.
Qed.

(** ** The report the host holds *)

Lemma hid_step_other (h : (Z * Z) * (Z * Z)) (e : event) :
  is_joystick e = false -> hid_step h e = h.
Proof. destruct e; cbn; intros H; try discriminate H; reflexivity. Qed.

Lemma fold_hid_filter (evs : list event) (h : (Z * Z) * (Z * Z)) :
  fold_left hid_step evs h = fold_left hid_step (filter is_joystick evs) h.
Proof.
  revert h. induction evs as [ | e evs IH]; intros h; [reflexivity|].
  cbn [fold_left filter]. destruct (is_joystick e) eqn:E.
  - cbn [fold_left]. apply IH.
  - rewrite hid_step_other by assumption. apply IH.
Qed.

Lemma host_report_loop (i : input) (st : state) (h : (Z * Z) * (Z * Z)) :
  axis_ok (joystickXFloat st) = true ->
  snd h = (map_x (joystickXFloat st), 512) ->
  snd (fold_left hid_step (snd (loop i st)) h) = (map_x (joystickXFloat (fst (loop i st))), 512).
Proof.
  intros Hx Hh. rewrite fold_hid_filter, (loop_frames_sent i st Hx).
  destruct (negb (encoder1_read i =? lastEncoder1Position st)) eqn:Ee; cbn [orb].
  - reflexivity.
  - destruct (fne (D.of_float (joystickXFloat st)) dzero) eqn:Ez; [reflexivity|].
    apply negb_false_iff, Z.eqb_eq in Ee.
    rewrite (loop_idle_state i st Ee Ez). exact Hh.
Qed.

Lemma host_report_run (ins : list input) (st : state) (h : (Z * Z) * (Z * Z)) :
  axis_ok (joystickXFloat st) = true ->
  snd h = (map_x (joystickXFloat st), 512) ->
  host_report h (snd (run ins st)) = (map_x (joystickXFloat (fst (run ins st))), 512).
Proof.
  unfold host_report. revert st h. induction ins as [ | i ins IH]; intros st h Hx Hh.
  - exact Hh.
  - rewrite run_cons. cbn [fst snd]. rewrite fold_left_app.
    apply IH; [apply loop_axis_ok; exact Hx | apply host_report_loop; assumption].
Qed.

(** ** The mapping is monotone *)

Lemma map_x_le (x y : spec_float) :
  axis_ok x = true -> axis_ok y = true -> (SF2Q x <= SF2Q y)%Q -> map_x x <= map_x y.
Proof.
  intros Hx Hy Hle. rewrite (map_x_exact x Hx), (map_x_exact y Hy).
  apply Qfloor_resp_le. lra.
Qed.

Lemma map_x_zero (x : spec_float) :
  axis_ok x = true -> (SF2Q x == 0)%Q -> map_x x = 512.
Proof.
  intros Hx H0. rewrite (map_x_exact x Hx).
  apply Qfloor_unique; rewrite H0; vm_compute; congruence.
Qed.

(** ** What a pass leaves and sends *)

Lemma decay_step_range (y : spec_float) :
  axis_ok y = true ->
  (SF2Q (decay_step y) == 0)%Q \/
  (SF2Q zeroThreshold <= Qabs (SF2Q (decay_step y)) <= SF2Q decayRate)%Q.
Proof.
  intros Hy.
  destruct (decay_step_cases y Hy) as [[H0 E] | [(_ & _ & E) | (_ & Ht & E)]].
  - left. rewrite E. exact H0.
  - left. rewrite E. reflexivity.
  - right. rewrite E. split; [exact Ht|].
    pose proof (decay_product_mono y fone Hy eq_refl) as Hm.
    change (F.mul fone decayRate) with decayRate in Hm. apply Hm.
    rewrite SF2Q_fone. apply axis_ok_abs. exact Hy.
Qed.

Lemma map_x_reachable (z : spec_float) :
  axis_ok z = true ->
  (SF2Q z == 0)%Q \/ (SF2Q zeroThreshold <= Qabs (SF2Q z) <= SF2Q decayRate)%Q ->
  103 <= map_x z <= 507 \/ map_x z = 512 \/ 517 <= map_x z <= 921.
Proof.
  intros Hz [H0 | [H1 H2]].
  - right. left. apply map_x_zero; assumption.
  - destruct (Qlt_le_dec (SF2Q z) 0) as [Hneg | Hpos].
    + left. rewrite Qabs_neg in H1, H2 by lra.
      pose proof (map_x_le (SFopp decayRate) z eq_refl Hz) as Ha.
      pose proof (map_x_le z (SFopp zeroThreshold) Hz eq_refl) as Hb.
      rewrite SF2Q_opp in Ha, Hb.
      change (map_x (SFopp decayRate)) with 103 in Ha.
      change (map_x (SFopp zeroThreshold)) with 507 in Hb.
      split; [apply Ha | apply Hb]; lra.
    + right. right. rewrite Qabs_pos in H1, H2 by lra.
      pose proof (map_x_le zeroThreshold z eq_refl Hz H1) as Ha.
      pose proof (map_x_le z decayRate Hz eq_refl H2) as Hb.
      change (map_x zeroThreshold) with 517 in Ha.
      change (map_x decayRate) with 921 in Hb.
      split; assumption.
Qed.

Lemma loop_range (i : input) (st : state) :
  axis_ok (joystickXFloat st) = true ->
  let x' := joystickXFloat (fst (loop i st)) in
  ((SF2Q x' == 0)%Q \/ (SF2Q zeroThreshold <= Qabs (SF2Q x') <= SF2Q decayRate)%Q)
  /\ Forall frame_X_reachable (snd (loop i st)).
Proof.
  intros Hx x'.
  assert (Hr : (SF2Q x' == 0)%Q \/ (SF2Q zeroThreshold <= Qabs (SF2Q x') <= SF2Q decayRate)%Q).
  { subst x'. rewrite loop_state. cbn [joystickXFloat].
    apply decay_step_range, after_encoder_ok. exact Hx. }
  split; [exact Hr|].
  pose proof (map_x_reachable x' (loop_axis_ok i st Hx) Hr) as Hm.
  destruct (loop_events i st) as (ev & upd & E & Hev & _). rewrite E.
  apply Forall_app. split.
  - eapply Forall_impl; [|exact Hev]. intros e (_ & Hj & _).
    destruct e; try exact I. discriminate Hj.
  - apply Forall_app. split.
    + unfold update_hid. destruct upd; [|constructor].
      constructor; [exact Hm | repeat constructor].
    + apply Forall_app. split.
      * unfold button_handling.
        destruct (fallingEdge _), (risingEdge _); repeat constructor.
      * repeat constructor.
Qed.

Lemma run_range (ins : list input) (st : state) :
  axis_ok (joystickXFloat st) = true -> Forall frame_X_reachable (snd (run ins st)).
Proof.
  revert st. induction ins as [ | i ins IH]; intros st Hx.
  - constructor.
  - rewrite run_cons. cbn [snd]. apply Forall_app. split.
    + apply loop_range. exact Hx.
    + apply IH, loop_axis_ok. exact Hx.
Qed.

(** ** The tick update: direction and saturation *)

Lemma of_int_ge (d : Z) (A : spec_float) :
  is_int d -> Fvalid A = true -> (SF2Q A <= inject_Z d)%Q ->
  (SF2Q A <= SF2Q (F.of_int d))%Q.
Proof.
  intros Hd HA Hle. unfold F.of_int, is_int in *.
  destruct (binary_normalize_bounds F.prec F.emax F_prec_pos d 0 false A f2p31)
    as [_ H2]; try reflexivity; try assumption.
  - rewrite SF2Q_f2p31. change (pow2 0) with 1%Q. rewrite Qmult_1_r.
    split; [assumption|]. rewrite <- Zle_Qle. lia.
  - apply H2.
Qed.

Lemma of_int_le (d : Z) (B : spec_float) :
  is_int d -> Fvalid B = true -> (inject_Z d <= SF2Q B)%Q ->
  (SF2Q (F.of_int d) <= SF2Q B)%Q.
Proof.
  intros Hd HB Hle. unfold F.of_int, is_int in *.
  destruct (binary_normalize_bounds F.prec F.emax F_prec_pos d 0 false (SFopp f2p31) B)
    as [_ H2]; try reflexivity; try assumption.
  - rewrite SF2Q_opp, SF2Q_f2p31. change (pow2 0) with 1%Q. rewrite Qmult_1_r.
    split; [|assumption]. rewrite <- inject_Z_opp, <- Zle_Qle. lia.
  - apply H2.
Qed.

Lemma tick_product_nearest (d : Z) :
  is_int d ->
  nearest F.prec F.emax (SF2Q (F.of_int d) * SF2Q incrementStep)
          (SF2Q (F.mul (F.of_int d) incrementStep)).
Proof.
  intros Hd. destruct (of_int_bounds d Hd) as [H1 H2].
  apply (SFmul_correct F.prec F.emax F_prec_pos F_prec_lt_emax _ _ f2p31);
    try assumption; try reflexivity.
  rewrite SF2Q_f2p31, Qabs_Qmult.
  pose proof SF2Q_incrementStep as [Hc0 Hc1].
  rewrite (Qabs_pos (SF2Q incrementStep)) by lra.
  pose proof (Qabs_nonneg (SF2Q (F.of_int d))).
  nra.
Qed.

(** [k] ticks or more take at least the [float] [C] off the axis, when
    [C <= k * incrementStep]. *)
Lemma tick_product_ge (d : Z) (A C : spec_float) :
  is_int d -> Fvalid A = true -> Fvalid C = true ->
  (0 <= SF2Q A <= inject_Z d)%Q -> (SF2Q C <= SF2Q A * SF2Q incrementStep)%Q ->
  (SF2Q C <= SF2Q (F.mul (F.of_int d) incrementStep))%Q.
Proof.
  intros Hd HA HC [HA0 HAd] HCle.
  pose proof (of_int_ge d A Hd HA HAd) as Hge.
  pose proof SF2Q_incrementStep as [Hc0 _].
  apply (nearest_ge F.prec F.emax _ _ _ (tick_product_nearest d Hd)).
  - apply valid_fin_in_format; assumption.
  - nra.
Qed.

Lemma tick_product_le (d : Z) (A C : spec_float) :
  is_int d -> Fvalid A = true -> Fvalid C = true ->
  (0 <= SF2Q A)%Q -> (inject_Z d <= - SF2Q A)%Q -> (SF2Q C <= SF2Q A * SF2Q incrementStep)%Q ->
  (SF2Q (F.mul (F.of_int d) incrementStep) <= - SF2Q C)%Q.
Proof.
  intros Hd HA HC HA0 HAd HCle.
  assert (Hle : (SF2Q (F.of_int d) <= SF2Q (SFopp A))%Q).
  { apply of_int_le; [assumption | apply valid_fin_opp; assumption |].
    rewrite SF2Q_opp. assumption. }
  rewrite SF2Q_opp in Hle.
  pose proof SF2Q_incrementStep as [Hc0 _].
  apply (nearest_le F.prec F.emax _ _ _ (tick_product_nearest d Hd)).
  - apply in_format_opp, valid_fin_in_format; assumption.
  - nra.
Qed.

Lemma tick_amount_nearest (x : spec_float) (d : Z) :
  axis_ok x = true -> is_int d ->
  nearest F.prec F.emax (SF2Q x - SF2Q (F.mul (F.of_int d) incrementStep))
          (SF2Q (F.sub x (F.mul (F.of_int d) incrementStep))).
Proof.
  intros Hx Hd. apply axis_ok_spec in Hx as [Hv [Hlo Hhi]].
  destruct (tick_product_bounds d Hd) as [Hp Hb]. apply Qabs_Qle_condition in Hb.
  apply (SFsub_correct F.prec F.emax F_prec_pos x (F.mul (F.of_int d) incrementStep)
           (SFopp f2p32) f2p32); try assumption; try reflexivity.
  rewrite SF2Q_opp, SF2Q_f2p32.
  change (inject_Z (2 ^ 31)) with (2147483648 # 1)%Q in Hb.
  change (inject_Z (2 ^ 32)) with (4294967296 # 1)%Q.
  lra.
Qed.

Lemma constrain_cases (amt : spec_float) :
  Fvalid amt = true ->
  ((SF2Q amt < - (1))%Q /\ constrain amt fmone fone = fmone) \/
  ((1 < SF2Q amt)%Q /\ constrain amt fmone fone = fone) \/
  ((- (1) <= SF2Q amt <= 1)%Q /\ constrain amt fmone fone = amt).
Proof.
  intros Ha. unfold constrain, flt, fgt.
  destruct (SFltb amt fmone) eqn:H1.
  - left. apply (SFltb_spec F.prec F.emax F_prec_pos) in H1; [|assumption|reflexivity].
    rewrite SF2Q_fmone in H1. split; [assumption | reflexivity].
  - apply (SFltb_false_spec F.prec F.emax) in H1; [|reflexivity|assumption|reflexivity].
    rewrite SF2Q_fmone in H1. right.
    destruct (SFltb fone amt) eqn:H2.
    + left. apply (SFltb_spec F.prec F.emax F_prec_pos) in H2; [|reflexivity|assumption].
      rewrite SF2Q_fone in H2. split; [assumption | reflexivity].
    + right. apply (SFltb_false_spec F.prec F.emax) in H2; [|reflexivity|reflexivity|assumption].
      rewrite SF2Q_fone in H2. split; [split; assumption | reflexivity].
Qed.

Lemma tick_to_fmone (x : spec_float) (d : Z) :
  axis_ok x = true -> is_int d ->
  (SF2Q x - SF2Q (F.mul (F.of_int d) incrementStep) <= - (1))%Q ->
  tick_value x d = fmone.
Proof.
  intros Hx Hd Hle. rewrite (tick_value_constrain x d Hx Hd).
  pose proof (tick_amount_valid x d Hx Hd) as Hv.
  pose proof (tick_amount_nearest x d Hx Hd) as Hn.
  set (r := F.sub x (F.mul (F.of_int d) incrementStep)) in *.
  assert (Hr : (SF2Q r <= - (1))%Q).
  { rewrite <- SF2Q_fmone. apply (nearest_le F.prec F.emax _ _ _ Hn).
    - apply valid_fin_in_format. reflexivity.
    - rewrite SF2Q_fmone. exact Hle. }
  destruct (constrain_cases r Hv) as [[_ E] | [[H _] | [[H _] E]]].
  - exact E.
  - lra.
  - rewrite E. apply (float_eq_of_value F.prec F.emax F_prec_pos); try assumption; try reflexivity.
    + apply sign_of_neg. lra.
    + rewrite SF2Q_fmone. lra.
Qed.

Lemma tick_to_fone (x : spec_float) (d : Z) :
  axis_ok x = true -> is_int d ->
  (1 <= SF2Q x - SF2Q (F.mul (F.of_int d) incrementStep))%Q ->
  tick_value x d = fone.
Proof.
  intros Hx Hd Hle. rewrite (tick_value_constrain x d Hx Hd).
  pose proof (tick_amount_valid x d Hx Hd) as Hv.
  pose proof (tick_amount_nearest x d Hx Hd) as Hn.
  set (r := F.sub x (F.mul (F.of_int d) incrementStep)) in *.
  assert (Hr : (1 <= SF2Q r)%Q).
  { rewrite <- SF2Q_fone. apply (nearest_ge F.prec F.emax _ _ _ Hn).
    - apply valid_fin_in_format. reflexivity.
    - rewrite SF2Q_fone. exact Hle. }
  destruct (constrain_cases r Hv) as [[H _] | [[_ E] | [[_ H] E]]].
  - lra.
  - exact E.
  - rewrite E. apply (float_eq_of_value F.prec F.emax F_prec_pos); try assumption; try reflexivity.
    + apply sign_of_pos. lra.
    + rewrite SF2Q_fone. lra.
Qed.

Lemma grid32_in_format (k : Z) (v : Q) :
  (- (2) <= v <= 2)%Q ->
  (inject_Z k * pow2 (-5) <= v + (1 # 32))%Q -> (v - (1 # 32) <= inject_Z k * pow2 (-5))%Q ->
  in_format F.prec F.emax (inject_Z k * pow2 (-5)).
Proof.
  intros Hv H1 H2. change (pow2 (-5)) with (1 # 32)%Q in *.
  apply (grid_in_format k (-5)); [lia|].
  assert (inject_Z (- 100) < inject_Z k)%Q by (change (inject_Z (- 100)) with (- 100 # 1)%Q; lra).
  assert (inject_Z k < inject_Z 100)%Q by (change (inject_Z 100) with (100 # 1)%Q; lra).
  rewrite <- Zlt_Qlt in *. lia.
Qed.

Lemma tick_amount_below (x : spec_float) (d : Z) :
  axis_ok x = true -> is_int d -> 0 < d ->
  (SF2Q (F.sub x (F.mul (F.of_int d) incrementStep)) < SF2Q x)%Q.
Proof.
  intros Hx Hd Hpos.
  pose proof (tick_amount_nearest x d Hx Hd) as Hn.
  assert (HP : (SF2Q incrementStep <= SF2Q (F.mul (F.of_int d) incrementStep))%Q).
  { apply (tick_product_ge d fone incrementStep); try assumption; try reflexivity.
    - rewrite SF2Q_fone. split; [lra|]. change 1%Q with (inject_Z 1). rewrite <- Zle_Qle. lia.
    - rewrite SF2Q_fone. lra. }
  rewrite incrementStep_value in HP.
  set (P := SF2Q (F.mul (F.of_int d) incrementStep)) in *.
  set (r := SF2Q (F.sub x (F.mul (F.of_int d) incrementStep))) in *.
  pose proof (axis_ok_valid x Hx) as Hv. apply axis_ok_spec in Hx as [_ [Hlo Hhi]].
  assert (Hle : (r <= SF2Q x)%Q).
  { apply (nearest_le F.prec F.emax _ _ _ Hn); [apply valid_fin_in_format; assumption | lra]. }
  assert (Hne : ~ (r == SF2Q x)%Q).
  { destruct (grid_below (SF2Q x) (-5)) as [k [H1 H2]].
    apply (nearest_differs _ _ _ _ (SF2Q x) (inject_Z k * pow2 (-5)) Hn).
    - apply (grid32_in_format k (SF2Q x)); change (pow2 (-5)) with (1 # 32)%Q in *; lra.
    - change (pow2 (-5)) with (1 # 32)%Q in *.
      apply Qabs_case; intros; apply Qabs_case; intros; lra. }
  destruct (Qlt_le_dec r (SF2Q x)) as [Hlt | Hge]; [assumption|].
  exfalso. apply Hne. lra.
Qed.

Lemma tick_amount_above (x : spec_float) (d : Z) :
  axis_ok x = true -> is_int d -> d < 0 ->
  (SF2Q x < SF2Q (F.sub x (F.mul (F.of_int d) incrementStep)))%Q.
Proof.
  intros Hx Hd Hneg.
  pose proof (tick_amount_nearest x d Hx Hd) as Hn.
  assert (HP : (SF2Q (F.mul (F.of_int d) incrementStep) <= - SF2Q incrementStep)%Q).
  { apply (tick_product_le d fone incrementStep); try assumption; try reflexivity.
    - rewrite SF2Q_fone. lra.
    - rewrite SF2Q_fone. change (- (1))%Q with (inject_Z (- 1)). rewrite <- Zle_Qle. lia.
    - rewrite SF2Q_fone. lra. }
  rewrite incrementStep_value in HP.
  set (P := SF2Q (F.mul (F.of_int d) incrementStep)) in *.
  set (r := SF2Q (F.sub x (F.mul (F.of_int d) incrementStep))) in *.
  pose proof (axis_ok_valid x Hx) as Hv. apply axis_ok_spec in Hx as [_ [Hlo Hhi]].
  assert (Hle : (SF2Q x <= r)%Q).
  { apply (nearest_ge F.prec F.emax _ _ _ Hn); [apply valid_fin_in_format; assumption | lra]. }
  assert (Hne : ~ (r == SF2Q x)%Q).
  { destruct (grid_above (SF2Q x) (-5)) as [k [H1 H2]].
    apply (nearest_differs _ _ _ _ (SF2Q x) (inject_Z k * pow2 (-5)) Hn).
    - apply (grid32_in_format k (SF2Q x)); change (pow2 (-5)) with (1 # 32)%Q in *; lra.
    - change (pow2 (-5)) with (1 # 32)%Q in *.
      apply Qabs_case; intros; apply Qabs_case; intros; lra. }
  destruct (Qlt_le_dec (SF2Q x) r) as [Hlt | Hge]; [assumption|].
  exfalso. apply Hne. lra.
Qed.

Lemma tick_value_down (x : spec_float) (d : Z) :
  axis_ok x = true -> is_int d -> 0 < d ->
  ((- (1) < SF2Q x)%Q -> (SF2Q (tick_value x d) < SF2Q x)%Q) /\
  ((SF2Q x == - (1))%Q -> tick_value x d = fmone).
Proof.
  intros Hx Hd Hpos. pose proof (tick_amount_below x d Hx Hd Hpos) as Hlt. split.
  - intros Hgt. rewrite (tick_value_constrain x d Hx Hd).
    pose proof (tick_amount_valid x d Hx Hd) as Hv.
    apply axis_ok_spec in Hx as [_ [Hlo Hhi]].
    destruct (constrain_cases _ Hv) as [[_ E] | [[H _] | [_ E]]]; rewrite ?E.
    + rewrite SF2Q_fmone. exact Hgt.
    + lra.
    + exact Hlt.
  - intros Heq. assert (Hx' := Hx). apply axis_ok_spec in Hx' as [_ [Hlo Hhi]].
    apply tick_to_fmone; try assumption.
    pose proof (nearest_ge F.prec F.emax _ _ _ (tick_amount_nearest x d Hx Hd)
                  (valid_fin_in_format F.prec F.emax x (axis_ok_valid x Hx))) as H.
    destruct (Qlt_le_dec 0 (SF2Q (F.mul (F.of_int d) incrementStep))) as [Hp | Hn]; [lra|].
    specialize (H ltac:(lra)). lra.
Qed.

Lemma tick_value_up (x : spec_float) (d : Z) :
  axis_ok x = true -> is_int d -> d < 0 ->
  ((SF2Q x < 1)%Q -> (SF2Q x < SF2Q (tick_value x d))%Q) /\
  ((SF2Q x == 1)%Q -> tick_value x d = fone).
Proof.
  intros Hx Hd Hneg. pose proof (tick_amount_above x d Hx Hd Hneg) as Hlt. split.
  - intros Hgt. rewrite (tick_value_constrain x d Hx Hd).
    pose proof (tick_amount_valid x d Hx Hd) as Hv.
    apply axis_ok_spec in Hx as [_ [Hlo Hhi]].
    destruct (constrain_cases _ Hv) as [[H _] | [[_ E] | [_ E]]]; rewrite ?E.
    + lra.
    + rewrite SF2Q_fone. exact Hgt.
    + exact Hlt.
  - intros Heq. assert (Hx' := Hx). apply axis_ok_spec in Hx' as [_ [Hlo Hhi]].
    apply tick_to_fone; try assumption.
    pose proof (nearest_le F.prec F.emax _ _ _ (tick_amount_nearest x d Hx Hd)
                  (valid_fin_in_format F.prec F.emax x (axis_ok_valid x Hx))) as H.
    destruct (Qlt_le_dec (SF2Q (F.mul (F.of_int d) incrementStep)) 0) as [Hp | Hn]; [lra|].
    specialize (H ltac:(lra)). lra.
Qed.

Lemma tick_saturates_down (x : spec_float) (d : Z) :
  axis_ok x = true -> is_int d ->
  (40 <= d \/ (20 <= d /\ (SF2Q x <= 0)%Q)) -> tick_value x d = fmone.
Proof.
  intros Hx Hd H. apply tick_to_fmone; try assumption.
  assert (Hx' := Hx). apply axis_ok_spec in Hx' as [_ [Hlo Hhi]].
  pose proof incrementStep_value as Hi.
  assert (E40 : (SF2Q (F.of_int 40) == inject_Z 40)%Q) by (vm_compute; reflexivity).
  assert (E20 : (SF2Q (F.of_int 20) == inject_Z 20)%Q) by (vm_compute; reflexivity).
  assert (E2 : (SF2Q (F.of_int 2) == 2)%Q) by (vm_compute; reflexivity).
  destruct H as [H | [H H0]].
  - assert (HP : (SF2Q (F.of_int 2) <= SF2Q (F.mul (F.of_int d) incrementStep))%Q).
    { apply (tick_product_ge d (F.of_int 40) (F.of_int 2)); try assumption; try reflexivity.
      - rewrite E40. split; [vm_compute; congruence|]. rewrite <- Zle_Qle. exact H.
      - rewrite E40, E2, Hi. vm_compute. congruence. }
    rewrite E2 in HP. lra.
  - assert (HP : (SF2Q fone <= SF2Q (F.mul (F.of_int d) incrementStep))%Q).
    { apply (tick_product_ge d (F.of_int 20) fone); try assumption; try reflexivity.
      - rewrite E20. split; [vm_compute; congruence|]. rewrite <- Zle_Qle. exact H.
      - rewrite E20, SF2Q_fone, Hi. vm_compute. congruence. }
    rewrite SF2Q_fone in HP. lra.
Qed.

Lemma tick_saturates_up (x : spec_float) (d : Z) :
  axis_ok x = true -> is_int d ->
  (d <= - 40 \/ (d <= - 20 /\ (0 <= SF2Q x)%Q)) -> tick_value x d = fone.
Proof.
  intros Hx Hd H. apply tick_to_fone; try assumption.
  assert (Hx' := Hx). apply axis_ok_spec in Hx' as [_ [Hlo Hhi]].
  pose proof incrementStep_value as Hi.
  assert (E40 : (SF2Q (F.of_int 40) == inject_Z 40)%Q) by (vm_compute; reflexivity).
  assert (E20 : (SF2Q (F.of_int 20) == inject_Z 20)%Q) by (vm_compute; reflexivity).
  assert (E2 : (SF2Q (F.of_int 2) == 2)%Q) by (vm_compute; reflexivity).
  destruct H as [H | [H H0]].
  - assert (HP : (SF2Q (F.mul (F.of_int d) incrementStep) <= - SF2Q (F.of_int 2))%Q).
    { apply (tick_product_le d (F.of_int 40) (F.of_int 2)); try assumption; try reflexivity.
      - rewrite E40. vm_compute. congruence.
      - rewrite E40, <- inject_Z_opp, <- Zle_Qle. exact H.
      - rewrite E40, E2, Hi. vm_compute. congruence. }
    rewrite E2 in HP. lra.
  - assert (HP : (SF2Q (F.mul (F.of_int d) incrementStep) <= - SF2Q fone)%Q).
    { apply (tick_product_le d (F.of_int 20) fone); try assumption; try reflexivity.
      - rewrite E20. vm_compute. congruence.
      - rewrite E20, <- inject_Z_opp, <- Zle_Qle. exact H.
      - rewrite E20, SF2Q_fone, Hi. vm_compute. congruence. }
    rewrite SF2Q_fone in HP. lra.
Qed.

(** ** Coming to rest *)

Lemma decay_iter_rest (n : nat) (x : spec_float) :
  fne (D.of_float x) dzero = false -> decay_iter n x = x.
Proof.
  intros Hz. induction n as [ | n IH]; [reflexivity|].
  rewrite decay_iter_S, IH. unfold decay_step. rewrite Hz. reflexivity.
Qed.

Lemma decay_iter_settles (n : nat) (x : spec_float) :
  axis_ok x = true -> (21 <= n)%nat -> fne (D.of_float (decay_iter n x)) dzero = false.
Proof.
  intros Hx Hn. pose proof (axis_ok_valid x Hx) as Hv.
  destruct (fne (D.of_float x) dzero) eqn:Hz.
  - rewrite fne_promoted in Hz by assumption.
    assert (Hnz : ~ (SF2Q x == 0)%Q).
    { intros H0. apply (fne_zero_spec x Hv) in H0. congruence. }
    rewrite (decay_reaches_zero_below fone x 21 n); try assumption; try reflexivity.
    rewrite SF2Q_fone. apply axis_ok_abs. exact Hx.
  - rewrite decay_iter_rest; assumption.
Qed.

Lemma run_steady (ins : list input) (st : state) :
  Forall (fun i => encoder1_read i = lastEncoder1Position st) ins ->
  joystickXFloat (fst (run ins st)) = decay_iter (length ins) (joystickXFloat st) /\
  lastEncoder1Position (fst (run ins st)) = lastEncoder1Position st.
Proof.
  revert st. induction ins as [ | i ins IH]; intros st Hall.
  - split; reflexivity.
  - inversion Hall as [ | ? ? Hi Hins]; subst.
    rewrite run_cons. cbn [fst length].
    assert (Hl : lastEncoder1Position (fst (loop i st)) = lastEncoder1Position st)
      by (rewrite loop_state; exact Hi).
    assert (Hxs : joystickXFloat (fst (loop i st)) = decay_step (joystickXFloat st)).
    { rewrite loop_state. cbn [joystickXFloat]. unfold after_encoder.
      rewrite Hi, Z.eqb_refl. reflexivity. }
    destruct (IH (fst (loop i st))) as [IH1 IH2]; [rewrite Hl; exact Hins|].
    rewrite IH1, IH2, Hxs, Hl. split; [|reflexivity].
    change (S (length ins)) with (1 + length ins)%nat. rewrite Nat.add_comm.
    symmetry. apply (decay_iter_add (length ins) 1).
Qed.

Lemma run_settles (ins : list input) (st : state) (e : Z) :
  axis_ok (joystickXFloat st) = true ->
  Forall (fun i => encoder1_read i = e) ins -> (21 <= length ins)%nat ->
  fne (D.of_float (joystickXFloat (fst (run ins st)))) dzero = false /\
  lastEncoder1Position (fst (run ins st)) = e.
Proof.
  intros Hx Hall Hlen. destruct ins as [ | i ins]; [cbn in Hlen; lia|].
  inversion Hall as [ | ? ? Hi Hins]; subst.
  rewrite run_cons. cbn [fst].
  assert (Hl : lastEncoder1Position (fst (loop i st)) = encoder1_read i)
    by (rewrite loop_state; reflexivity).
  destruct (run_steady ins (fst (loop i st))) as [H1 H2]; [rewrite Hl; exact Hins|].
  rewrite H1, H2, Hl. split; [|reflexivity].
  rewrite loop_state. cbn [joystickXFloat].
  rewrite <- (decay_iter_add (length ins) 1), Nat.add_comm.
  apply (decay_iter_settles (S (length ins))); [apply after_encoder_ok; exact Hx|].
  cbn [length] in Hlen. exact Hlen.
Qed.

(** ** The space key *)

Lemma key_step_other (k : option bool) (e : event) :
  is_key e = false -> key_step k e = k.
Proof. destruct k as [[|]|], e; cbn; intros H; try discriminate H; reflexivity. Qed.

Lemma fold_key_filter (evs : list event) (k : option bool) :
  fold_left key_step evs k = fold_left key_step (filter is_key evs) k.
Proof.
  revert k. induction evs as [ | e evs IH]; intros k; [reflexivity|].
  cbn [fold_left filter]. destruct (is_key e) eqn:E.
  - cbn [fold_left]. apply IH.
  - rewrite key_step_other by assumption. apply IH.
Qed.

Lemma space_key_loop (i : input) (st : state) :
  fold_left key_step (snd (loop i st)) (Some (negb (level (button st)))) =
    Some (negb (level (button (fst (loop i st))))).
Proof.
  rewrite fold_key_filter, loop_keys, loop_button_level.
  destruct (level (button st)), (button_level i); reflexivity.
Qed.

Lemma space_key_run (ins : list input) (st : state) :
  space_key (negb (level (button st))) (snd (run ins st)) =
    Some (negb (level (button (fst (run ins st))))).
Proof.
  unfold space_key. revert st. induction ins as [ | i ins IH]; intros st; [reflexivity|].
  rewrite run_cons. cbn [fst snd]. rewrite fold_left_app, space_key_loop. apply IH.
Qed.

(** ** Tick accounting *)

Lemma ticks_applied_app (a b : list event) :
  ticks_applied (a ++ b) = ticks_applied a + ticks_applied b.
Proof.
  induction a as [ | e a IH]; [reflexivity|].
  destruct e; cbn [app ticks_applied]; rewrite IH; lia.
Qed.

Lemma ticks_applied_none (evs : list event) :
  Forall (fun e => match e with Serial_enc _ _ => False | _ => True end) evs ->
  ticks_applied evs = 0.
Proof.
  induction 1 as [ | e evs He _ IH]; [reflexivity|].
  destruct e; cbn [ticks_applied]; try exact IH. contradiction.
Qed.

Lemma loop_ticks (i : input) (st : state) :
  ticks_applied (snd (loop i st)) = wrap32 (encoder1_read i - lastEncoder1Position st).
Proof.
  unfold loop, read_encoder. cbn [lastEncoder1Position joystickXFloat button].
  assert (Hrest : forall upd st2 ev2,
             Forall (fun e => match e with Serial_enc _ _ => False | _ => True end) ev2 ->
             ticks_applied (ev2 ++ update_hid upd st2 ++ button_handling st2 ++ [Delay 5]) = 0).
  { intros upd st2 ev2 H2. apply ticks_applied_none.
    apply Forall_app. split; [exact H2|]. apply Forall_app. split.
    - unfold update_hid. destruct upd; repeat constructor.
    - apply Forall_app. split; [|repeat constructor].
      unfold button_handling. destruct (fallingEdge _), (risingEdge _); repeat constructor. }
  assert (Hac : forall s, Forall (fun e => match e with Serial_enc _ _ => False | _ => True end)
                                 (snd (auto_center s))).
  { intros s. unfold auto_center. destruct (fne (D.of_float _) dzero); [|constructor].
    destruct (fne _ _); repeat constructor. }
  destruct (encoder1_read i =? lastEncoder1Position st) eqn:Ee; cbn [negb].
  - apply Z.eqb_eq in Ee. rewrite Ee, Z.sub_diag.
    specialize (Hac {| lastEncoder1Position := lastEncoder1Position st;
                       joystickXFloat := joystickXFloat st;
                       button := Bounce_update (button_level i) (button st) |}).
    destruct (auto_center _) as [[st2 upd2] ev2]. cbn [snd app] in *.
    rewrite Hrest by assumption. reflexivity.
  - match goal with |- context [auto_center ?s] => specialize (Hac s) end.
    destruct (auto_center _) as [[st2 upd2] ev2]. cbn [snd app ticks_applied] in *.
    rewrite Hrest by assumption. lia.
Qed.

(** ** Left and right *)

Lemma axis_ok_opp (x : spec_float) : axis_ok x = true -> axis_ok (SFopp x) = true.
Proof.
  intros Hx. apply axis_ok_spec in Hx as [Hv [Hlo Hhi]]. apply axis_ok_spec. split.
  - apply valid_fin_opp. exact Hv.
  - rewrite SF2Q_opp. lra.
Qed.

Lemma decay_step_opp (x : spec_float) :
  axis_ok x = true -> (SF2Q (decay_step (SFopp x)) == - SF2Q (decay_step x))%Q.
Proof.
  intros Hx. pose proof (axis_ok_opp x Hx) as Hx'.
  assert (Hp : F.mul (SFopp x) decayRate = SFopp (F.mul x decayRate)).
  { unfold F.mul. apply SFmul_opp; [|reflexivity].
    apply (valid_fin_inv F.prec F.emax), axis_ok_valid, Hx. }
  pose proof (SF2Q_opp x) as Ho. pose proof (SF2Q_opp (F.mul x decayRate)) as Hop.
  destruct (decay_step_cases x Hx) as [[H0 E] | [(Hnz & Ht & E) | (Hnz & Ht & E)]];
    destruct (decay_step_cases (SFopp x) Hx')
      as [[H0' E'] | [(Hnz' & Ht' & E') | (Hnz' & Ht' & E')]];
    cbv zeta in *; rewrite ?Hp in *; rewrite E, E'; change (SF2Q fzero) with 0%Q;
    try rewrite Hop in *; try rewrite Qabs_opp in *; lra.
Qed.

(** ** The mapping about the centre

    [round] takes a sum that ends in .5 upwards on both sides of the
    centre; among the axis values only 0.5 and -0.5 give such a sum. *)

Lemma half_count_only (x : spec_float) (k : Z) :
  axis_ok x = true -> (inject_Z k == 511 * SF2Q x + (1 # 2))%Q ->
  (Qabs (SF2Q x) == 1 # 2)%Q.
Proof.
  intros Hx Hk.
  destruct (Qlt_le_dec (Qabs (SF2Q x)) (pow2 (-11))) as [Hsmall | Hbig].
  - exfalso. change (pow2 (-11)) with (1 # 2048)%Q in Hsmall.
    assert (H1 : (inject_Z 0 < inject_Z k)%Q).
    { change (inject_Z 0) with 0%Q. revert Hsmall. apply Qabs_case; intros; lra. }
    assert (H2 : (inject_Z k < inject_Z 1)%Q).
    { change (inject_Z 1) with 1%Q. revert Hsmall. apply Qabs_case; intros; lra. }
    rewrite <- Zlt_Qlt in H1, H2. lia.
  - destruct (axis_grid x Hx Hbig) as (N & HN & Hb).
    change (pow2 (-34)) with (1 # 17179869184)%Q in HN.
    assert (HZ : k * 17179869184 = 511 * N + 8589934592).
    { apply inject_Z_injective.
      rewrite inject_Z_mult, inject_Z_plus, inject_Z_mult.
      change (inject_Z 17179869184) with (17179869184 # 1)%Q.
      change (inject_Z 8589934592) with (8589934592 # 1)%Q.
      change (inject_Z 511) with (511 # 1)%Q. lra. }
    assert (Hdiv : (8589934592 | N)).
    { apply (Z.gauss _ 511); [|reflexivity].
      exists (2 * k - 1). lia. }
    destruct Hdiv as [j Hj]. subst N.
    assert (Hj : j = 1 \/ j = - 1) by lia.
    rewrite HN. destruct Hj; subst j; vm_compute; reflexivity.
Qed.

(** ** The first tick from rest *)

Lemma tick_from_rest (x : spec_float) (d : Z) :
  axis_ok x = true -> (SF2Q x == 0)%Q -> is_int d ->
  (0 < d -> (SF2Q (tick_value x d) <= - SF2Q incrementStep)%Q) /\
  (d < 0 -> (SF2Q incrementStep <= SF2Q (tick_value x d))%Q).
Proof.
  intros Hx H0 Hd.
  pose proof (tick_amount_nearest x d Hx Hd) as Hn.
  pose proof (tick_amount_valid x d Hx Hd) as Hv.
  destruct (tick_product_bounds d Hd) as [HPv _].
  rewrite (tick_value_constrain x d Hx Hd).
  pose proof incrementStep_value as Hi.
  assert (Hr : (SF2Q (F.sub x (F.mul (F.of_int d) incrementStep))
                == - SF2Q (F.mul (F.of_int d) incrementStep))%Q).
  { apply (nearest_exact F.prec F.emax) in Hn; [rewrite Hn, H0; ring|].
    apply (in_format_eq F.prec F.emax (- SF2Q (F.mul (F.of_int d) incrementStep)));
      [rewrite H0; ring|].
    apply in_format_opp, valid_fin_in_format. exact HPv. }
  split; intros Hsgn.
  - assert (HP : (SF2Q incrementStep <= SF2Q (F.mul (F.of_int d) incrementStep))%Q).
    { apply (tick_product_ge d fone incrementStep); try assumption; try reflexivity.
      - rewrite SF2Q_fone. split; [lra|]. change 1%Q with (inject_Z 1). rewrite <- Zle_Qle. lia.
      - rewrite SF2Q_fone. lra. }
    destruct (constrain_cases _ Hv) as [[_ E] | [[H _] | [_ E]]]; rewrite ?E.
    + rewrite SF2Q_fmone, Hi. lra.
    + lra.
    + lra.
  - assert (HP : (SF2Q (F.mul (F.of_int d) incrementStep) <= - SF2Q incrementStep)%Q).
    { apply (tick_product_le d fone incrementStep); try assumption; try reflexivity.
      - rewrite SF2Q_fone. lra.
      - rewrite SF2Q_fone. change (- (1))%Q with (inject_Z (- 1)). rewrite <- Zle_Qle. lia.
      - rewrite SF2Q_fone. lra. }
    destruct (constrain_cases _ Hv) as [[H _] | [[_ E] | [_ E]]]; rewrite ?E.
    + lra.
    + rewrite SF2Q_fone, Hi. lra.
    + lra.
Qed.

Lemma decay_keeps_a_tick (y : spec_float) :
  axis_ok y = true ->
  ((SF2Q y <= - SF2Q incrementStep)%Q -> 103 <= map_x (decay_step y) <= 492) /\
  ((SF2Q incrementStep <= SF2Q y)%Q -> 532 <= map_x (decay_step y) <= 921).
Proof.
  intros Hy. pose proof incrementStep_value as Hi.
  pose proof (decay_step_ok y Hy) as Hz.
  pose proof (decay_step_range y Hy) as Hr.
  split; intros Hle.
  - pose proof (decay_step_mono incrementStep (SFopp y) eq_refl (axis_ok_opp y Hy)) as Hm.
    rewrite SF2Q_opp, decay_step_opp in Hm by assumption.
    rewrite (Qabs_pos (SF2Q incrementStep)) in Hm by (rewrite Hi; lra).
    specialize (Hm ltac:(lra)).
    assert (Hz' : (SF2Q (decay_step y) <= SF2Q (SFopp (decay_step incrementStep)))%Q).
    { rewrite SF2Q_opp. revert Hm. apply Qabs_case; intros; lra. }
    pose proof (map_x_le (decay_step y) (SFopp (decay_step incrementStep)) Hz eq_refl Hz') as Hb.
    change (map_x (SFopp (decay_step incrementStep))) with 492 in Hb.
    split; [|exact Hb].
    assert (Hlo : (SF2Q (SFopp decayRate) <= SF2Q (decay_step y))%Q).
    { rewrite SF2Q_opp. destruct Hr as [H0 | [_ H2]].
      - rewrite H0. rewrite decayRate_value. lra.
      - revert H2. apply Qabs_case; intros; lra. }
    pose proof (map_x_le (SFopp decayRate) (decay_step y) eq_refl Hz Hlo) as Ha.
    change (map_x (SFopp decayRate)) with 103 in Ha. exact Ha.
  - pose proof (decay_step_mono incrementStep y eq_refl Hy) as Hm.
    rewrite (Qabs_pos (SF2Q incrementStep)) in Hm by (rewrite Hi; lra).
    specialize (Hm Hle).
    assert (Hz' : (SF2Q (decay_step incrementStep) <= SF2Q (decay_step y))%Q).
    { revert Hm. apply Qabs_case; intros; lra. }
    pose proof (map_x_le (decay_step incrementStep) (decay_step y) eq_refl Hz Hz') as Hb.
    change (map_x (decay_step incrementStep)) with 532 in Hb.
    split; [exact Hb|].
    assert (Hhi : (SF2Q (decay_step y) <= SF2Q decayRate)%Q).
    { destruct Hr as [H0 | [_ H2]].
      - rewrite H0. rewrite decayRate_value. lra.
      - revert H2. apply Qabs_case; intros; lra. }
    pose proof (map_x_le (decay_step y) decayRate Hz eq_refl Hhi) as Ha.
    change (map_x decayRate) with 921 in Ha. exact Ha.
Qed.

(** ** Slow turning *)

Lemma slow_turn_value (x : spec_float) (d : Z) :
  axis_ok x = true -> (Qabs (SF2Q x) <= SF2Q f_quarter)%Q -> - 1 <= d <= 1 ->
  (Qabs (SF2Q (decay_step (tick_value x d))) <= SF2Q f_quarter)%Q.
Proof.
  intros Hx Hq Hd.
  assert (Hint : is_int d) by (unfold is_int; lia).
  pose proof (tick_amount_nearest x d Hx Hint) as Hn.
  pose proof (tick_amount_valid x d Hx Hint) as Hv.
  pose proof (tick_value_ok x d Hx Hint) as Hy.
  set (b := F.of_double (D.lit 39 128)).
  assert (Hb : (SF2Q b == 39 # 128)%Q) by (vm_compute; reflexivity).
  assert (Hqv : (SF2Q f_quarter == 1 # 4)%Q) by (vm_compute; reflexivity).
  rewrite Hqv in *.
  assert (HP : (Qabs (SF2Q (F.mul (F.of_int d) incrementStep)) <= 13421773 # 268435456)%Q).
  { assert (Hc : d = - 1 \/ d = 0 \/ d = 1) by lia.
    destruct Hc as [-> | [-> | ->]]; vm_compute; congruence. }
  assert (Hr : (SF2Q (SFopp b) <= SF2Q (F.sub x (F.mul (F.of_int d) incrementStep)) <= SF2Q b)%Q).
  { apply (nearest_between F.prec F.emax _ _ (SFopp b) b eq_refl eq_refl Hn).
    rewrite SF2Q_opp, Hb. revert HP Hq.
    apply Qabs_case; intros; revert Hq; apply Qabs_case; intros; lra. }
  rewrite SF2Q_opp, Hb in Hr.
  assert (Hyb : (Qabs (SF2Q (tick_value x d)) <= SF2Q b)%Q).
  { rewrite (tick_value_constrain x d Hx Hint).
    destruct (constrain_cases _ Hv) as [[H _] | [[H _] | [_ E]]]; [lra | lra |].
    rewrite E, Hb. apply Qabs_case; intros; lra. }
  pose proof (decay_step_mono (tick_value x d) b Hy eq_refl Hyb) as Hm.
  eapply Qle_trans; [exact Hm|]. vm_compute. congruence.
Qed.

(** ** The properties *)

(** X1.  The decay block never leaves a nonzero axis value as it found
    it.  For an axis value within the invariant the comparison
    [joystickXFloat != oldX] succeeds every time the block is entered, so
    the block raises the update flag, and prints, exactly when the value
    it finds is not 0.0. *)
Theorem decay_block_always_moves (st : state) :
  axis_ok (joystickXFloat st) = true ->
  let x := joystickXFloat st in
  snd (fst (auto_center st)) = fne (D.of_float x) dzero /\
  (fne (D.of_float x) dzero = true ->
   fne (decay_value x) x = true /\ snd (auto_center st) = [Serial_decay (decay_value x)]).
Proof.
  intros Hx x. split; [apply auto_center_flag; exact Hx|].
  intros Hne. pose proof (decay_value_moves x Hx Hne) as Hm. split; [exact Hm|].
  unfold auto_center. fold x. rewrite Hne, Hm. reflexivity.
Qed.

Lemma decay_block_always_moves_witness :
  axis_ok (joystickXFloat saturated_state) = true /\
  snd (fst (auto_center saturated_state)) = true /\
  snd (auto_center saturated_state) = [Serial_decay decayRate].
Proof.
  split; [reflexivity|].
  destruct (decay_block_always_moves saturated_state eq_refl) as [H1 H2].
  split; [exact H1 | exact (proj2 (H2 eq_refl))].
Defined.

(** X2.  A pass of [loop] sends a frame unless nothing happened: from a
    state within the axis invariant, the pass sends no frame if and only
    if the encoder count is the stored one and the axis value is 0.0; in
    every other pass it sends exactly one frame, built from the axis value
    the pass ends with. *)
Theorem frame_sent_iff (i : input) (st : state) :
  axis_ok (joystickXFloat st) = true ->
  let frames := filter is_joystick (snd (loop i st)) in
  (frames = [] <->
   encoder1_read i = lastEncoder1Position st /\
   fne (D.of_float (joystickXFloat st)) dzero = false) /\
  (frames <> [] ->
   frames = [Joystick_X (map_x (joystickXFloat (fst (loop i st)))); Joystick_Y 512;
             Joystick_send_now]).
Proof.
  intros Hx frames. subst frames. rewrite (loop_frames_sent i st Hx).
  destruct (Z.eqb_spec (encoder1_read i) (lastEncoder1Position st)) as [He | He];
    destruct (fne (D.of_float (joystickXFloat st)) dzero); cbn [negb orb];
    (split; [split; [intros H | intros [H1 H2]] | intros H]);
    try discriminate; try contradiction; try reflexivity; try (split; [assumption | reflexivity]).
Qed.

Lemma frame_sent_iff_witness :
  axis_ok (joystickXFloat turning_state) = true /\
  filter is_joystick (snd (loop (mkInput 7 false) turning_state)) =
    [Joystick_X 614; Joystick_Y 512; Joystick_send_now].
Proof.
  split; [reflexivity|].
  destruct (frame_sent_iff (mkInput 7 false) turning_state eq_refl) as [_ H].
  apply H. vm_compute. discriminate.
Defined.

(** X3.  The host never holds a stale axis value.  After [setup] and any
    number of passes of [loop], whatever they read, the report the host
    last received is the mapping of the current axis value, with Y at
    512. *)
Theorem host_report_in_sync (ins : list input) (h : (Z * Z) * (Z * Z)) :
  host_report h (snd setup ++ snd (run ins (fst setup))) =
    (map_x (joystickXFloat (fst (run ins (fst setup)))), 512).
Proof.
  unfold host_report. rewrite fold_left_app.
  apply (host_report_run ins (fst setup)); reflexivity.
Qed.

(** X4.  [loop] never sends the ends of the range.  A pass decays the
    value it has just clamped, so the axis value a pass leaves is at most
    [decayRate] in magnitude, and the X of every frame of a run is 512,
    or between 103 and 507, or between 517 and 921. *)
Theorem frames_stay_off_full_scale (ins : list input) (i : input) (st : state) :
  axis_ok (joystickXFloat st) = true ->
  (Qabs (SF2Q (joystickXFloat (fst (loop i st)))) <= SF2Q decayRate)%Q /\
  Forall frame_X_reachable (snd (run ins st)).
Proof.
  intros Hx. split; [|apply run_range; exact Hx].
  destruct (loop_range i st Hx) as [[H0 | [_ H]] _]; [|exact H].
  rewrite H0, decayRate_value. vm_compute. congruence.
Qed.

Lemma frames_stay_off_full_scale_witness :
  axis_ok (joystickXFloat saturated_state) = true /\
  Forall frame_X_reachable
    (snd (run [mkInput (-100) true; mkInput 100 false] saturated_state)).
Proof.
  split; [reflexivity|].
  exact (proj2 (frames_stay_off_full_scale [mkInput (-100) true; mkInput 100 false]
                  (mkInput 0 true) saturated_state eq_refl)).
Defined.

(** X5.  The mapping to the HID range is monotone: of two axis values
    within the invariant, the larger never maps to the smaller X. *)
Theorem map_x_monotone (x y : spec_float) :
  axis_ok x = true -> axis_ok y = true -> SFleb x y = true -> map_x x <= map_x y.
Proof.
  intros Hx Hy Hle. apply map_x_le; try assumption.
  apply (SFleb_spec F.prec F.emax F_prec_pos); try apply axis_ok_valid; assumption.
Qed.

Lemma map_x_monotone_witness :
  SFleb zeroThreshold f_quarter = true /\ map_x zeroThreshold <= map_x f_quarter.
Proof. split; [reflexivity | apply map_x_monotone; reflexivity]. Defined.

(** X6.  A tick always moves the axis, against the sign of the delta: a
    positive delta strictly lowers the axis value unless it is already
    -1.0, where it stays; a negative delta strictly raises it unless it is
    already 1.0. *)
Theorem tick_moves_axis (x : spec_float) (d : Z) :
  axis_ok x = true -> is_int d ->
  let x' := tick_value x d in
  (0 < d ->
   ((- (1) < SF2Q x)%Q -> (SF2Q x' < SF2Q x)%Q) /\ ((SF2Q x == - (1))%Q -> x' = fmone)) /\
  (d < 0 ->
   ((SF2Q x < 1)%Q -> (SF2Q x < SF2Q x')%Q) /\ ((SF2Q x == 1)%Q -> x' = fone)).
Proof.
  intros Hx Hd x'. split; intros Hs.
  - apply tick_value_down; assumption.
  - apply tick_value_up; assumption.
Qed.

Lemma tick_moves_axis_witness :
  axis_ok f_quarter = true /\ is_int 3 /\
  (SF2Q (tick_value f_quarter 3) < SF2Q f_quarter)%Q.
Proof.
  split; [reflexivity|]. split; [unfold is_int; lia|].
  destruct (tick_moves_axis f_quarter 3 eq_refl ltac:(unfold is_int; lia)) as [H _].
  apply H; [lia | vm_compute; reflexivity].
Defined.

(** X7.  A burst of ticks saturates the axis: 40 ticks or more in one
    pass take it to the stop from any value, 20 or more from the centre
    or from the side they push to; 39 ticks from the far stop and 19 from
    the centre do not. *)
Theorem tick_burst_saturates (x : spec_float) (d : Z) :
  axis_ok x = true -> is_int d ->
  (40 <= d -> tick_value x d = fmone) /\
  (d <= - 40 -> tick_value x d = fone) /\
  (20 <= d -> (SF2Q x <= 0)%Q -> tick_value x d = fmone) /\
  (d <= - 20 -> (0 <= SF2Q x)%Q -> tick_value x d = fone) /\
  tick_value fone 39 <> fmone /\ tick_value fzero 19 <> fmone.
Proof.
  intros Hx Hd. split; [|split; [|split; [|split; [|split]]]].
  - intros H. apply tick_saturates_down; auto.
  - intros H. apply tick_saturates_up; auto.
  - intros H H0. apply tick_saturates_down; auto.
  - intros H H0. apply tick_saturates_up; auto.
  - vm_compute. discriminate.
  - vm_compute. discriminate.
Qed.

Lemma tick_burst_saturates_witness :
  axis_ok fone = true /\ is_int 40 /\ tick_value fone 40 = fmone.
Proof.
  split; [reflexivity|]. split; [unfold is_int; lia|].
  destruct (tick_burst_saturates fone 40 eq_refl ltac:(unfold is_int; lia)) as [H _].
  apply H. lia.
Defined.

(** X8.  The axis comes to rest.  Once the encoder count stops changing,
    21 passes at most, counting the one that saw the last change, bring
    the axis value to 0.0 from any state within the invariant; from then
    on a pass with the same count sends no frame and leaves the value
    alone.  From the stop, 20 passes are not enough. *)
Theorem axis_settles (ins : list input) (st : state) (e : Z) :
  axis_ok (joystickXFloat st) = true ->
  Forall (fun i => encoder1_read i = e) ins -> (21 <= length ins)%nat ->
  let st' := fst (run ins st) in
  fne (D.of_float (joystickXFloat st')) dzero = false /\
  lastEncoder1Position st' = e /\
  (forall i, encoder1_read i = e ->
     filter is_joystick (snd (loop i st')) = [] /\
     joystickXFloat (fst (loop i st')) = joystickXFloat st') /\
  fne (joystickXFloat (fst (run (hold 0 true 20) saturated_state))) fzero = true.
Proof.
  intros Hx Hall Hlen st'.
  destruct (run_settles ins st e Hx Hall Hlen) as [Hz Hl]. fold st' in Hz, Hl.
  split; [exact Hz | split; [exact Hl | split]].
  - intros i Hi. rewrite <- Hl in Hi. split.
    + rewrite (loop_frames_sent i st' (run_axis_ok ins st Hx)).
      rewrite Hi, Z.eqb_refl, Hz. reflexivity.
    + apply loop_idle_state; assumption.
  - vm_compute. reflexivity.
Qed.

Lemma axis_settles_witness :
  axis_ok (joystickXFloat saturated_state) = true /\
  Forall (fun i => encoder1_read i = - 3) (hold (-3) true 21) /\
  fne (D.of_float (joystickXFloat (fst (run (hold (-3) true 21) saturated_state)))) dzero = false.
Proof.
  assert (Hall : Forall (fun i => encoder1_read i = - 3) (hold (-3) true 21))
    by (repeat constructor).
  split; [reflexivity|]. split; [exact Hall|].
  exact (proj1 (axis_settles (hold (-3) true 21) saturated_state (-3) eq_refl Hall
                  ltac:(cbn; lia))).
Defined.

(** X9.  The space key follows the button.  Over any run of [loop], from
    any state, key-down and key-up alternate, and after every pass the
    space key is down on the host exactly when the debounced level of
    the button is low, the level being the one the pass read. *)
Theorem space_key_mirrors_button (ins : list input) (st : state) :
  space_key (negb (level (button st))) (snd (run ins st)) =
    Some (negb (level (button (fst (run ins st))))) /\
  forall i, level (button (fst (run (ins ++ [i]) st))) = button_level i.
Proof.
  split; [apply space_key_run|].
  intros i. rewrite run_app. cbn [fst]. rewrite run_cons. cbn [fst run].
  apply loop_button_level.
Qed.

(** X10.  The mapping is symmetric about the centre but for one pair of
    values: X(x) + X(-x) = 1024 for every axis value within the invariant
    other than 0.5 and -0.5, where [round] takes both sums upwards and
    X(x) + X(-x) = 1025. *)
Theorem map_x_mirror_image (x : spec_float) :
  axis_ok x = true ->
  map_x x + map_x (SFopp x) = if Qeq_bool (Qabs (SF2Q x)) (1 # 2) then 1025 else 1024.
Proof.
  intros Hx. pose proof (axis_ok_opp x Hx) as Hx'.
  rewrite (map_x_exact x Hx), (map_x_exact (SFopp x) Hx').
  set (a := (512 + 511 * SF2Q x + (1 # 2))%Q).
  assert (Ea : (512 + 511 * SF2Q (SFopp x) + (1 # 2) == 1025 - a)%Q).
  { rewrite SF2Q_opp. unfold a. ring. }
  rewrite Ea.
  pose proof (Qfloor_le a) as H1. pose proof (Qlt_floor a) as H2.
  set (k := Qfloor a) in *.
  rewrite inject_Z_plus in H2. change (inject_Z 1) with 1%Q in H2.
  destruct (Qeq_bool (Qabs (SF2Q x)) (1 # 2)) eqn:Eh.
  - apply Qeq_bool_iff in Eh.
    assert (Hak : (a == inject_Z k)%Q).
    { assert (Hi : (a == 768)%Q \/ (a == 257)%Q).
      { unfold a. revert Eh. apply Qabs_case; intros; [left | right]; lra. }
      assert (Hk : k = 768 \/ k = 257).
      { destruct Hi as [Hi | Hi]; [left | right]; unfold k; rewrite Hi; reflexivity. }
      destruct Hi as [Hi | Hi], Hk as [Hk | Hk]; rewrite Hi, Hk; try reflexivity.
      - exfalso. rewrite Hi, Hk in H2. vm_compute in H2. discriminate.
      - exfalso. rewrite Hi, Hk in H1. apply H1. reflexivity. }
    assert (Hf : Qfloor (1025 - a) = 1025 - k).
    { apply Qfloor_unique; rewrite ?inject_Z_plus, !inject_Z_sub;
        change (inject_Z 1025) with 1025%Q; change (inject_Z 1) with 1%Q; lra. }
    rewrite Hf. lia.
  - assert (Hne : ~ (a == inject_Z k)%Q).
    { intros Hak. apply Qeq_bool_neq in Eh. apply Eh.
      apply (half_count_only x (k - 512) Hx).
      rewrite inject_Z_sub. change (inject_Z 512) with 512%Q. unfold a in Hak. lra. }
    assert (Hf : Qfloor (1025 - a) = 1024 - k).
    { apply Qfloor_unique; rewrite ?inject_Z_plus, !inject_Z_sub;
        change (inject_Z 1024) with 1024%Q; change (inject_Z 1) with 1%Q; lra. }
    rewrite Hf. lia.
Qed.

Lemma map_x_mirror_image_witness :
  axis_ok decayRate = true /\
  map_x decayRate + map_x (SFopp decayRate) = 1024 /\
  map_x (F.of_double (D.lit 5 10)) + map_x (SFopp (F.of_double (D.lit 5 10))) = 1025.
Proof.
  split; [reflexivity|]. split.
  - exact (map_x_mirror_image decayRate eq_refl).
  - exact (map_x_mirror_image (F.of_double (D.lit 5 10)) eq_refl).
Defined.

(** X11.  The decay treats left and right alike: the decay step of the
    negated axis value is the negation of the decay step of the value. *)
Theorem decay_mirror_image (x : spec_float) :
  axis_ok x = true -> (SF2Q (decay_step (SFopp x)) == - SF2Q (decay_step x))%Q.
Proof. apply decay_step_opp. Qed.

Lemma decay_mirror_image_witness :
  axis_ok f_quarter = true /\
  (SF2Q (decay_step (SFopp f_quarter)) == - SF2Q (decay_step f_quarter))%Q.
Proof. split; [reflexivity | exact (decay_mirror_image f_quarter eq_refl)]. Defined.

(** X12.  No tick is lost or counted twice: while the counts stay within
    [-2^30, 2^30), the deltas the encoder block applies over a run add up
    to the last count read minus the count stored at the start. *)
Theorem ticks_accounted (ins : list input) (st : state) :
  - 2 ^ 30 <= lastEncoder1Position st < 2 ^ 30 ->
  Forall (fun i => - 2 ^ 30 <= encoder1_read i < 2 ^ 30) ins ->
  ticks_applied (snd (run ins st)) =
    lastEncoder1Position (fst (run ins st)) - lastEncoder1Position st.
Proof.
  revert st. induction ins as [ | i ins IH]; intros st Hl Hall.
  - cbn. lia.
  - inversion Hall as [ | ? ? Hi Hins]; subst.
    rewrite run_cons. cbn [fst snd]. rewrite ticks_applied_app, loop_ticks.
    assert (Hl' : lastEncoder1Position (fst (loop i st)) = encoder1_read i)
      by (rewrite loop_state; reflexivity).
    rewrite IH; [|rewrite Hl'; exact Hi | exact Hins].
    rewrite Hl', wrap32_small; [lia|]. unfold is_int. lia.
Qed.

Lemma ticks_accounted_witness :
  - 2 ^ 30 <= lastEncoder1Position turning_state < 2 ^ 30 /\
  ticks_applied (snd (run press_release_inputs turning_state)) = 1 - 7.
Proof.
  split; [cbn; lia|].
  apply (ticks_accounted press_release_inputs turning_state).
  - cbn. lia.
  - repeat constructor; cbn; lia.
Defined.

(** X13.  The first tick from rest shows on the host, inverted: from an
    axis value of 0.0, a pass that reads a higher count sends a frame
    with X between 103 and 492, and a pass that reads a lower count one
    with X between 532 and 921. *)
Theorem first_tick_frame (i : input) (st : state) :
  axis_ok (joystickXFloat st) = true ->
  fne (D.of_float (joystickXFloat st)) dzero = false ->
  is_int (encoder1_read i - lastEncoder1Position st) ->
  encoder1_read i <> lastEncoder1Position st ->
  let v := map_x (joystickXFloat (fst (loop i st))) in
  filter is_joystick (snd (loop i st)) = [Joystick_X v; Joystick_Y 512; Joystick_send_now] /\
  (lastEncoder1Position st < encoder1_read i -> 103 <= v <= 492) /\
  (encoder1_read i < lastEncoder1Position st -> 532 <= v <= 921).
Proof.
  intros Hx Hz Hd Hne v. subst v.
  pose proof (axis_ok_valid _ Hx) as Hv.
  assert (H0 : (SF2Q (joystickXFloat st) == 0)%Q).
  { apply (fne_zero_spec _ Hv). rewrite <- fne_promoted by assumption. exact Hz. }
  split.
  - rewrite (loop_frames_sent i st Hx).
    destruct (Z.eqb_spec (encoder1_read i) (lastEncoder1Position st)); [contradiction|].
    reflexivity.
  - rewrite loop_state. cbn [joystickXFloat]. unfold after_encoder.
    destruct (Z.eqb_spec (encoder1_read i) (lastEncoder1Position st)); [contradiction|].
    cbn [negb]. rewrite (wrap32_small _ Hd).
    set (d := encoder1_read i - lastEncoder1Position st) in *.
    destruct (tick_from_rest (joystickXFloat st) d Hx H0 Hd) as [Hdn Hup].
    destruct (decay_keeps_a_tick _ (tick_value_ok _ d Hx Hd)) as [Ha Hb].
    split; intros Hs.
    + apply Ha, Hdn. lia.
    + apply Hb, Hup. lia.
Qed.

Lemma first_tick_frame_witness :
  fne (D.of_float (joystickXFloat (fst setup))) dzero = false /\
  filter is_joystick (snd (loop (mkInput 1 true) (fst setup))) =
    [Joystick_X 492; Joystick_Y 512; Joystick_send_now].
Proof.
  split; [reflexivity|].
  exact (proj1 (first_tick_frame (mkInput 1 true) (fst setup) eq_refl eq_refl
                  ltac:(unfold is_int; cbn; lia) ltac:(cbn; lia))).
Defined.

(** X14.  Slow turning stays near the centre: a pass that finds the axis
    value within [-0.25, 0.25] and reads a count at most one tick from the
    stored one leaves the axis value within [-0.25, 0.25], so the X it
    maps to is between 384 and 640. *)
Theorem slow_turn_stays_near_centre (i : input) (st : state) :
  axis_ok (joystickXFloat st) = true ->
  (Qabs (SF2Q (joystickXFloat st)) <= SF2Q f_quarter)%Q ->
  - 1 <= encoder1_read i - lastEncoder1Position st <= 1 ->
  let x' := joystickXFloat (fst (loop i st)) in
  (Qabs (SF2Q x') <= SF2Q f_quarter)%Q /\ 384 <= map_x x' <= 640.
Proof.
  intros Hx Hq Hd x'.
  assert (Hx' : axis_ok x' = true) by (apply loop_axis_ok; exact Hx).
  assert (Hb : (Qabs (SF2Q x') <= SF2Q f_quarter)%Q).
  { subst x'. rewrite loop_state. cbn [joystickXFloat]. unfold after_encoder.
    destruct (Z.eqb_spec (encoder1_read i) (lastEncoder1Position st)) as [He | He]; cbn [negb].
    - pose proof (decay_step_sign _ Hx) as [H1 H2]. revert Hq.
      apply Qabs_case; intros; apply Qabs_case; intros;
        try (specialize (H1 ltac:(lra))); try (specialize (H2 ltac:(lra))); lra.
    - rewrite wrap32_small by (unfold is_int; lia).
      apply slow_turn_value; assumption. }
  split; [exact Hb|].
  pose proof (map_x_le (SFopp f_quarter) x' eq_refl Hx') as Ha.
  pose proof (map_x_le x' f_quarter Hx' eq_refl) as Hc.
  change (map_x (SFopp f_quarter)) with 384 in Ha.
  change (map_x f_quarter) with 640 in Hc.
  rewrite SF2Q_opp in Ha.
  split; [apply Ha | apply Hc]; revert Hb; apply Qabs_case; intros; lra.
Qed.

Lemma slow_turn_stays_near_centre_witness :
  axis_ok (joystickXFloat turning_state) = true /\
  384 <= map_x (joystickXFloat (fst (loop (mkInput 6 false) turning_state))) <= 640.
Proof.
  split; [reflexivity|].
  exact (proj2 (slow_turn_stays_near_centre (mkInput 6 false) turning_state eq_refl
                  ltac:(vm_compute; discriminate) ltac:(cbn; lia))).
Defined.

(** X15.  The return to the centre never overshoots: with the knob
    still, the X the axis value maps to moves towards 512 pass after
    pass, monotonically, and never crosses it. *)
Theorem recentring_never_overshoots (k : nat) (x : spec_float) :
  axis_ok x = true ->
  ((0 <= SF2Q x)%Q ->
   512 <= map_x (decay_iter (S k) x) <= map_x (decay_iter k x) /\
   map_x (decay_iter k x) <= map_x x) /\
  ((SF2Q x <= 0)%Q ->
   map_x (decay_iter k x) <= map_x (decay_iter (S k) x) <= 512 /\
   map_x x <= map_x (decay_iter k x)).
Proof.
  intros Hx. pose proof (decay_iter_ok k x Hx) as Hk.
  pose proof (decay_iter_ok (S k) x Hx) as HS.
  pose proof (decay_iter_sign k x Hx) as [Hp Hn].
  pose proof (decay_step_sign _ Hk) as [Hp' Hn']. rewrite <- decay_iter_S in Hp', Hn'.
  split; intros H0.
  - specialize (Hp H0). specialize (Hp' ltac:(lra)). split; [split|].
    + change 512 with (map_x fzero). apply map_x_le; [reflexivity | exact HS |].
      change (SF2Q fzero) with 0%Q. lra.
    + apply map_x_le; [exact HS | exact Hk | lra].
    + apply map_x_le; [exact Hk | exact Hx | lra].
  - specialize (Hn H0). specialize (Hn' ltac:(lra)). split; [split|].
    + apply map_x_le; [exact Hk | exact HS | lra].
    + change 512 with (map_x fzero). apply map_x_le; [exact HS | reflexivity |].
      change (SF2Q fzero) with 0%Q. lra.
    + apply map_x_le; [exact Hx | exact Hk | lra].
Qed.

Lemma recentring_never_overshoots_witness :
  axis_ok fone = true /\
  512 <= map_x (decay_iter 4 fone) <= map_x (decay_iter 3 fone).
Proof.
  split; [reflexivity|].
  destruct (recentring_never_overshoots 3 fone eq_refl) as [H _].
  apply H. vm_compute. discriminate.
Defined.
